(** * Face Sorter: the person index of [app.py]

    A shallow embedding of the identity matcher of [app.py]
    ([load_person_index], [save_person_index], [_normalize_np],
    [_update_person_proto] and the matching loop of [match_and_apply]) and
    of the helpers around it ([_clamp], [load_config], [safe_copy], the
    copy loops of [match_and_apply], [list_dir], [_ip_is_private]),
    followed by the properties of the design document that concern the
    matcher and by further properties of the code.

    Conventions of the embedding.
    - numpy's arithmetic is an interface, [Numeric]: the functions below are
      written once over it and read at four instances: the rationals with
      a square root cut to twelve decimals (exact otherwise, everything
      evaluates); float32, with NaN and with every result rounded to 24
      bits (everything evaluates); the real numbers (exact Euclidean
      geometry); and the real numbers with a rounding of bounded relative
      error after every operation.
    - A vector is the list of its coordinates, of any length.  A centroid
      of another width than the prototypes makes [P @ c] raise, which ends
      the invocation; the vectors stored in one registry are taken to
      have one width, so that [np.stack] and the blend of
      [_update_person_proto] are defined.
    - A Python dict is an association list kept in insertion order; a JSON
      object with optional keys is a record of optional fields.
    - Cluster ids are integers, on which the key normalisation of
      [match_and_apply] ([int(cid)], [int(c) if str(c).isdigit() else c]) is
      the identity.
    - Of the target directory [match_and_apply] keeps only the registry
      file and the numbers of the digit-named sub-directories; the copies
      of the images are loops of their own, [copy_images] and [copy_plain],
      over the folders as dicts from names to contents. *)

From Stdlib Require Import List ZArith QArith Reals Lra Lia Bool Arith Sorted Permutation.
From Stdlib Require String Ascii DecimalString DecimalNat.
Import ListNotations.

Set Implicit Arguments.

(* ------------------------------------------------------------------ *)
(** * The numeric runtime *)

Class Numeric (A : Type) := {
  flit : Q -> A;               (* a float literal *)
  fadd : A -> A -> A;
  fsub : A -> A -> A;
  fmul : A -> A -> A;
  fdiv : A -> A -> A;
  fsqrt : A -> A;
  flt : A -> A -> bool;        (* a < b *)
  fle : A -> A -> bool;        (* a <= b *)
  fnan : A -> bool             (* math.isnan *)
}.

(** Order laws of a runtime without NaN: [<] is a strict weak order. *)
Class NumericOrder (A : Type) `{Numeric A} : Prop := {
  flt_irrefl : forall a, flt a a = false;
  flt_trans : forall a b c, flt a b = true -> flt b c = true -> flt a c = true;
  flt_negtrans : forall a b c, flt a b = false -> flt b c = false -> flt a c = false
}.
Arguments NumericOrder A {_}.

(** [np.inf] only occurs as the mask [-np.inf] of [_update_person_proto]. *)
Inductive ext (A : Type) : Type :=
| NegInf : ext A
| Fin : A -> ext A.
Arguments NegInf {A}.
Arguments Fin {A} _.

(** A JSON key that may be missing, hold [null], or hold a value. *)
Inductive jfield (T : Type) : Type :=
| Missing : jfield T
| Null : jfield T
| Val : T -> jfield T.
Arguments Missing {T}.
Arguments Null {T}.
Arguments Val {T} _.

(* ------------------------------------------------------------------ *)
(** * Python dicts, in insertion order *)

Section Dict.
Variable V : Type.

Definition dict := list (Z * V).

Fixpoint dict_get (k : Z) (d : dict) : option V :=
  match d with
  | [] => None
  | (k', v) :: r => if Z.eqb k k' then Some v else dict_get k r
  end.

(** [d[k] = v]: an existing key keeps its place. *)
Fixpoint dict_set (k : Z) (v : V) (d : dict) : dict :=
  match d with
  | [] => [(k, v)]
  | (k', v') :: r => if Z.eqb k k' then (k', v) :: r else (k', v') :: dict_set k v r
  end.

Definition dict_get_or (k : Z) (d : dict) (dflt : V) : V :=
  match dict_get k d with Some v => v | None => dflt end.

Definition dict_keys (d : dict) : list Z := map fst d.
Definition dict_values (d : dict) : list V := map snd d.

(** [{**a, **b}] *)
Definition dict_merge (a b : dict) : dict :=
  fold_left (fun acc kv => dict_set (fst kv) (snd kv) acc) b a.
End Dict.

(* ------------------------------------------------------------------ *)
(** * Vector math *)

Section VectorMath.
Context {A : Type} `{Numeric A}.

Definition vec := list A.

Definition of_nat (n : nat) : A := flit (inject_Z (Z.of_nat n)).

Definition vsum (l : list A) : A := fold_left fadd l (flit 0).

Definition zip_with (f : A -> A -> A) (a b : vec) : vec :=
  map (fun p => f (fst p) (snd p)) (combine a b).

Definition dot (a b : vec) : A := vsum (zip_with fmul a b).

(** [np.linalg.norm] of a vector *)
Definition norm (a : vec) : A := fsqrt (vsum (map (fun x => fmul x x) a)).

Definition scale (k : A) (a : vec) : vec := map (fmul k) a.
Definition vadd : vec -> vec -> vec := zip_with fadd.
Definition vsub : vec -> vec -> vec := zip_with fsub.

Definition eps : A := flit (1 # 1000000000000).

(** [_normalize_np]: [arr / (np.linalg.norm(arr) + 1e-12)] *)
Definition _normalize_np (v : vec) : vec :=
  let n := fadd (norm v) eps in
  map (fun x => fdiv x n) v.

(** [P @ c], for a [c] of the width of the rows of [P] (see [conforms]) *)
Definition matvec (P : list vec) (c : vec) : list A := map (fun r => dot r c) P.

(** [np.nan_to_num(sims, nan=-1.0)] on one entry *)
Definition nan_to_num (s : A) : A := if fnan s then flit (-1) else s.

(** [X.mean(0)] *)
Definition mean0 (X : list vec) : vec :=
  match X with
  | [] => []
  | r :: rs => map (fun x => fdiv x (of_nat (length X))) (fold_left vadd rs r)
  end.

(** Python's [max(a, b)] *)
Definition pymax (a b : A) : A := if flt a b then b else a.

(** [np.max] of a row *)
Definition row_max (l : list A) : A :=
  match l with
  | [] => flit 0
  | x :: r => fold_left pymax r x
  end.

Definition ext_lt (a b : ext A) : bool :=
  match a, b with
  | _, NegInf => false
  | NegInf, Fin _ => true
  | Fin x, Fin y => flt x y
  end.

Definition is_neginf (a : ext A) : bool :=
  match a with NegInf => true | Fin _ => false end.
End VectorMath.

(** [np.argmax]: the first position holding the greatest value. *)
Section Argmax.
Variable T : Type.
Variable lt : T -> T -> bool.

Fixpoint argmax_from (l : list T) (i best : nat) (bv : T) : nat :=
  match l with
  | [] => best
  | x :: r => if lt bv x then argmax_from r (S i) i x else argmax_from r (S i) best bv
  end.

Definition argmax (l : list T) : nat :=
  match l with
  | [] => 0%nat
  | x :: r => argmax_from r 1 0 x
  end.
End Argmax.

(** [l[i] = v] on a list; out of range does not occur here and leaves [l]. *)
Fixpoint list_set (T : Type) (i : nat) (v : T) (l : list T) : list T :=
  match l, i with
  | [], _ => []
  | _ :: r, O => v :: r
  | x :: r, S j => x :: list_set j v r
  end.

Definition mem_nat (i : nat) (l : list nat) : bool := existsb (Nat.eqb i) l.

(* ------------------------------------------------------------------ *)
(** * The person index *)

Section PersonIndex.
Context {A : Type} `{Numeric A}.

(** One entry of ["persons"] in [person_index.json]. *)
Record person := mkPerson {
  number : Z;
  protos : option (list (list A));     (* key ["protos"], when present *)
  proto : option (list A);             (* legacy key ["proto"] *)
  ema : jfield (list A);
  count : option Z;
  thr : jfield A
}.

Definition set_protos (l : option (list (list A))) (p : person) : person :=
  mkPerson (number p) l (proto p) (ema p) (count p) (thr p).
Definition pop_proto (p : person) : person :=
  mkPerson (number p) (protos p) None (ema p) (count p) (thr p).
Definition set_ema (e : jfield (list A)) (p : person) : person :=
  mkPerson (number p) (protos p) (proto p) e (count p) (thr p).
Definition set_count (c : option Z) (p : person) : person :=
  mkPerson (number p) (protos p) (proto p) (ema p) c (thr p).
Definition set_thr (t : jfield A) (p : person) : person :=
  mkPerson (number p) (protos p) (proto p) (ema p) (count p) t.

(** [person_index.json] as [load_person_index] meets it: not there, there
    but rejected by [json.loads], or an object whose ["persons"] key, when
    present, holds the records. *)
Inductive index_file :=
| Absent
| Unparseable
| Parsed (persons : option (list person)).

(** The target directory. *)
Record group_dir := mkDir {
  person_index_json : index_file;
  numbered_dirs : list N               (* int(d.name) of the digit-named folders *)
}.

(** ** [load_person_index] *)

(** [person.get("protos", [])] *)
Definition get_protos (p : person) : list (list A) :=
  match protos p with Some l => l | None => [] end.

(** The four migration steps of the loop body, in order, each on the
    record as the previous one left it. *)
Definition migrate_protos (p : person) : person * bool :=
  match protos p with
  | Some _ => (p, false)
  | None =>
      match proto p with
      | Some v => (set_protos (Some [v]) (pop_proto p), true)
      | None => (set_protos (Some []) p, true)
      end
  end.

Definition migrate_ema (p : person) : person * bool :=
  match ema p with
  | Missing =>
      (set_ema (match get_protos p with v :: _ => Val v | [] => Null end) p, true)
  | _ => (p, false)
  end.

Definition migrate_count (p : person) : person * bool :=
  match count p with
  | None => (set_count (Some (Z.max 1 (Z.of_nat (length (get_protos p))))) p, true)
  | Some _ => (p, false)
  end.

Definition migrate_thr (p : person) : person * bool :=
  match thr p with
  | Missing => (set_thr Null p, true)
  | _ => (p, false)
  end.

Definition migrate (p : person) : person * bool :=
  let '(p1, c1) := migrate_protos p in
  let '(p2, c2) := migrate_ema p1 in
  let '(p3, c3) := migrate_count p2 in
  let '(p4, c4) := migrate_thr p3 in
  (p4, c1 || c2 || c3 || c4).

(** Returns the list under ["persons"] of the loaded registry and the
    file as the call leaves it (rewritten when a default was applied). *)
Definition load_person_index (f : index_file) : list person * index_file :=
  match f with
  | Absent => ([], f)
  | Unparseable => ([], f)
  | Parsed d =>
      let persons := match d with Some l => l | None => [] end in
      let migrated := map migrate persons in
      let persons' := map fst migrated in
      let changed := existsb snd migrated in
      (persons', if changed then Parsed (Some persons') else f)
  end.

(** ** [save_person_index] *)
Definition save_person_index (persons : list person) : index_file :=
  Parsed (Some persons).

(** ** [_update_person_proto] *)

Definition row (X : list (list A)) (i : nat) : list A := nth i X [].

(** [1.0 - np.max(X @ X[keep].T, axis=1)], then [-np.inf] at the kept rows *)
Definition dists (X : list (list A)) (keep : list nat) : list (ext A) :=
  let sims := map (fun x => map (fun k => dot x (row X k)) keep) X in
  let d := map (fun s => Fin (fsub (flit 1) (row_max s))) sims in
  fold_left (fun d idx => list_set idx NegInf d) keep d.

(** The [while] loop; it appends to [keep] or stops, so [k_max] turns
    are enough and [fuel] only bounds the recursion. *)
Fixpoint select (fuel : nat) (k_max : nat) (X : list (list A)) (keep : list nat)
  : list nat :=
  match fuel with
  | O => keep
  | S fuel' =>
      if (length keep <? k_max)%nat && (length keep <? length X)%nat then
        let d := dists X keep in
        let cand := argmax ext_lt d in
        if is_neginf (nth cand d NegInf) then keep
        else select fuel' k_max X (keep ++ [cand])
      else keep
  end.

(** The [for i in range(len(X))] loop of the fallback. *)
Fixpoint fill (idxs : list nat) (lim : nat) (keep : list nat) : list nat :=
  match idxs with
  | [] => keep
  | i :: r =>
      let keep' := if mem_nat i keep then keep else keep ++ [i] in
      if (lim <=? length keep')%nat then keep' else fill r lim keep'
  end.

(** The indices kept when [len(protos) > k_max]. *)
Definition kept (k_max : nat) (X : list (list A)) : list nat :=
  let d0 := map norm (map (fun x => vsub x (mean0 X)) X) in
  let keep := select k_max k_max X [argmax flt d0] in
  if (length keep <? Nat.min k_max (length X))%nat
  then fill (seq 0 (length X)) (Nat.min k_max (length X)) keep
  else keep.

Definition trim (k_max : nat) (protos : list (list A)) : list (list A) :=
  if (k_max <? length protos)%nat then
    let X := map _normalize_np protos in
    map (row X) (kept k_max X)
  else protos.

Definition _update_person_proto (p : person) (new_vec : list A)
    (k_max : nat) (ema_alpha : A) : person :=
  let nv := _normalize_np new_vec in
  let protos := trim k_max (get_protos p ++ [nv]) in
  let seed := match ema p with Val e => e | _ => nth 0 protos [] end in
  let ema_np := _normalize_np seed in
  let ema_np := vadd (scale ema_alpha ema_np)
                     (scale (fsub (flit 1) ema_alpha) (_normalize_np new_vec)) in
  let ema_np := _normalize_np ema_np in
  let cnt := match count p with Some n => n | None => 0%Z end in
  set_count (Some (cnt + 1)%Z) (set_ema (Val ema_np) (set_protos (Some protos) p)).

(** The defaults of the signature: [k_max=5, ema_alpha=0.9]. *)
Definition default_k_max : nat := 5.
Definition default_ema_alpha : A := flit (9 # 10).
End PersonIndex.

Arguments person A : clear implicits.
Arguments index_file A : clear implicits.
Arguments group_dir A : clear implicits.

(* ------------------------------------------------------------------ *)
(** * [match_and_apply] *)

Section Matcher.
Context {A : Type} `{Numeric A}.

(** A value of [plan["cluster_centroids"]]: a list of numbers, of any
    length and with NaN among them in a runtime that has it, which
    [np.array(v, dtype=np.float32)] turns into a vector; or a value on
    which it raises (a string, a ragged list). *)
Inductive raw_centroid :=
| Convertible (v : list A)
| Unconvertible.

Record plan := mkPlan {
  cluster_centroids : dict raw_centroid;
  eligible_clusters : list Z
}.

(** The first loop: [centroids_norm[cid_int] = _normalize_np(vec)];
    [None] when [_normalize_np] raises. *)
Fixpoint normalize_centroids (raw : dict raw_centroid) (acc : dict (list A))
  : option (dict (list A)) :=
  match raw with
  | [] => Some acc
  | (cid, Convertible v) :: r => normalize_centroids r (dict_set cid (_normalize_np v) acc)
  | (_, Unconvertible) :: _ => None
  end.

(** [p.get("protos") or []], replaced by [[p["ema"]]] when it is empty and
    [p.get("ema")] is truthy. *)
Definition person_protos (p : person A) : list (list A) :=
  match get_protos p with
  | [] => match ema p with Val (x :: e) => [x :: e] | _ => [] end
  | l => l
  end.

Definition proto_list (persons : list (person A)) : list (list A) :=
  flat_map (fun p => map _normalize_np (person_protos p)) persons.

Definition proto_owner (persons : list (person A)) : list Z :=
  flat_map (fun p => map (fun _ => number p) (person_protos p)) persons.

Definition per_thr (persons : list (person A)) : dict A :=
  fold_left (fun d p => match thr p with Val t => dict_set (number p) t d | _ => d end)
            persons [].

(** [cur_max = existing_nums[-1] if existing_nums else 0], the greatest
    element being the last of the sorted list. *)
Definition initial_max (existing_nums : list N) : Z :=
  match existing_nums with
  | [] => 0%Z
  | d :: r => Z.of_N (fold_left N.max r d)
  end.

(** The scores of one candidate: the best similarity per owner. *)
Definition per_person_scores (sims : list A) (owners : list Z) : dict A :=
  fold_left
    (fun d so =>
       match dict_get (snd so) d with
       | None => dict_set (snd so) (fst so) d
       | Some cur => if flt cur (fst so) then dict_set (snd so) (fst so) d else d
       end)
    (combine sims owners) [].

(** [sorted(items, key=lambda x: x[1], reverse=True)]: descending and
    stable. *)
Fixpoint insert_desc (x : Z * A) (l : list (Z * A)) : list (Z * A) :=
  match l with
  | [] => [x]
  | y :: r => if flt (snd x) (snd y) then y :: insert_desc x r else x :: l
  end.

Definition sorted_pairs (d : dict A) : list (Z * A) := fold_right insert_desc [] d.

(** [best_num, s1, s2] of a candidate [c]; [None] is [best_num = None]. *)
Definition rank (P : list (list A)) (owners : list Z) (c : list A)
  : option (Z * A * A) :=
  let sims := map nan_to_num (matvec P c) in
  match sorted_pairs (per_person_scores sims owners) with
  | [] => None
  | (best_num, s1) :: rest =>
      Some (best_num, s1, match rest with (_, s2) :: _ => s2 | [] => flit (-1) end)
  end.

Definition thr_use (match_thr : A) (thrs : dict A) (best_num : Z) : A :=
  pymax match_thr (dict_get_or best_num thrs (flit (-1000000000))).

(** The test of the [if] that guards the assignment. *)
Definition accepts (match_thr top2_margin : A) (thrs : dict A) (r : option (Z * A * A))
  : bool :=
  match r with
  | None => false
  | Some (best_num, s1, s2) =>
      fle (thr_use match_thr thrs best_num) s1 && fle top2_margin (fsub s1 s2)
  end.

Record loop_state := mkState {
  persons : list (person A);
  assigned : dict Z;
  new_nums : dict Z;
  cur_max : Z
}.

(** The record literal of the two [else] branches:
    [{number: cur_max, protos: [c], ema: c, count: 1, thr: None}]. *)
Definition new_person (n : Z) (c : list A) : person A :=
  mkPerson n (Some [c]) None (Val c) (Some 1%Z) Null.

(** The two identical [else] branches. *)
Definition mint (st : loop_state) (cid : Z) (c : list A) : loop_state :=
  let n := (cur_max st + 1)%Z in
  mkState (persons st ++ [new_person n c])
          (assigned st) (dict_set cid n (new_nums st)) n.

(** [for p in persons: if int(p["number"]) == int(best_num): ...; break] *)
Fixpoint update_first (best_num : Z) (c : list A) (l : list (person A))
  : list (person A) :=
  match l with
  | [] => []
  | p :: r =>
      if Z.eqb (number p) best_num
      then _update_person_proto p c default_k_max default_ema_alpha :: r
      else p :: update_first best_num c r
  end.

Definition assign (st : loop_state) (cid best_num : Z) (c : list A) : loop_state :=
  mkState (update_first best_num c (persons st))
          (dict_set cid best_num (assigned st)) (new_nums st) (cur_max st).

(** [P @ c] raises [ValueError] unless [c] has the width of the rows of
    [P]; without prototypes the product is not evaluated. *)
Definition conforms (P : list (list A)) (c : list A) : bool :=
  forallb (fun r => Nat.eqb (length c) (length r)) P.

(** One turn of [for cid in eligible], the product [P @ c] being defined. *)
Definition step (match_thr top2_margin : A) (centroids_norm : dict (list A))
    (P : list (list A)) (owners : list Z) (thrs : dict A)
    (st : loop_state) (cid : Z) : loop_state :=
  match dict_get cid centroids_norm with
  | None => st
  | Some c =>
      match P with
      | [] => mint st cid c
      | _ :: _ =>
          let r := rank P owners c in
          match r with
          | Some (best_num, _, _) =>
              if accepts match_thr top2_margin thrs r
              then assign st cid best_num c
              else mint st cid c
          | None => mint st cid c
          end
      end
  end.

(** One turn as the interpreter runs it: [None] where [P @ c] raises, which
    ends the loop and the invocation. *)
Definition try_step (match_thr top2_margin : A) (centroids_norm : dict (list A))
    (P : list (list A)) (owners : list Z) (thrs : dict A)
    (st : loop_state) (cid : Z) : option loop_state :=
  match dict_get cid centroids_norm with
  | None => Some st
  | Some c =>
      if conforms P c
      then Some (step match_thr top2_margin centroids_norm P owners thrs st cid)
      else None
  end.

(** [for cid in eligible: ...] *)
Fixpoint try_loop (match_thr top2_margin : A) (centroids_norm : dict (list A))
    (P : list (list A)) (owners : list Z) (thrs : dict A)
    (eligible : list Z) (st : loop_state) : option loop_state :=
  match eligible with
  | [] => Some st
  | cid :: rest =>
      match try_step match_thr top2_margin centroids_norm P owners thrs st cid with
      | Some st' =>
          try_loop match_thr top2_margin centroids_norm P owners thrs rest st'
      | None => None
      end
  end.

(** [ensure_dir(group_dir / str(num))]; the name of a negative number is
    not made of digits. *)
Definition ensure_dir (dirs : list N) (num : Z) : list N :=
  if (num <? 0)%Z || existsb (N.eqb (Z.to_N num)) dirs
  then dirs else dirs ++ [Z.to_N num].

Record outcome := mkOutcome {
  persons_count : nat;
  out_persons : list (person A);
  out_assigned : dict Z;
  out_new_nums : dict Z;
  out_dir : group_dir A
}.

Inductive result :=
| Raises (g : group_dir A)
| Returns (o : outcome).

(** The state of the loop when it ends, every product being defined. *)
Definition run_loop (match_thr top2_margin : A) (loaded : list (person A))
    (centroids_norm : dict (list A)) (existing_nums : list N) (eligible : list Z)
  : loop_state :=
  fold_left
    (step match_thr top2_margin centroids_norm
          (proto_list loaded) (proto_owner loaded) (per_thr loaded))
    eligible
    (mkState loaded [] [] (initial_max existing_nums)).

Definition match_and_apply (match_thr top2_margin : A) (g : group_dir A) (pl : plan)
  : result :=
  let '(loaded, f) := load_person_index (person_index_json g) in
  match normalize_centroids (cluster_centroids pl) [] with
  | None => Raises (mkDir f (numbered_dirs g))
  | Some centroids_norm =>
      match try_loop match_thr top2_margin centroids_norm
                     (proto_list loaded) (proto_owner loaded) (per_thr loaded)
                     (eligible_clusters pl)
                     (mkState loaded [] [] (initial_max (numbered_dirs g))) with
      | None => Raises (mkDir f (numbered_dirs g))
      | Some st =>
          let dirs := fold_left ensure_dir
                        (dict_values (dict_merge (assigned st) (new_nums st)))
                        (numbered_dirs g) in
          Returns (mkOutcome (length (persons st)) (persons st) (assigned st)
                             (new_nums st)
                             (mkDir (save_person_index (persons st)) dirs))
      end
  end.

(** A sequence of invocations on one directory: each starts from the
    directory the previous one left. *)
Definition dir_after (g : group_dir A) (r : result) : group_dir A :=
  match r with Raises g' => g' | Returns o => out_dir o end.

(** The numbers of the records an invocation on [g] appended to the
    loaded registry. *)
Definition newly_minted (g : group_dir A) (r : result) : list Z :=
  match r with
  | Raises _ => []
  | Returns o =>
      map (@number A)
          (skipn (length (fst (load_person_index (person_index_json g))))
                 (out_persons o))
  end.

Fixpoint minted_by (match_thr top2_margin : A) (g : group_dir A) (plans : list plan)
  : list (list Z) :=
  match plans with
  | [] => []
  | pl :: rest =>
      let r := match_and_apply match_thr top2_margin g pl in
      newly_minted g r :: minted_by match_thr top2_margin (dir_after g r) rest
  end.
End Matcher.

Arguments raw_centroid A : clear implicits.
Arguments plan A : clear implicits.
Arguments loop_state A : clear implicits.
Arguments outcome A : clear implicits.
Arguments result A : clear implicits.

(* ------------------------------------------------------------------ *)
(** * The rational and the real runtime *)

(** The square root rounded down to twelve decimals. *)
Definition Qsqrt (q : Q) : Q :=
  Qred (Z.sqrt (Qnum q * 10 ^ 24 / Zpos (Qden q)) # 1000000000000).

#[export] Instance Q_numeric : Numeric Q := {
  flit q := q;
  fadd a b := Qred (a + b);
  fsub a b := Qred (a - b);
  fmul a b := Qred (a * b);
  fdiv a b := Qred (a / b);
  fsqrt := Qsqrt;
  flt a b := negb (Qle_bool b a);
  fle := Qle_bool;
  fnan _ := false
}.

#[export] Instance R_numeric : Numeric R := {
  flit := Q2R;
  fadd := Rplus;
  fsub := Rminus;
  fmul := Rmult;
  fdiv := Rdiv;
  fsqrt := sqrt;
  flt a b := if Rlt_dec a b then true else false;
  fle a b := if Rle_dec a b then true else false;
  fnan _ := false
}.

(* ------------------------------------------------------------------ *)
(** * The migration rules as the design document words them *)

Section MigrationRules.
Context {A : Type}.

(** A record without a prototype list gets its legacy single vector
    wrapped into a one-element list. *)
Definition rule_protos (p : person A) : list (list A) :=
  match protos p, proto p with
  | Some l, _ => l
  | None, Some v => [v]
  | None, None => []
  end.

(** A missing running average is the first prototype, or stays absent. *)
Definition rule_ema (p : person A) : jfield (list A) :=
  match ema p with
  | Missing => match rule_protos p with v :: _ => Val v | [] => Null end
  | e => e
  end.

(** A missing observation count is the prototype count, at least 1. *)
Definition rule_count (p : person A) : Z :=
  match count p with
  | Some n => n
  | None => Z.max 1 (Z.of_nat (length (rule_protos p)))
  end.

(** A missing custom threshold is absent. *)
Definition rule_thr (p : person A) : jfield A :=
  match thr p with
  | Missing => Null
  | t => t
  end.

Definition rule_record (p : person A) : person A :=
  mkPerson (number p) (Some (rule_protos p))
           (match protos p with Some _ => proto p | None => None end)
           (rule_ema p) (Some (rule_count p)) (rule_thr p).

(** Every key the engine reads is there. *)
Definition complete (p : person A) : bool :=
  match protos p, ema p, count p, thr p with
  | Some _, (Null | Val _), Some _, (Null | Val _) => true
  | _, _, _, _ => false
  end.
End MigrationRules.


(* ------------------------------------------------------------------ *)
(** * Two runtimes that round *)

(** ** float32 arrays

    A [np.float32] is NaN or a number with 24 significant bits; every
    operation on arrays of this type gives the exact result rounded to the
    nearest such number, ties to even.  The range of the exponent is not
    part of the model: infinities come from overflow and from division by
    zero, and every divisor of the functions above is a count or a norm
    plus [1e-12]. *)
Inductive f32 : Type :=
| NaN
| Num (q : Q).

(** [2^e] *)
Definition pow2 (e : Z) : Q :=
  if (0 <=? e)%Z then inject_Z (2 ^ e) else Qinv (inject_Z (2 ^ (- e))).

(** The integer nearest to [n / d] for [0 <= n] and [0 < d], ties to even. *)
Definition nearest_even (n d : Z) : Z :=
  let q := (n / d)%Z in
  match (2 * (n mod d) ?= d)%Z with
  | Lt => q
  | Gt => (q + 1)%Z
  | Eq => if Z.even q then q else (q + 1)%Z
  end.

(** The exponent of [n / d] for [0 < n] and [0 < d]: the [t] with
    [2^t <= n / d < 2^(t+1)]. *)
Definition exponent (n d : Z) : Z :=
  let t := (Z.log2 n - Z.log2 d)%Z in
  if (0 <=? t)%Z
  then (if (d * 2 ^ t <=? n)%Z then t else t - 1)%Z
  else (if (d <=? n * 2 ^ (- t))%Z then t else t - 1)%Z.

(** [n / d / 2^e] as a fraction. *)
Definition scaled (n d e : Z) : Z * Z :=
  if (0 <=? e)%Z then (n, d * 2 ^ e)%Z else (n * 2 ^ (- e), d)%Z.

Definition round_pos (n d : Z) : Q :=
  let e := (exponent n d - 23)%Z in
  let '(a, b) := scaled n d e in
  Qred (inject_Z (nearest_even a b) * pow2 e).

(** The nearest number with 24 significant bits. *)
Definition round24 (q : Q) : Q :=
  match Qnum q with
  | Z0 => 0
  | Zpos n => round_pos (Zpos n) (Zpos (Qden q))
  | Zneg n => Qopp (round_pos (Zpos n) (Zpos (Qden q)))
  end.

(** The square root of a positive number, rounded in the same way: with
    [y = q / 4^e] between [2^46] and [2^48], [k] is the integer part of
    [2 * sqrt y]. *)
Definition sqrt24 (q : Q) : Q :=
  let n := Qnum q in
  let d := Zpos (Qden q) in
  let e := ((exponent n d - 46) / 2)%Z in
  let '(a, b) := scaled n d (2 * e) in
  let k := Z.sqrt (4 * a / b) in
  let m := if Z.even k then (k / 2)%Z
           else if (4 * a =? k * k * b)%Z
                then (if Z.even ((k - 1) / 2) then (k - 1) / 2 else (k + 1) / 2)%Z
                else ((k + 1) / 2)%Z in
  Qred (inject_Z m * pow2 e).

Definition f32_op (op : Q -> Q -> Q) (a b : f32) : f32 :=
  match a, b with
  | Num x, Num y => Num (round24 (op x y))
  | _, _ => NaN
  end.

Definition f32_div (a b : f32) : f32 :=
  match a, b with
  | Num x, Num y => if Qeq_bool y 0 then NaN else Num (round24 (x / y))
  | _, _ => NaN
  end.

Definition f32_sqrt (a : f32) : f32 :=
  match a with
  | Num x => if Qeq_bool x 0 then Num 0
             else if Qle_bool 0 x then Num (sqrt24 x) else NaN
  | NaN => NaN
  end.

(** A comparison with NaN is false. *)
Definition f32_lt (a b : f32) : bool :=
  match a, b with
  | Num x, Num y => negb (Qle_bool y x)
  | _, _ => false
  end.

Definition f32_le (a b : f32) : bool :=
  match a, b with
  | Num x, Num y => Qle_bool x y
  | _, _ => false
  end.

#[export] Instance F32_numeric : Numeric f32 := {
  flit q := Num (round24 q);
  fadd := f32_op Qplus;
  fsub := f32_op Qminus;
  fmul := f32_op Qmult;
  fdiv := f32_div;
  fsqrt := f32_sqrt;
  flt := f32_lt;
  fle := f32_le;
  fnan a := match a with NaN => true | Num _ => false end
}.

(** ** The real numbers with a rounding

    Every operation gives the exact result passed through [rnd]; with the
    identity for [rnd] this is [R_numeric]. *)
Definition rounded (rnd : R -> R) : Numeric R := {|
  flit q := rnd (Q2R q);
  fadd a b := rnd (a + b)%R;
  fsub a b := rnd (a - b)%R;
  fmul a b := rnd (a * b)%R;
  fdiv a b := rnd (a / b)%R;
  fsqrt a := rnd (sqrt a);
  flt a b := if Rlt_dec a b then true else false;
  fle a b := if Rle_dec a b then true else false;
  fnan _ := false
|}.

(** The standard model of floating-point arithmetic: a rounding changes a
    number by at most the fraction [u] of it (no underflow). *)
Definition accurate (u : R) (rnd : R -> R) : Prop :=
  forall x : R, (Rabs (rnd x - x) <= u * Rabs x)%R.

(** The consecutive numbers [n + 1, ..., n + k]. *)
Definition upto (n : Z) (k : nat) : list Z :=
  map (fun i => (n + Z.of_nat i)%Z) (seq 1 k).

(** The kept indices name distinct rows of [X]. *)
Definition good_keep (T : Type) (X : list T) (keep : list nat) : Prop :=
  NoDup keep /\ Forall (fun i => (i < length X)%nat) keep.

(** The sum of the squares of the coordinates of a real vector. *)
Definition sumsq (v : list R) : R := vsum (map (fun x => (x * x)%R) v).

(** The length of [v / (|v| + eps)] in exact arithmetic. *)
Definition unit_ratio (v : list R) : R := (norm v / (norm v + eps))%R.

(** What [k] roundings of relative error [u] can take from a quantity
    and add to it; both factors are 1 for [u = 0]. *)
Definition shrink (u : R) (k : nat) : R := ((1 - u) ^ k / (1 + u) ^ (2 * k))%R.
Definition stretch (u : R) (k : nat) : R := ((1 + u) ^ k / (1 - u) ^ (2 * k))%R.

(* ------------------------------------------------------------------ *)
(** * The running average *)

Section RunningAverage.
Context {A : Type} `{Numeric A}.

(** What [_update_person_proto] stores: the previous average is
    normalised before it is blended. *)
Definition ema_rule (alpha : A) (prev v : list A) : list A :=
  _normalize_np (vadd (scale alpha (_normalize_np prev))
                      (scale (fsub (flit 1) alpha) (_normalize_np v))).

(** The formula of the design document:
    [normalize(alpha * running_average + (1 - alpha) * normalize(v))]. *)
Definition documented_ema (alpha : A) (prev v : list A) : list A :=
  _normalize_np (vadd (scale alpha prev)
                      (scale (fsub (flit 1) alpha) (_normalize_np v))).

(** [int(person.get("count", 0))] *)
Definition count_or_0 (p : person A) : Z :=
  match count p with Some n => n | None => 0%Z end.
End RunningAverage.

(* ------------------------------------------------------------------ *)
(** * The matching rules as the design document words them *)

Section MatcherRules.
Context {A : Type} `{Numeric A}.

(** The similarities of a candidate [c] to the prototypes of the record
    numbered [o], NaN replaced by -1. *)
Definition sims_of (P : list (list A)) (owners : list Z) (c : list A) (o : Z) : list A :=
  map fst (filter (fun so => Z.eqb (snd so) o)
                  (combine (map nan_to_num (matvec P c)) owners)).

(** The best score of a record: its greatest similarity over its own
    prototypes. *)
Definition best_score (P : list (list A)) (owners : list Z) (c : list A) (o : Z) : A :=
  row_max (sims_of P owners c o).

Definition custom_threshold (p : person A) : option A :=
  match thr p with Val t => Some t | _ => None end.

(** The custom threshold the table of the loop holds for the number [n]:
    that of the last record numbered [n] that has one.  With distinct
    numbers it is the custom threshold of the record numbered [n]. *)
Fixpoint table_threshold (l : list (person A)) (n : Z) : option A :=
  match l with
  | [] => None
  | q :: r =>
      match table_threshold r n with
      | Some t => Some t
      | None => if Z.eqb (number q) n then custom_threshold q else None
      end
  end.

(** [l'] is [l] with its first record numbered [n] replaced by [q']. *)
Definition first_replaced (l l' : list (person A)) (n : Z) (q q' : person A) : Prop :=
  exists i,
    nth_error l i = Some q
    /\ number q = n
    /\ (forall j r, (j < i)%nat -> nth_error l j = Some r -> number r <> n)
    /\ l' = firstn i l ++ q' :: skipn (S i) l.

(** [max(T, owner.custom_threshold or -inf)] *)
Definition effective_threshold (T : A) (custom : option A) : A :=
  match custom with
  | Some t => pymax T t
  | None => T
  end.

(** [best_num] is a top record for [c] and [s1] its score: no record
    with a prototype scores higher. *)
Definition top_record (P : list (list A)) (owners : list Z) (c : list A)
    (best_num : Z) (s1 : A) : Prop :=
  sims_of P owners c best_num <> []
  /\ s1 = best_score P owners c best_num
  /\ forall o, sims_of P owners c o <> [] -> flt s1 (best_score P owners c o) = false.

(** [s2] is the score of the second-best record, or the sentinel -1 when
    [best_num] is the only record with a prototype. *)
Definition runner_up (P : list (list A)) (owners : list Z) (c : list A)
    (best_num : Z) (s2 : A) : Prop :=
  (s2 = flit (-1) /\ forall o, sims_of P owners c o <> [] -> o = best_num)
  \/ (exists o2, o2 <> best_num
         /\ sims_of P owners c o2 <> []
         /\ s2 = best_score P owners c o2
         /\ forall o, o <> best_num -> sims_of P owners c o <> [] ->
                      flt s2 (best_score P owners c o) = false).

(** What one turn of the loop does with a cluster id. *)
Inductive verdict :=
| Skipped
| Matched (best_num : Z)
| Minted.

Definition verdict_of (match_thr top2_margin : A) (centroids_norm : dict (list A))
    (P : list (list A)) (owners : list Z) (thrs : dict A) (cid : Z) : verdict :=
  match dict_get cid centroids_norm with
  | None => Skipped
  | Some c =>
      match P with
      | [] => Minted
      | _ :: _ =>
          match rank P owners c with
          | Some (best_num, s1, s2) =>
              if accepts match_thr top2_margin thrs (Some (best_num, s1, s2))
              then Matched best_num else Minted
          | None => Minted
          end
      end
  end.

(** Every product of the batch is defined: each eligible cluster that has
    a centroid has one of the width of the prototype table. *)
Definition shapes_ok (centroids_norm : dict (list A)) (P : list (list A))
    (eligible : list Z) : bool :=
  forallb (fun cid => match dict_get cid centroids_norm with
                      | Some c => conforms P c
                      | None => true
                      end) eligible.

(** Every vector stored in the registry, prototype or running average,
    has [d] coordinates: the table of prototypes can be stacked and a
    centroid of [d] coordinates can be blended into an average. *)
Definition one_width (d : nat) (l : list (person A)) : bool :=
  forallb (fun p => forallb (fun x => Nat.eqb (length x) d) (get_protos p)
                    && match ema p with
                       | Val e => Nat.eqb (length e) d
                       | _ => true
                       end) l.

(** The centroids of the eligible clusters that have one, in the order
    of the batch. *)
Definition present_centroids (centroids_norm : dict (list A)) (eligible : list Z)
  : list (list A) :=
  flat_map (fun cid => match dict_get cid centroids_norm with
                       | Some c => [c]
                       | None => []
                       end) eligible.

(** One new record per centroid, numbered upwards from [n + 1]. *)
Fixpoint mint_all (n : Z) (cs : list (list A)) : list (person A) :=
  match cs with
  | [] => []
  | c :: r => new_person (n + 1) c :: mint_all (n + 1) r
  end.

Definition is_minted (v : verdict) : bool :=
  match v with Minted => true | _ => false end.
Definition is_matched (v : verdict) : bool :=
  match v with Matched _ => true | _ => false end.

(** The registry an invocation on [g] starts from, and the state its
    loop ends in. *)
Definition loaded_of (g : group_dir A) : list (person A) :=
  fst (load_person_index (person_index_json g)).

Definition final_state (T M : A) (g : group_dir A) (pl : plan A)
    (cn : dict (list A)) : loop_state A :=
  run_loop T M (loaded_of g) cn (numbered_dirs g) (eligible_clusters pl).

(** How many turns of the loop mint. *)
Definition minted_count (T M : A) (g : group_dir A) (pl : plan A)
    (cn : dict (list A)) : nat :=
  length (filter (fun k => is_minted
                             (verdict_of T M cn (proto_list (loaded_of g))
                                         (proto_owner (loaded_of g))
                                         (per_thr (loaded_of g)) k))
                 (eligible_clusters pl)).
End MatcherRules.


(* ------------------------------------------------------------------ *)
(** * Concrete registries and batches *)

Set Implicit Arguments.

(** The configured defaults: [match_thr] = 0.52, [top2_margin] = 0.08. *)
Definition T0 : Q := 52 # 100.
Definition M0 : Q := 8 # 100.

(** Person 1 with prototype A = [1, 0], person 2 with prototype B = [0, 1]. *)
Definition person_A : person Q := new_person 1 [1; 0].
Definition person_B : person Q := new_person 2 [0; 1].

(** The default [ema_alpha], and two observed vectors. *)
Definition alpha0 : Q := 9 # 10.
Definition vec_B : list Q := [0; 1].
Definition vec_34 : list Q := [3; 4].

(** The result of an invocation that returns. *)
Definition returned (A : Type) (r : result A) : outcome A :=
  match r with
  | Returns o => o
  | Raises g => mkOutcome 0 [] [] [] g
  end.

(** The normalised centroids of a plan without unconvertible entries. *)
Definition centroids_of (A : Type) `{Numeric A} (pl : plan A) : dict (list A) :=
  match normalize_centroids (cluster_centroids pl) [] with
  | Some cn => cn
  | None => []
  end.

(** Scenario B: one known person, one candidate close to it. *)
Definition dir_B : group_dir Q := mkDir (Parsed (Some [person_A])) [1%N].
Definition plan_B : plan Q := mkPlan [(0%Z, Convertible [95 # 100; 31 # 100])] [0%Z].

(** Scenario C: two known persons, one candidate between them. *)
Definition dir_C : group_dir Q := mkDir (Parsed (Some [person_A; person_B])) [1%N; 2%N].
Definition plan_C : plan Q := mkPlan [(0%Z, Convertible [70 # 100; 68 # 100])] [0%Z].

(** A directory without registry and folders, and a batch of two clusters
    with the same centroid. *)
Definition cold_dir : group_dir Q := mkDir Absent [].
Definition twin_plan : plan Q :=
  mkPlan [(0%Z, Convertible [1; 0]); (1%Z, Convertible [1; 0])] [0%Z; 1%Z].

(** A batch whose second centroid is not numeric, and one whose middle
    cluster has no centroid. *)
Definition broken_plan : plan Q :=
  mkPlan [(0%Z, Convertible [1; 0]); (1%Z, Unconvertible)] [0%Z; 1%Z].
Definition gap_plan : plan Q :=
  mkPlan [(0%Z, Convertible [1; 0]); (1%Z, Convertible [0; 1])] [0%Z; 7%Z; 1%Z].

(** A batch whose second centroid has three coordinates where the
    prototypes of the registry have two. *)
Definition wide_plan : plan Q :=
  mkPlan [(0%Z, Convertible [1; 0]); (1%Z, Convertible [1; 0; 0])] [0%Z; 1%Z].

(** A batch that lists its only cluster twice. *)
Definition twice_plan : plan Q := mkPlan [(0%Z, Convertible [1; 0])] [0%Z; 0%Z].

(** Six prototypes, one more than the cap. *)
Definition six_protos : list (list Q) :=
  [[1; 0]; [0; 1]; [2; 1]; [1; 4]; [3; 4]; [5; 1]].

(** A legacy record: a single unnormalised prototype, nothing else. *)
Definition legacy : person Q := mkPerson 4 None (Some [3; 4]) Missing None Missing.

(** A record with one prototype and a null running average. *)
Definition no_ema : person Q := mkPerson 5 (Some [[3; 4]]) None Null (Some 1%Z) Null.

(** In float32 arithmetic: the normalised centroid [3, 4], the record the
    matcher mints for it, and a record with this prototype and no running
    average. *)
Definition unit_34 : list f32 := _normalize_np [Num 3; Num 4].
Definition minted_34 : person f32 := new_person 7 unit_34.
Definition bare_34 : person f32 := mkPerson 8 (Some [unit_34]) None Null (Some 1%Z) Null.
Definition alpha32 : f32 := default_ema_alpha.

(** Scenario B in float32 arithmetic, and a batch whose centroid holds a
    NaN. *)
Definition T32 : f32 := flit (52 # 100).
Definition M32 : f32 := flit (8 # 100).
Definition dir_B32 : group_dir f32 :=
  mkDir (Parsed (Some [new_person 1 [Num 1; Num 0]])) [1%N].
Definition nan_plan : plan f32 := mkPlan [(0%Z, Convertible [NaN; Num 1])] [0%Z].

Unset Implicit Arguments.

(* ------------------------------------------------------------------ *)
(** * Further notions about one invocation *)

Section InvocationNotions.
Context {A : Type} `{Numeric A}.

(** The centroids of the turns that mint, in the order of the batch. *)
Definition minted_centroids (T M : A) (cn : dict (list A)) (P : list (list A))
    (owners : list Z) (thrs : dict A) (el : list Z) : list (list A) :=
  flat_map (fun cid =>
              match verdict_of T M cn P owners thrs cid, dict_get cid cn with
              | Minted, Some c => [c]
              | _, _ => []
              end) el.

(** The clusters of a batch that are matched to the person numbered [n]. *)
Definition matched_to (T M : A) (cn : dict (list A)) (P : list (list A))
    (owners : list Z) (thrs : dict A) (n : Z) (el : list Z) : list Z :=
  filter (fun cid =>
            match verdict_of T M cn P owners thrs cid with
            | Matched b => Z.eqb b n
            | _ => false
            end) el.

(** The entries of [assigned] that name the person numbered [n]. *)
Definition assigned_to (n : Z) (assigned : dict Z) : list (Z * Z) :=
  filter (fun kv => Z.eqb (snd kv) n) assigned.

(** A record is the first of a list to carry its number. *)
Definition first_with_number (l : list (person A)) (i : nat) (p : person A) : Prop :=
  nth_error l i = Some p
  /\ forall j q, (j < i)%nat -> nth_error l j = Some q -> number q <> number p.
End InvocationNotions.

(* ------------------------------------------------------------------ *)
(** * Further concrete runs *)

(** Scenario B, the same candidate against persons 1 and 2, and the batch
    with a gap on person 1, in the given order and in another. *)
Definition run_B : outcome Q := returned (match_and_apply T0 M0 dir_B plan_B).
Definition run_CB : outcome Q := returned (match_and_apply T0 M0 dir_C plan_B).
Definition run_gap : outcome Q := returned (match_and_apply T0 M0 dir_B gap_plan).
Definition gap_plan_rev : plan Q :=
  mkPlan (cluster_centroids gap_plan) [1%Z; 7%Z; 0%Z].
Definition run_gap_rev : outcome Q :=
  returned (match_and_apply T0 M0 dir_B gap_plan_rev).

(** A stricter threshold than the default, and the invocation of the
    gap batch under it. *)
Definition T_strict : Q := 99 # 100.
Definition run_gap_strict : outcome Q :=
  returned (match_and_apply T_strict M0 dir_B gap_plan).

(** A batch whose only eligible cluster has no centroid. *)
Definition idle_plan : plan Q := mkPlan [(0%Z, Convertible [1; 0])] [7%Z].

(** The person the gap batch appends to the registry of scenario B. *)
Definition minted_gap : person Q :=
  hd person_A (skipn (length (loaded_of dir_B)) (out_persons run_gap)).

(* ------------------------------------------------------------------ *)
(** * The configuration file *)

(** A value decoded by [json.loads]. *)
Local Unset Elimination Schemes.
Inductive json (A : Type) : Type :=
| JNull : json A
| JBool : bool -> json A
| JInt : Z -> json A
| JFloat : A -> json A
| JStr : String.string -> json A
| JArr : list (json A) -> json A
| JObj : list (String.string * json A) -> json A.
Local Set Elimination Schemes.
Arguments JNull {A}.
Arguments JBool {A} _.
Arguments JInt {A} _.
Arguments JFloat {A} _.
Arguments JStr {A} _.
Arguments JArr {A} _.
Arguments JObj {A} _.

(** [config.json] as [load_config] meets it: not there, there but
    [read_text] or [json.loads] raises, or decoded. *)
Inductive config_file (A : Type) : Type :=
| NoConfig : config_file A
| BadConfig : config_file A
| Config : json A -> config_file A.
Arguments NoConfig {A}.
Arguments BadConfig {A}.
Arguments Config {A} _.

(** A dict with string keys, in insertion order. *)
Section StrDict.
Variable V : Type.

Definition sdict := list (String.string * V).

Fixpoint sdict_get (k : String.string) (d : sdict) : option V :=
  match d with
  | [] => None
  | (k', v) :: r => if String.eqb k k' then Some v else sdict_get k r
  end.

Fixpoint sdict_set (k : String.string) (v : V) (d : sdict) : sdict :=
  match d with
  | [] => [(k, v)]
  | (k', v') :: r =>
      if String.eqb k k' then (k', v) :: r else (k', v') :: sdict_set k v r
  end.

(** [d.update(u)], the members of [u] taken in order *)
Definition sdict_update (d u : sdict) : sdict :=
  fold_left (fun acc kv => sdict_set (fst kv) (snd kv) acc) u d.
End StrDict.
Arguments sdict_get {V} _ _.
Arguments sdict_set {V} _ _ _.
Arguments sdict_update {V} _ _.

Section Clamp.
Variables V B : Type.
Variable lt : B -> B -> bool.

(** The builtins [min(a, b)] and [max(a, b)]: the first argument stays
    unless the second is strictly beyond it. *)
Definition py_min (a b : B) : B := if lt b a then b else a.
Definition py_max (a b : B) : B := if lt a b then b else a.

(** [_clamp(v, lo, hi, default)]; [conv] is [type(default)], [None] where
    it raises. *)
Definition _clamp (conv : V -> option B) (v : V) (lo hi default : B) : B :=
  match conv v with
  | Some x => py_max lo (py_min hi x)
  | None => default
  end.
End Clamp.
Arguments py_min {B} _ _ _.
Arguments py_max {B} _ _ _.
Arguments _clamp {V B} _ _ _ _ _ _.

Section Config.
Import String.
Local Open Scope string_scope.
Context {A : Type} `{Numeric A}.

(** What Python does with a string and with a fractional number is kept
    open: [float(s)] and [int(s)] on a [str], and [int(x)] on a [float]
    ([None] where they raise). *)
Variable float_of_str : string -> option A.
Variable int_of_str : string -> option Z.
Variable int_of_float : A -> option Z.

(** [float(z)] raises [OverflowError] on an integer that rounds to
    2^1024, the doubles ending below it. *)
Definition float_overflows (z : Z) : bool :=
  (2 ^ 1024 - 2 ^ 970 <=? Z.abs z)%Z.

(** [float(v)] *)
Definition py_float (v : json A) : option A :=
  match v with
  | JBool b => Some (flit (if b then 1 else 0))
  | JInt z => if float_overflows z then None else Some (flit (inject_Z z))
  | JFloat x => Some x
  | JStr s => float_of_str s
  | JNull | JArr _ | JObj _ => None
  end.

(** [int(v)] *)
Definition py_int (v : json A) : option Z :=
  match v with
  | JBool b => Some (if b then 1 else 0)%Z
  | JInt z => Some z
  | JFloat x => int_of_float x
  | JStr s => int_of_str s
  | JNull | JArr _ | JObj _ => None
  end.

Definition defaults : sdict (json A) :=
  [ ("group_thr", JInt 3); ("eps_sim", JFloat (flit (55 # 100)));
    ("min_samples", JInt 2); ("min_face", JInt 110);
    ("blur_thr", JFloat (flit 45)); ("det_size", JInt 640);
    ("gpu_id", JInt 0);
    ("match_thr", JFloat (flit (52 # 100)));
    ("top2_margin", JFloat (flit (8 # 100)));
    ("per_person_min_obs", JInt 10);
    ("min_det_score", JFloat (flit (50 # 100)));
    ("min_quality", JFloat (flit (50 # 100))) ].

(** [d[k] = _clamp(d[k], lo, hi, default)] with a float default; [None] is
    the [KeyError] of [d[k]]. *)
Definition clamp_float (k : string) (lo hi default : Q) (d : sdict (json A))
  : option (sdict (json A)) :=
  match sdict_get k d with
  | Some v =>
      Some (sdict_set k
              (JFloat (_clamp flt py_float v (flit lo) (flit hi) (flit default))) d)
  | None => None
  end.

(** The same with an int default. *)
Definition clamp_int (k : string) (lo hi default : Z) (d : sdict (json A))
  : option (sdict (json A)) :=
  match sdict_get k d with
  | Some v => Some (sdict_set k (JInt (_clamp Z.ltb py_int v lo hi default)) d)
  | None => None
  end.

Definition and_then {X Y : Type} (m : option X) (f : X -> option Y) : option Y :=
  match m with Some x => f x | None => None end.

(** [load_config]: the defaults, overridden member by member by the file
    when it decodes to an object, then five keys clamped. *)
Definition load_config (f : config_file A) : option (sdict (json A)) :=
  let d := match f with
           | Config (JObj u) => sdict_update defaults u
           | _ => defaults
           end in
  and_then (clamp_float "eps_sim" 0 1 (55 # 100) d) (fun d =>
  and_then (clamp_float "match_thr" 0 1 (52 # 100) d) (fun d =>
  and_then (clamp_float "top2_margin" 0 1 (8 # 100) d) (fun d =>
  and_then (clamp_int "min_face" 0 10000 110 d) (fun d =>
  clamp_int "det_size" 64 4096 640 d)))).

(** The keys [load_config] clamps. *)
Definition clamped_keys : list string :=
  ["eps_sim"; "match_thr"; "top2_margin"; "min_face"; "det_size"].
End Config.

Section ConfigNotions.
Import String.
Local Open Scope string_scope.
Context {A : Type} `{Numeric A}.
Variable float_of_str : string -> option A.
Variable int_of_str : string -> option Z.
Variable int_of_float : A -> option Z.

(** What the five clamps make of the entry [v] of the key [k]. *)
Definition clamped (k : string) (v : json A) : json A :=
  if String.eqb k "eps_sim" then
    JFloat (_clamp flt (py_float float_of_str) v (flit 0) (flit 1) (flit (55 # 100)))
  else if String.eqb k "match_thr" then
    JFloat (_clamp flt (py_float float_of_str) v (flit 0) (flit 1) (flit (52 # 100)))
  else if String.eqb k "top2_margin" then
    JFloat (_clamp flt (py_float float_of_str) v (flit 0) (flit 1) (flit (8 # 100)))
  else if String.eqb k "min_face" then
    JInt (_clamp Z.ltb (py_int int_of_str int_of_float) v 0%Z 10000%Z 110%Z)
  else if String.eqb k "det_size" then
    JInt (_clamp Z.ltb (py_int int_of_str int_of_float) v 64%Z 4096%Z 640%Z)
  else v.

(** The entry of [k] a file sets: the last member named [k]. *)
Definition file_entry (k : string) (u : sdict (json A)) : option (json A) :=
  sdict_get k (rev u).

(** A float entry between two rationals, an int entry between two integers. *)
Definition float_within (lo hi : Q) (e : option (json Q)) : Prop :=
  exists x : Q, e = Some (JFloat x) /\ (lo <= x <= hi)%Q.
Definition int_within (lo hi : Z) (e : option (json A)) : Prop :=
  exists z : Z, e = Some (JInt z) /\ (lo <= z <= hi)%Z.
End ConfigNotions.

(* ------------------------------------------------------------------ *)
(** * Copying a file into a folder *)

(** A source path as [safe_copy] reads it: pathlib's [src.stem] and
    [src.suffix], whose concatenation is [src.name]. *)
Record source : Type := mkSource {
  src_stem : String.string;
  src_suffix : String.string
}.

Section SafeCopy.
Import String.
Local Open Scope string_scope.

(** What a directory entry holds. *)
Variable E : Type.

Definition src_name (s : source) : string := src_stem s ++ src_suffix s.

(** [str(i)] *)
Definition dec (i : nat) : string :=
  DecimalString.NilEmpty.string_of_uint (Nat.to_uint i).

(** [f"{stem} ({i}){ext}"] *)
Definition numbered (s : source) (i : nat) : string :=
  src_stem s ++ " (" ++ dec i ++ ")" ++ src_suffix s.

(** [(dst_dir / n).exists()]; the folder is the dict of its entries. *)
Definition exists_in (n : string) (d : sdict E) : bool :=
  match sdict_get n d with Some _ => true | None => false end.

(** [while (dst_dir / f"{stem} ({i}){ext}").exists(): i += 1], with the
    number of turns allowed. *)
Fixpoint free_index (turns : nat) (s : source) (d : sdict E) (i : nat) : option nat :=
  match turns with
  | O => None
  | S t =>
      if exists_in (numbered s i) d then free_index t s d (S i) else Some i
  end.

(** The name [safe_copy] and [safe_move] settle on in the folder [d]. *)
Definition destination (s : source) (d : sdict E) : option string :=
  if exists_in (src_name s) d
  then option_map (numbered s) (free_index (S (List.length d)) s d 1)
  else Some (src_name s).

(** [safe_copy(src, dst_dir)] on the folder, [ensure_dir] done: [e] is what
    [src] holds, [None] where [shutil.copy2] raises; [copy2] writes over
    what the destination holds.  The answer is the name and the folder
    after, [None] when the call raises. *)
Definition safe_copy (s : source) (e : option E) (d : sdict E)
  : option (string * sdict E) :=
  match destination s d, e with
  | Some n, Some c => Some (n, sdict_set n c d)
  | _, _ => None
  end.

(** [n] calls of [safe_copy] with one source, one after the other. *)
Fixpoint copy_times (n : nat) (s : source) (c : E) (d : sdict E)
  : option (list string * sdict E) :=
  match n with
  | O => Some ([], d)
  | S m =>
      match safe_copy s (Some c) d with
      | Some (x, d1) =>
          match copy_times m s c d1 with
          | Some (xs, d2) => Some (x :: xs, d2)
          | None => None
          end
      | None => None
      end
  end.

(** The names one source can get in a folder. *)
Definition family (s : source) (n : string) : Prop :=
  n = src_name s \/ exists i, n = numbered s i.
End SafeCopy.
Arguments exists_in {E} _ _.
Arguments free_index {E} _ _ _ _.
Arguments destination {E} _ _.
Arguments safe_copy {E} _ _ _.
Arguments copy_times {E} _ _ _ _.

(* ------------------------------------------------------------------ *)
(** * The copies of [match_and_apply] *)

(** An image of the plan, [Path(img)]: the folder it lies in and its
    name. *)
Record image : Type := mkImage {
  img_dir : String.string;
  img_file : source
}.

(** The lists of images of a plan; [raw_images] is
    [plan["cluster_images"].items()]. *)
Record plan_images : Type := mkImages {
  raw_images : dict (list image);
  group_only_images : list image;
  unknown_images : list image
}.

(** Two paths are equal when folder and name are. *)
Definition image_key (p : image) : String.string * String.string :=
  (img_dir p, src_name (img_file p)).

Definition image_eqb (p q : image) : bool :=
  String.eqb (img_dir p) (img_dir q)
  && String.eqb (src_name (img_file p)) (src_name (img_file q)).

(** [cluster_images[int(k)] = v] over the items in order *)
Definition cluster_images (pi : plan_images) : dict (list image) :=
  fold_left (fun acc kv => dict_set (fst kv) (snd kv) acc) (raw_images pi) [].

(** The returned [processed_sources]; a set, kept as the list of its
    members. *)
Definition processed_sources (pi : plan_images) : list image :=
  (flat_map snd (cluster_images pi) ++ group_only_images pi ++ unknown_images pi)%list.

(** [assigned.get(cid, new_nums.get(cid))] *)
Definition number_of (assigned new_nums : dict Z) (cid : Z) : option Z :=
  match dict_get cid assigned with
  | Some n => Some n
  | None => dict_get cid new_nums
  end.

Section CopyLoop.
(** What a directory entry holds. *)
Variable E : Type.

(** What [shutil.copy2] finds at the path of a source while the person
    folders are as given; [None] where the call raises. *)
Variable read : dict (sdict E) -> String.string * String.string -> option E.

(** The person folders by number, the set [copied], and
    [audit["copied"]]. *)
Record copy_state : Type := mkCopy {
  folders : dict (sdict E);
  copied : list (Z * image);
  audit_copied : dict (list image)
}.

Definition folder_of (num : Z) (st : copy_state) : sdict E :=
  dict_get_or num (folders st) [].

Definition log_of (num : Z) (st : copy_state) : list image :=
  dict_get_or num (audit_copied st) [].

(** [key in copied] *)
Definition was_copied (num : Z) (p : image) (st : copy_state) : bool :=
  existsb (fun k => Z.eqb num (fst k) && image_eqb p (snd k)) (copied st).

(** One turn of the inner loop: [safe_copy] into the folder of [num],
    which [ensure_dir] makes when it is not there; the audit entry is
    written only when the copy did not raise, the pair is remembered
    either way. *)
Definition copy_one (num : Z) (st : copy_state) (p : image) : copy_state :=
  if was_copied num p st then st
  else
    match safe_copy (img_file p) (read (folders st) (image_key p)) (folder_of num st) with
    | Some (_, d') =>
        mkCopy (dict_set num d' (folders st))
               ((num, p) :: copied st)
               (dict_set num (log_of num st ++ [p]) (audit_copied st))
    | None =>
        mkCopy (dict_set num (folder_of num st) (folders st))
               ((num, p) :: copied st)
               (audit_copied st)
    end.

(** The loop over the eligible clusters. *)
Definition copy_images (eligible : list Z) (assigned new_nums : dict Z)
    (images : dict (list image)) (st : copy_state) : copy_state :=
  fold_left
    (fun st cid =>
       match number_of assigned new_nums cid with
       | None => st
       | Some num => fold_left (copy_one num) (dict_get_or cid images []) st
       end)
    eligible st.

(** The state the loop starts from: the folders as they are, nothing
    copied yet. *)
Definition copy_start (fs : dict (sdict E)) : copy_state := mkCopy fs [] [].

(** [st'] has the folders and the audit lists of [st], each followed by
    as many new entries as the other, the new files under names that were
    free and differ from each other. *)
Definition extends (st st' : copy_state) : Prop :=
  forall n, exists added new,
    folder_of n st' = (folder_of n st ++ added)%list
    /\ log_of n st' = (log_of n st ++ new)%list
    /\ length added = length new
    /\ (forall x, In x (map fst added) -> exists_in x (folder_of n st) = false)
    /\ NoDup (map fst added).

(** Every audit entry is remembered in [copied], and no audit list names
    a path twice. *)
Definition logged (st : copy_state) : Prop :=
  (forall n p, In p (log_of n st) -> was_copied n p st = true)
  /\ forall n, NoDup (map image_key (log_of n st)).

(** A path at which [copy2] succeeds however the person folders are. *)
Definition readable (k : String.string * String.string) : Prop :=
  forall fs, read fs k <> None.

(** Every remembered pair with a readable path has its audit entry. *)
Definition served (st : copy_state) : Prop :=
  forall n p, was_copied n p st = true -> readable (image_key p) ->
    exists q, In q (log_of n st) /\ image_key q = image_key p.
End CopyLoop.
Arguments mkCopy {E} _ _ _.
Arguments folders {E} _.
Arguments copied {E} _.
Arguments audit_copied {E} _.
Arguments folder_of {E} _ _.
Arguments log_of {E} _ _.
Arguments was_copied {E} _ _ _.
Arguments copy_one {E} _ _ _ _.
Arguments copy_images {E} _ _ _ _ _ _.
Arguments copy_start {E} _.
Arguments extends {E} _ _.
Arguments logged {E} _.
Arguments readable {E} _ _.
Arguments served {E} _ _.

Section PlainCopies.
Variable E : Type.

(** What [copy2] finds at a path while the folder is as given. *)
Variable read1 : sdict E -> String.string * String.string -> option E.

(** The loops over [group_only_images] and [unknown_images]: every listed
    image is handed to [safe_copy], the counter of the audit goes up when
    the call did not raise.  The folder is [__group_only__] or
    [__unknown__]. *)
Definition copy_plain (imgs : list image) (d : sdict E) : sdict E * nat :=
  fold_left
    (fun acc p =>
       match safe_copy (img_file p) (read1 (fst acc) (image_key p)) (fst acc) with
       | Some (_, d') => (d', S (snd acc))
       | None => acc
       end)
    imgs (d, O).
End PlainCopies.
Arguments copy_plain {E} _ _ _.

(* ------------------------------------------------------------------ *)
(** * Private addresses *)

Section Network.
Import String.
Local Open Scope string_scope.

Definition PRIVATE_NETS : list string :=
  ["10."; "172.16."; "172.17."; "172.18."; "172.19."; "172.2"; "192.168."].

(** [any(ip.startswith(p) for p in PRIVATE_NETS)] *)
Definition _ip_is_private (ip : string) : bool :=
  existsb (fun p => prefix p ip) PRIVATE_NETS.
End Network.

(* ------------------------------------------------------------------ *)
(** * The listing of a folder *)

Section ListDir.
(** The entries of a folder and the second component of [sort_tuple],
    which the [sort_key] of the session selects (the lowered name, the
    modification time or the size) and which is compared with [==] and
    [<]. *)
Variables I K : Type.
Variable is_dir : I -> bool.
Variable sec : I -> K.
Variable eqK ltK : K -> K -> bool.

(** [0 if x.is_dir() else 1] *)
Definition primary (x : I) : nat := if is_dir x then 0%nat else 1%nat.

(** [sort_tuple(x) < sort_tuple(y)], the order of tuples: the first
    components that differ decide. *)
Definition tuple_lt (x y : I) : bool :=
  if Nat.eqb (primary x) (primary y)
  then (if eqK (sec x) (sec y) then false else ltK (sec x) (sec y))
  else Nat.ltb (primary x) (primary y).

(** [list.sort] is stable: an entry goes behind the entries it is not
    below. *)
Fixpoint insert_stable (x : I) (l : list I) : list I :=
  match l with
  | [] => [x]
  | y :: r => if tuple_lt x y then x :: l else y :: insert_stable x r
  end.

Definition stable_sort (l : list I) : list I :=
  fold_left (fun acc x => insert_stable x acc) l [].

(** [items.sort(key=sort_tuple, reverse=desc)]: with [reverse] the list is
    reversed, sorted and reversed again. *)
Definition py_sort (reverse : bool) (l : list I) : list I :=
  if reverse then rev (stable_sort (rev l)) else stable_sort l.

(** [list_dir]; [items] is [list(p.iterdir())], [None] where it raises,
    [desc] the [sort_desc] of the session. *)
Definition list_dir (items : option (list I)) (desc : bool) : list I :=
  match items with
  | None => []
  | Some l => py_sort desc l
  end.
End ListDir.
Arguments primary {I} _ _.
Arguments tuple_lt {I K} _ _ _ _ _ _.
Arguments insert_stable {I K} _ _ _ _ _ _.
Arguments stable_sort {I K} _ _ _ _ _.
Arguments py_sort {I K} _ _ _ _ _ _.
Arguments list_dir {I K} _ _ _ _ _ _.

(* ------------------------------------------------------------------ *)
(** * A plan with images *)

Section ImageExamples.
Import String.
Local Open Scope string_scope.

Definition img_a : image := mkImage "in" (mkSource "a" ".jpg").
Definition img_b : image := mkImage "in" (mkSource "b" ".jpg").
Definition img_c : image := mkImage "in" (mkSource "c" ".jpg").

(** The images of [gap_plan]: cluster 7, which has no centroid, is the
    only one to list [b.jpg]; cluster 1 lists [a.jpg] twice. *)
Definition gap_images : plan_images :=
  mkImages [(0%Z, [img_a]); (7%Z, [img_b]); (1%Z, [img_a; img_c; img_a])] [] [].

(** Every source holds the same bytes and can be read. *)
Definition read_all (fs : dict (sdict nat)) (k : string * string) : option nat :=
  Some 7%nat.

Definition copies_gap : copy_state nat :=
  copy_images read_all (eligible_clusters gap_plan) (out_assigned run_gap)
    (out_new_nums run_gap) (cluster_images gap_images) (copy_start []).
End ImageExamples.
(* ------------------------------------------------------------------ *)
(** * Properties of the registry store *)

Section RegistryStore.
Context {A : Type} `{Numeric A}.

Lemma migrate_rule (p : person A) : fst (migrate p) = rule_record p.
Proof.
  destruct p as [n ps pr e c t].
  destruct ps as [l|], pr as [v|], e as [| |e], c as [k|], t as [| |t];
    try destruct l; reflexivity.
Qed.

Lemma migrate_complete (p : person A) : complete (fst (migrate p)) = true.
Proof.
  rewrite migrate_rule.
  destruct p as [n ps pr e c t].
  destruct ps as [l|], pr as [v|], e as [| |e], c as [k|], t as [| |t];
    try destruct l; reflexivity.
Qed.

Lemma migrate_noop (p : person A) : complete p = true -> migrate p = (p, false).
Proof.
  destruct p as [n ps pr e c t].
  destruct ps as [l|], e as [| |e], c as [k|], t as [| |t];
    simpl; intros Hc; try discriminate; reflexivity.
Qed.

Lemma map_migrate_noop (l : list (person A)) :
  forallb complete l = true ->
  map fst (map migrate l) = l /\ existsb snd (map migrate l) = false.
Proof.
  induction l as [|p l IH]; simpl; intros Hl; [split; reflexivity|].
  apply andb_true_iff in Hl. destruct Hl as [Hp Hl].
  destruct (IH Hl) as [IH1 IH2].
  rewrite (migrate_noop p Hp). simpl. rewrite IH1, IH2. split; reflexivity.
Qed.

Lemma load_complete (f : index_file A) :
  forallb complete (fst (load_person_index f)) = true.
Proof.
  destruct f as [| |d]; simpl; try reflexivity.
  induction (match d with Some l => l | None => [] end) as [|p l IH]; simpl;
    [reflexivity|].
  rewrite migrate_complete. exact IH.
Qed.

Lemma load_save_complete (l : list (person A)) :
  forallb complete l = true ->
  load_person_index (save_person_index l) = (l, save_person_index l).
Proof.
  intros Hl. unfold load_person_index, save_person_index.
  destruct (map_migrate_noop l Hl) as [E1 E2].
  rewrite E1, E2. reflexivity.
Qed.

(** C5. [load_person_index] never fails on a missing or unparseable
    registry file: it returns the empty registry.  On a parsed file it
    returns every record with the migration defaults applied: a legacy
    single prototype wrapped into a one-element list, a missing running
    average set to the first prototype (or left absent when there is
    none), a missing observation count set to the larger of 1 and the
    prototype count, a missing custom threshold set to absent. *)
Theorem C5_load_defaults :
  fst (load_person_index (@Absent A)) = []
  /\ fst (load_person_index (@Unparseable A)) = []
  /\ forall d : option (list (person A)),
       fst (load_person_index (Parsed d))
       = map rule_record (match d with Some l => l | None => [] end).
Proof.
  split; [reflexivity|]. split; [reflexivity|].
  intros d. simpl. rewrite map_map.
  apply map_ext. intros p. apply migrate_rule.
Qed.
End RegistryStore.

(* ------------------------------------------------------------------ *)
(** * Facts about dicts and lists *)

Section DictFacts.
Context {V : Type}.
Implicit Types (d : dict V) (k : Z) (v : V).

Lemma dict_get_set_same k v d : dict_get k (dict_set k v d) = Some v.
Proof.
  induction d as [|[k' v'] r IH]; simpl.
  - rewrite Z.eqb_refl. reflexivity.
  - destruct (Z.eqb k k') eqn:E; simpl; rewrite E; [reflexivity | exact IH].
Qed.

Lemma dict_get_set_other k k' v d :
  k <> k' -> dict_get k (dict_set k' v d) = dict_get k d.
Proof.
  intros Hk. induction d as [|[k0 v0] r IH]; simpl.
  - destruct (Z.eqb k k') eqn:E; [apply Z.eqb_eq in E; contradiction | reflexivity].
  - destruct (Z.eqb k' k0) eqn:E; simpl.
    + apply Z.eqb_eq in E. subst k0.
      destruct (Z.eqb k k') eqn:E'; [apply Z.eqb_eq in E'; contradiction | reflexivity].
    + destruct (Z.eqb k k0); [reflexivity | exact IH].
Qed.

Lemma dict_get_In k d : dict_get k d <> None <-> In k (dict_keys d).
Proof.
  induction d as [|[k' v'] r IH]; simpl.
  - split; [congruence | tauto].
  - destruct (Z.eqb k k') eqn:E.
    + apply Z.eqb_eq in E. subst. split; [auto | congruence].
    + apply Z.eqb_neq in E. rewrite IH. split; [auto | intros [?|?]; congruence].
Qed.

Lemma dict_get_None k d : dict_get k d = None <-> ~ In k (dict_keys d).
Proof.
  rewrite <- dict_get_In. destruct (dict_get k d); split; try congruence; tauto.
Qed.

Lemma dict_keys_set k v d :
  dict_keys (dict_set k v d)
  = if existsb (Z.eqb k) (dict_keys d) then dict_keys d else dict_keys d ++ [k].
Proof.
  induction d as [|[k' v'] r IH]; simpl; [reflexivity|].
  destruct (Z.eqb k k') eqn:E; simpl; [reflexivity|].
  unfold dict_keys in *. rewrite IH.
  destruct (existsb (Z.eqb k) (map fst r)); reflexivity.
Qed.

Lemma existsb_Zeqb k (l : list Z) : existsb (Z.eqb k) l = true <-> In k l.
Proof.
  rewrite existsb_exists. split.
  - intros [x [Hx E]]. apply Z.eqb_eq in E. subst. exact Hx.
  - intros Hk. exists k. split; [exact Hk | apply Z.eqb_refl].
Qed.

Lemma dict_keys_set_In k k' v d :
  In k (dict_keys (dict_set k' v d)) <-> k = k' \/ In k (dict_keys d).
Proof.
  rewrite dict_keys_set.
  destruct (existsb (Z.eqb k') (dict_keys d)) eqn:E.
  - apply existsb_Zeqb in E. split; [auto | intros [->|?]; assumption].
  - rewrite in_app_iff. simpl. split; intros; intuition congruence.
Qed.

Lemma dict_keys_set_NoDup k v d :
  NoDup (dict_keys d) -> NoDup (dict_keys (dict_set k v d)).
Proof.
  intros Hd. rewrite dict_keys_set.
  destruct (existsb (Z.eqb k) (dict_keys d)) eqn:E; [exact Hd|].
  apply NoDup_app; [exact Hd | repeat constructor; simpl; tauto |].
  intros a Ha Hk. destruct Hk as [Hk|[]]. subst a.
  apply (existsb_Zeqb k) in Ha. congruence.
Qed.

Lemma dict_get_In_pair k v d :
  NoDup (dict_keys d) -> (In (k, v) d <-> dict_get k d = Some v).
Proof.
  induction d as [|[k' v'] r IH]; simpl; intros Hd.
  - split; [tauto | congruence].
  - inversion Hd as [|? ? Hn Hr]; subst.
    destruct (Z.eqb k k') eqn:E.
    + apply Z.eqb_eq in E. subst k'. split.
      * intros [E|Hin]; [congruence|].
        exfalso. apply Hn. apply (in_map fst) in Hin. exact Hin.
      * intros E. left. congruence.
    + apply Z.eqb_neq in E. rewrite <- (IH Hr). split.
      * intros [E'|Hin]; [congruence | exact Hin].
      * auto.
Qed.
End DictFacts.

(* ------------------------------------------------------------------ *)
(** * Ranking the records for one candidate *)

Section RankFacts.
Context {A : Type} `{Numeric A}.

Definition ge_pair (a b : Z * A) : Prop := flt (snd a) (snd b) = false.

Lemma scores_get (l : list (A * Z)) : forall (d : dict A) (o : Z),
  dict_get o
    (fold_left
       (fun d so =>
          match dict_get (snd so) d with
          | None => dict_set (snd so) (fst so) d
          | Some cur => if flt cur (fst so) then dict_set (snd so) (fst so) d else d
          end) l d)
  = match dict_get o d, map fst (filter (fun so => Z.eqb (snd so) o) l) with
    | Some cur, m => Some (fold_left pymax m cur)
    | None, [] => None
    | None, x :: r => Some (fold_left pymax r x)
    end.
Proof.
  induction l as [|[s o'] l IH]; intros d o; simpl.
  - destruct (dict_get o d); reflexivity.
  - rewrite IH. clear IH.
    destruct (Z.eqb o' o) eqn:E.
    + apply Z.eqb_eq in E. subst o'. simpl.
      destruct (dict_get o d) as [cur|] eqn:G.
      * change (pymax cur s) with (if flt cur s then s else cur).
        destruct (flt cur s).
        -- rewrite dict_get_set_same. reflexivity.
        -- rewrite G. reflexivity.
      * rewrite dict_get_set_same. reflexivity.
    + apply Z.eqb_neq in E.
      assert (E' : o <> o') by congruence.
      destruct (dict_get o' d) as [cur'|].
      * destruct (flt cur' s); [rewrite dict_get_set_other by exact E'|]; reflexivity.
      * rewrite dict_get_set_other by exact E'. reflexivity.
Qed.

Lemma scores_keys_NoDup (l : list (A * Z)) : forall d : dict A,
  NoDup (dict_keys d) ->
  NoDup (dict_keys
    (fold_left
       (fun d so =>
          match dict_get (snd so) d with
          | None => dict_set (snd so) (fst so) d
          | Some cur => if flt cur (fst so) then dict_set (snd so) (fst so) d else d
          end) l d)).
Proof.
  induction l as [|[s o'] l IH]; intros d Hd; simpl; [exact Hd|].
  apply IH. destruct (dict_get o' d) as [cur|];
    [destruct (flt cur s)|]; auto using dict_keys_set_NoDup.
Qed.

Lemma best_score_get (sims : list A) (owners : list Z) (o : Z) :
  dict_get o (per_person_scores sims owners)
  = match map fst (filter (fun so => Z.eqb (snd so) o) (combine sims owners)) with
    | [] => None
    | m => Some (row_max m)
    end.
Proof.
  unfold per_person_scores. rewrite scores_get. simpl.
  destruct (map fst _); reflexivity.
Qed.

Lemma per_person_scores_NoDup (sims : list A) (owners : list Z) :
  NoDup (dict_keys (per_person_scores sims owners)).
Proof. apply scores_keys_NoDup. constructor. Qed.

Lemma insert_desc_perm (x : Z * A) (l : list (Z * A)) :
  Permutation (insert_desc x l) (x :: l).
Proof.
  induction l as [|y r IH]; simpl; [reflexivity|].
  destruct (flt (snd x) (snd y)); [|reflexivity].
  rewrite IH. apply perm_swap.
Qed.

Lemma sorted_pairs_perm (d : dict A) : Permutation (sorted_pairs d) d.
Proof.
  induction d as [|x r IH]; simpl; [reflexivity|].
  rewrite insert_desc_perm. constructor. exact IH.
Qed.

Context {HO : NumericOrder A}.

Lemma flt_asym (a b : A) : flt a b = true -> flt b a = false.
Proof.
  intros Hab. destruct (flt b a) eqn:Hba; [|reflexivity].
  rewrite <- (flt_irrefl a). symmetry. exact (flt_trans _ _ _ Hab Hba).
Qed.

Lemma insert_desc_sorted (x : Z * A) (l : list (Z * A)) :
  StronglySorted ge_pair l -> StronglySorted ge_pair (insert_desc x l).
Proof.
  induction l as [|y r IH]; simpl; intros Hs.
  - repeat constructor.
  - inversion Hs as [|? ? Hr Hy]; subst.
    destruct (flt (snd x) (snd y)) eqn:E.
    + constructor; [exact (IH Hr)|].
      rewrite Forall_forall. intros z Hz.
      apply (Permutation_in _ (insert_desc_perm x r)) in Hz.
      destruct Hz as [<-|Hz].
      * exact (flt_asym _ _ E).
      * rewrite Forall_forall in Hy. exact (Hy z Hz).
    + constructor; [exact Hs|].
      constructor; [exact E|].
      rewrite Forall_forall in Hy |- *. intros z Hz.
      exact (flt_negtrans _ _ _ E (Hy z Hz)).
Qed.

Lemma sorted_pairs_sorted (d : dict A) : StronglySorted ge_pair (sorted_pairs d).
Proof.
  induction d as [|x r IH]; simpl; [constructor | apply insert_desc_sorted, IH].
Qed.
End RankFacts.

Section RankSpec.
Context {A : Type} `{Numeric A} {HO : NumericOrder A}.

Variables (P : list (list A)) (owners : list Z) (c : list A).

Let scores : dict A := per_person_scores (map nan_to_num (matvec P c)) owners.

Lemma scores_best (o : Z) (s : A) :
  In (o, s) scores -> sims_of P owners c o <> [] /\ s = best_score P owners c o.
Proof.
  intros Hin.
  apply (dict_get_In_pair o s _ (per_person_scores_NoDup _ _)) in Hin.
  unfold scores in Hin. rewrite best_score_get in Hin.
  unfold best_score, sims_of.
  destruct (map fst _) as [|x m]; [discriminate|].
  split; [discriminate | congruence].
Qed.

Lemma scored_In (o : Z) :
  sims_of P owners c o <> [] -> exists s, In (o, s) scores.
Proof.
  intros Hne.
  exists (best_score P owners c o).
  apply (dict_get_In_pair _ _ _ (per_person_scores_NoDup _ _)).
  unfold scores. rewrite best_score_get.
  unfold best_score, sims_of in *.
  destruct (map fst _) as [|x m]; [congruence | reflexivity].
Qed.

(** [rank] returns the record of greatest best score, its score, and the
    greatest best score among the other records, or -1 when there is no
    other record. *)
Lemma rank_spec (o0 : Z) :
  sims_of P owners c o0 <> [] ->
  exists best_num s1 s2,
    rank P owners c = Some (best_num, s1, s2)
    /\ top_record P owners c best_num s1
    /\ runner_up P owners c best_num s2.
Proof.
  intros H0.
  pose proof (sorted_pairs_perm scores) as Hperm.
  pose proof (sorted_pairs_sorted scores) as Hsort.
  assert (Hnd : NoDup (map fst (sorted_pairs scores))).
  { apply (Permutation_NoDup (l := map fst scores)).
    - apply Permutation_map. symmetry. exact Hperm.
    - apply per_person_scores_NoDup. }
  assert (Hmem : forall o, sims_of P owners c o <> [] ->
                   In (o, best_score P owners c o) (sorted_pairs scores)).
  { intros o Ho. destruct (scored_In o Ho) as [s Hs].
    destruct (scores_best o s Hs) as [_ Es]. subst s.
    apply (Permutation_in _ (Permutation_sym Hperm)). exact Hs. }
  unfold rank. fold scores.
  destruct (sorted_pairs scores) as [|[b s1] rest] eqn:E.
  - destruct (Hmem o0 H0).
  - assert (Hb : In (b, s1) scores).
    { apply (Permutation_in _ Hperm). left. reflexivity. }
    destruct (scores_best b s1 Hb) as [Hb1 Hb2].
    inversion Hsort as [|? ? Hsr Hhd]; subst.
    rewrite Forall_forall in Hhd.
    inversion Hnd as [|? ? Hnb Hndr]; subst.
    exists b, (best_score P owners c b).
    eexists. split; [reflexivity|].
    split.
    { split; [exact Hb1|]. split; [reflexivity|].
      intros o Ho. destruct (Hmem o Ho) as [E'|Hin].
      - assert (b = o) by congruence. subst o. apply flt_irrefl.
      - exact (Hhd _ Hin). }
    destruct rest as [|[o2 s2] rest'].
    + left. split; [reflexivity|].
      intros o Ho. destruct (Hmem o Ho) as [E'|[]]. congruence.
    + right. exists o2.
      assert (Ho2 : In (o2, s2) scores).
      { apply (Permutation_in _ Hperm). right. left. reflexivity. }
      destruct (scores_best o2 s2 Ho2) as [Ho21 Ho22].
      split; [intros ->; apply Hnb; left; reflexivity|].
      split; [exact Ho21|]. split; [exact Ho22|].
      intros o Hne Ho.
      apply StronglySorted_inv in Hsr. destruct Hsr as [_ Hhd2].
      rewrite Forall_forall in Hhd2.
      destruct (Hmem o Ho) as [E'|[E'|Hin]].
      * congruence.
      * assert (o2 = o) by congruence. subst o. rewrite Ho22. apply flt_irrefl.
      * exact (Hhd2 _ Hin).
Qed.
End RankSpec.

(* ------------------------------------------------------------------ *)
(** * The decision of the matcher *)

Section Decision.
Context {A : Type} `{Numeric A}.

Lemma proto_lengths (l : list (person A)) :
  length (proto_list l) = length (proto_owner l).
Proof.
  unfold proto_list, proto_owner.
  induction l as [|p l IH]; [reflexivity|].
  cbn [flat_map]. rewrite !length_app, !length_map. f_equal. exact IH.
Qed.

Lemma proto_owner_In (l : list (person A)) (o : Z) :
  In o (proto_owner l) <->
  exists p, In p l /\ number p = o /\ person_protos p <> [].
Proof.
  unfold proto_owner. rewrite in_flat_map. split.
  - intros [p [Hp Hin]]. apply in_map_iff in Hin. destruct Hin as [v [E Hv]].
    exists p. repeat split; [exact Hp | exact E |].
    intros E'. rewrite E' in Hv. exact Hv.
  - intros [p [Hp [E Hne]]]. exists p. split; [exact Hp|].
    destruct (person_protos p) as [|v r]; [congruence|].
    left. exact E.
Qed.

Lemma filter_owner_nonempty (o : Z) (sims : list A) : forall owners : list Z,
  length sims = length owners ->
  (map fst (filter (fun so : A * Z => Z.eqb (snd so) o) (combine sims owners)) <> []
   <-> In o owners).
Proof.
  induction sims as [|s sims IH]; intros [|o' owners] Hlen; simpl in *;
    try discriminate.
  - split; [congruence | tauto].
  - injection Hlen as Hlen. specialize (IH owners Hlen).
    destruct (Z.eqb o' o) eqn:E; simpl.
    + apply Z.eqb_eq in E. split; [auto | discriminate].
    + apply Z.eqb_neq in E. rewrite IH. split; [auto | intros [?|?]; congruence].
Qed.

Lemma sims_of_nonempty (P : list (list A)) (owners : list Z) (c : list A) (o : Z) :
  length P = length owners ->
  (sims_of P owners c o <> [] <-> In o owners).
Proof.
  intros Hlen. unfold sims_of. apply filter_owner_nonempty.
  unfold matvec. rewrite !length_map. exact Hlen.
Qed.

Lemma per_thr_fold (l : list (person A)) : forall (d : dict A) (o : Z),
  ~ In o (map (@number A) l) ->
  dict_get o
    (fold_left (fun d p => match thr p with Val t => dict_set (number p) t d | _ => d end)
               l d)
  = dict_get o d.
Proof.
  induction l as [|q l IH]; intros d o Hn; simpl in *; [reflexivity|].
  rewrite IH by tauto.
  destruct (thr q); try reflexivity.
  apply dict_get_set_other. intros E. apply Hn. left. congruence.
Qed.

(** With unique numbers, [per_thr] holds each record's own threshold. *)
Lemma per_thr_get_gen (l : list (person A)) (p : person A) : forall d : dict A,
  NoDup (map (@number A) l) -> In p l ->
  dict_get (number p)
    (fold_left (fun d p => match thr p with Val t => dict_set (number p) t d | _ => d end)
               l d)
  = match thr p with Val t => Some t | _ => dict_get (number p) d end.
Proof.
  induction l as [|q l IH]; intros d Hnd Hin; simpl in *; [contradiction|].
  inversion Hnd as [|? ? Hq Hl]; subst.
  destruct Hin as [->|Hin].
  - rewrite per_thr_fold by exact Hq.
    destruct (thr p); try reflexivity.
    apply dict_get_set_same.
  - rewrite (IH _ Hl Hin).
    destruct (thr p); try reflexivity;
      (destruct (thr q); [reflexivity | reflexivity |];
       apply dict_get_set_other; intros E; apply Hq;
       rewrite <- E; apply in_map; exact Hin).
Qed.

Lemma per_thr_get (l : list (person A)) (p : person A) :
  NoDup (map (@number A) l) -> In p l ->
  dict_get (number p) (per_thr l) = custom_threshold p.
Proof.
  intros Hnd Hin. unfold per_thr. rewrite (per_thr_get_gen l p [] Hnd Hin).
  unfold custom_threshold. destruct (thr p); reflexivity.
Qed.

Lemma thr_use_effective (T : A) (thrs : dict A) (b : Z) :
  flt T (flit (-1000000000)) = false ->
  thr_use T thrs b = effective_threshold T (dict_get b thrs).
Proof.
  intros HT. unfold thr_use, effective_threshold, dict_get_or.
  destruct (dict_get b thrs); [reflexivity|].
  unfold pymax. rewrite HT. reflexivity.
Qed.
End Decision.

Section MarginLaw.
Context {A : Type} `{Numeric A}.

(** One turn of the loop, from any state. *)
Lemma step_margin (HO : NumericOrder A) (T M : A) (loaded : list (person A))
    (centroids_norm : dict (list A)) (st : loop_state A) (cid : Z) (c : list A) :
  flt T (flit (-1000000000)) = false ->
  proto_list loaded <> [] ->
  dict_get cid centroids_norm = Some c ->
  exists p s1 s2,
    In p loaded
    /\ person_protos p <> []
    /\ top_record (proto_list loaded) (proto_owner loaded) c (number p) s1
    /\ runner_up (proto_list loaded) (proto_owner loaded) c (number p) s2
    /\ (NoDup (map (@number A) loaded) ->
        dict_get (number p) (per_thr loaded) = custom_threshold p)
    /\ step T M centroids_norm (proto_list loaded) (proto_owner loaded)
            (per_thr loaded) st cid
       = if fle (effective_threshold T (dict_get (number p) (per_thr loaded))) s1
            && fle M (fsub s1 s2)
         then assign st cid (number p) c
         else mint st cid c.
Proof.
  intros HT HP Hc.
  pose proof (proto_lengths loaded) as Hlen.
  destruct (proto_owner loaded) as [|o0 os] eqn:Eo.
  { destruct (proto_list loaded); [congruence | discriminate]. }
  rewrite <- Eo in *.
  assert (H0 : sims_of (proto_list loaded) (proto_owner loaded) c o0 <> []).
  { apply sims_of_nonempty; [exact Hlen | rewrite Eo; left; reflexivity]. }
  destruct (rank_spec (proto_list loaded) (proto_owner loaded) c o0 H0)
    as [best [s1 [s2 [Hrank [Htop Hrun]]]]].
  assert (Hbest : In best (proto_owner loaded)).
  { apply (sims_of_nonempty _ _ c best Hlen). exact (proj1 Htop). }
  apply proto_owner_In in Hbest. destruct Hbest as [p [Hp [Enum Hne]]].
  subst best.
  exists p, s1, s2.
  split; [exact Hp|]. split; [exact Hne|]. split; [exact Htop|].
  split; [exact Hrun|].
  split; [intros Hnd; apply per_thr_get; assumption|].
  unfold step. rewrite Hc.
  destruct (proto_list loaded) as [|r0 rs] eqn:EP; [congruence|].
  rewrite Hrank. unfold accepts.
  rewrite (thr_use_effective T _ _ HT). reflexivity.
Qed.

End MarginLaw.

(* ------------------------------------------------------------------ *)
(** * The loop over the eligible clusters *)

Section LoopFacts.
Context {A : Type} `{Numeric A}.
Variables (T M : A) (cn : dict (list A)) (P : list (list A))
          (owners : list Z) (thrs : dict A).

Local Notation "'stp'" := (step T M cn P owners thrs) (only parsing).
Local Notation "'V'" := (verdict_of T M cn P owners thrs) (only parsing).
Local Notation "'mints' el" :=
  (length (filter (fun k => is_minted (V k)) el)) (only parsing, at level 10).

Lemma step_cases (st : loop_state A) (cid : Z) :
  match V cid with
  | Skipped => dict_get cid cn = None /\ stp st cid = st
  | Matched b => exists c, dict_get cid cn = Some c /\ stp st cid = assign st cid b c
  | Minted => exists c, dict_get cid cn = Some c /\ stp st cid = mint st cid c
  end.
Proof.
  unfold verdict_of, step.
  destruct (dict_get cid cn) as [c|]; [|split; reflexivity].
  destruct P as [|r0 rs]; [exists c; split; reflexivity|].
  destruct (rank (r0 :: rs) owners c) as [[[b s1] s2]|];
    [|exists c; split; reflexivity].
  destruct (accepts T M thrs (Some (b, s1, s2))); exists c; split; reflexivity.
Qed.

Lemma verdict_skipped (cid : Z) : V cid = Skipped <-> dict_get cid cn = None.
Proof.
  unfold verdict_of.
  destruct (dict_get cid cn) as [c|]; [|tauto].
  split; [|discriminate].
  destruct P; [discriminate|].
  destruct (rank _ owners c) as [[[b s1] s2]|]; [|discriminate].
  destruct (accepts _ _ _ _); discriminate.
Qed.

Lemma update_first_numbers (b : Z) (c : list A) (l : list (person A)) :
  map (@number A) (update_first b c l) = map (@number A) l.
Proof.
  induction l as [|p l IH]; simpl; [reflexivity|].
  destruct (Z.eqb (number p) b); simpl; [reflexivity | rewrite IH; reflexivity].
Qed.

(** Minted numbers are consecutive from [cur_max + 1], in the order of
    the appended records. *)
Lemma loop_numbers (el : list Z) : forall st : loop_state A,
  cur_max (fold_left stp el st) = (cur_max st + Z.of_nat (mints el))%Z
  /\ map (@number A) (persons (fold_left stp el st))
     = map (@number A) (persons st)
       ++ map (fun i => (cur_max st + Z.of_nat i)%Z) (seq 1 (mints el)).
Proof.
  induction el as [|cid el IH]; intros st; simpl.
  - rewrite Z.add_0_r, app_nil_r. split; reflexivity.
  - pose proof (step_cases st cid) as Hc.
    destruct (IH (stp st cid)) as [IH1 IH2]. rewrite IH1, IH2. clear IH IH1 IH2.
    destruct (V cid) as [|b|] eqn:EV; simpl.
    + destruct Hc as [_ ->]. split; reflexivity.
    + destruct Hc as [c [_ ->]]. simpl. rewrite update_first_numbers.
      split; reflexivity.
    + destruct Hc as [c [_ ->]]. simpl. split; [lia|].
      rewrite map_app, <- app_assoc. simpl. f_equal.
      f_equal.
      rewrite <- (seq_shift _ 1), map_map. apply map_ext. intros i. lia.
Qed.

(** The clusters in [assigned] are the matched ones, those in [new_nums]
    the minted ones. *)
Lemma loop_assigned_keys (el : list Z) : forall (st : loop_state A) (k : Z),
  In k (dict_keys (assigned (fold_left stp el st)))
  <-> In k (dict_keys (assigned st)) \/ (In k el /\ is_matched (V k) = true).
Proof.
  induction el as [|cid el IH]; intros st k; simpl; [tauto|].
  rewrite IH. clear IH.
  pose proof (step_cases st cid) as Hc.
  destruct (V cid) as [|b|] eqn:EV.
  - destruct Hc as [_ ->]. split; [tauto|].
    intros [?|[[<-|?] Hm]]; try tauto. rewrite EV in Hm. discriminate.
  - destruct Hc as [c [_ ->]]. simpl. rewrite dict_keys_set_In. split.
    + intros [[->|?]|[? ?]]; try tauto. right. rewrite EV. auto.
    + intros [?|[[<-|?] Hm]]; tauto.
  - destruct Hc as [c [_ ->]]. simpl. split; [tauto|].
    intros [?|[[<-|?] Hm]]; try tauto. rewrite EV in Hm. discriminate.
Qed.

Lemma loop_new_keys (el : list Z) : forall (st : loop_state A) (k : Z),
  In k (dict_keys (new_nums (fold_left stp el st)))
  <-> In k (dict_keys (new_nums st)) \/ (In k el /\ is_minted (V k) = true).
Proof.
  induction el as [|cid el IH]; intros st k; simpl; [tauto|].
  rewrite IH. clear IH.
  pose proof (step_cases st cid) as Hc.
  destruct (V cid) as [|b|] eqn:EV.
  - destruct Hc as [_ ->]. split; [tauto|].
    intros [?|[[<-|?] Hm]]; try tauto. rewrite EV in Hm. discriminate.
  - destruct Hc as [c [_ ->]]. simpl. split; [tauto|].
    intros [?|[[<-|?] Hm]]; try tauto. rewrite EV in Hm. discriminate.
  - destruct Hc as [c [_ ->]]. simpl. rewrite dict_keys_set_In. split.
    + intros [[->|?]|[? ?]]; try tauto. right. rewrite EV. auto.
    + intros [?|[[<-|?] Hm]]; tauto.
Qed.
End LoopFacts.

Section LoopFacts2.
Context {A : Type} `{Numeric A}.
Variables (T M : A) (cn : dict (list A)) (P : list (list A))
          (owners : list Z) (thrs : dict A).

Local Notation "'stp'" := (step T M cn P owners thrs) (only parsing).
Local Notation "'V'" := (verdict_of T M cn P owners thrs) (only parsing).

(** A cluster without a centroid leaves no trace in the loop. *)
Lemma loop_skip (l1 l2 : list Z) (cid : Z) (st : loop_state A) :
  dict_get cid cn = None ->
  fold_left stp (l1 ++ cid :: l2) st = fold_left stp (l1 ++ l2) st.
Proof.
  intros Hc. rewrite !fold_left_app. simpl. f_equal.
  unfold step. rewrite Hc. reflexivity.
Qed.

(** Without prototypes every present centroid is minted, in order. *)
Lemma loop_cold (el : list Z) : forall st : loop_state A,
  P = [] ->
  persons (fold_left stp el st)
  = persons st ++ mint_all (cur_max st) (present_centroids cn el)
  /\ assigned (fold_left stp el st) = assigned st.
Proof.
  intros st HP. revert st.
  induction el as [|cid el IH]; intros st; simpl.
  - rewrite app_nil_r. split; reflexivity.
  - destruct (IH (stp st cid)) as [IH1 IH2]. rewrite IH1, IH2.
    unfold step. rewrite HP.
    destruct (dict_get cid cn) as [c|]; simpl.
    + rewrite <- app_assoc. split; reflexivity.
    + split; reflexivity.
Qed.

Lemma update_complete (p : person A) (c : list A) (k : nat) (a : A) :
  complete p = true -> complete (_update_person_proto p c k a) = true.
Proof.
  destruct p as [n ps pr e cnt t]. unfold complete, _update_person_proto. simpl.
  destruct ps, e, cnt, t; intros Hc; try discriminate; reflexivity.
Qed.

Lemma update_first_complete (b : Z) (c : list A) (l : list (person A)) :
  forallb complete l = true -> forallb complete (update_first b c l) = true.
Proof.
  induction l as [|p l IH]; simpl; [auto|].
  intros Hl. apply andb_true_iff in Hl. destruct Hl as [Hp Hl].
  destruct (Z.eqb (number p) b); simpl.
  - rewrite (update_complete _ _ _ _ Hp). exact Hl.
  - rewrite Hp. exact (IH Hl).
Qed.

Lemma loop_complete (el : list Z) : forall st : loop_state A,
  forallb complete (persons st) = true ->
  forallb complete (persons (fold_left stp el st)) = true.
Proof.
  induction el as [|cid el IH]; intros st Hst; simpl; [exact Hst|].
  apply IH.
  pose proof (step_cases T M cn P owners thrs st cid) as Hc.
 
  destruct (verdict_of T M cn P owners thrs cid).
  - destruct Hc as [_ ->]. exact Hst.
  - destruct Hc as [c [_ ->]]. simpl. apply update_first_complete. exact Hst.
  - destruct Hc as [c [_ ->]]. simpl. rewrite forallb_app, Hst. reflexivity.
Qed.

Lemma loop_new_NoDup (el : list Z) : forall st : loop_state A,
  NoDup (dict_keys (new_nums st)) ->
  NoDup (dict_keys (new_nums (fold_left stp el st))).
Proof.
  induction el as [|cid el IH]; intros st Hst; simpl; [exact Hst|].
  apply IH.
  pose proof (step_cases T M cn P owners thrs st cid) as Hc.
 
  destruct (verdict_of T M cn P owners thrs cid).
  - destruct Hc as [_ ->]. exact Hst.
  - destruct Hc as [c [_ ->]]. exact Hst.
  - destruct Hc as [c [_ ->]]. simpl. apply dict_keys_set_NoDup. exact Hst.
Qed.

Lemma loop_cur_max_le (el : list Z) (st : loop_state A) :
  (cur_max st <= cur_max (fold_left stp el st))%Z.
Proof.
  rewrite (proj1 (loop_numbers T M cn P owners thrs el st)). lia.
Qed.

(** Every number in [new_nums] was there before or was minted by the
    loop. *)
Lemma loop_new_values (el : list Z) : forall (st : loop_state A) (k n : Z),
  dict_get k (new_nums (fold_left stp el st)) = Some n ->
  dict_get k (new_nums st) = Some n
  \/ (cur_max st < n <= cur_max (fold_left stp el st))%Z.
Proof.
  induction el as [|cid el IH]; intros st k n Hk; simpl in *; [left; exact Hk|].
  pose proof (loop_cur_max_le el (stp st cid)) as Hle.
  pose proof (step_cases T M cn P owners thrs st cid) as Hc.
  destruct (IH _ _ _ Hk) as [Hk'|Hr]; clear IH.
  - destruct (verdict_of T M cn P owners thrs cid).
    + destruct Hc as [_ E]. rewrite E in Hk'. left. exact Hk'.
    + destruct Hc as [c [_ E]]. rewrite E in Hk'. left. exact Hk'.
    + destruct Hc as [c [_ E]]. rewrite E in Hk', Hle. simpl in *.
      destruct (Z.eq_dec k cid) as [->|Hne].
      * rewrite dict_get_set_same in Hk'. injection Hk' as <-. right.
        rewrite E. lia.
      * rewrite dict_get_set_other in Hk' by exact Hne. left. exact Hk'.
  - right. destruct (verdict_of T M cn P owners thrs cid).
    + destruct Hc as [_ E]. rewrite E in *. exact Hr.
    + destruct Hc as [c [_ E]]. rewrite E in *. exact Hr.
    + destruct Hc as [c [_ E]]. rewrite E in *. simpl in Hr. lia.
Qed.

(** The last number minted is still in [new_nums] when the loop ends. *)
Lemma loop_keeps_last (el : list Z) : forall st : loop_state A,
  (exists k, dict_get k (new_nums st) = Some (cur_max st)) ->
  exists k, dict_get k (new_nums (fold_left stp el st))
            = Some (cur_max (fold_left stp el st)).
Proof.
  induction el as [|cid el IH]; intros st Hst; simpl; [exact Hst|].
  apply IH.
  pose proof (step_cases T M cn P owners thrs st cid) as Hc.
  destruct (verdict_of T M cn P owners thrs cid).
  - destruct Hc as [_ ->]. exact Hst.
  - destruct Hc as [c [_ ->]]. exact Hst.
  - destruct Hc as [c [_ ->]]. exists cid. simpl. apply dict_get_set_same.
Qed.

Lemma loop_last_minted (el : list Z) : forall st : loop_state A,
  cur_max (fold_left stp el st) <> cur_max st ->
  exists k, dict_get k (new_nums (fold_left stp el st))
            = Some (cur_max (fold_left stp el st)).
Proof.
  induction el as [|cid el IH]; intros st Hne; simpl in *; [congruence|].
  pose proof (step_cases T M cn P owners thrs st cid) as Hc.
  destruct (verdict_of T M cn P owners thrs cid).
  - destruct Hc as [_ E]. rewrite E in *. apply IH. exact Hne.
  - destruct Hc as [c [_ E]]. rewrite E in *. apply (IH _ Hne).
  - destruct Hc as [c [_ E]]. apply loop_keeps_last. rewrite E.
    exists cid. simpl. apply dict_get_set_same.
Qed.
End LoopFacts2.

(* ------------------------------------------------------------------ *)
(** * The margin law *)

Section MarginLawTurn.
Context {A : Type} `{Numeric A}.

Lemma per_thr_table_gen (l : list (person A)) (n : Z) : forall d : dict A,
  dict_get n
    (fold_left (fun d p => match thr p with Val t => dict_set (number p) t d | _ => d end)
               l d)
  = match table_threshold l n with Some t => Some t | None => dict_get n d end.
Proof.
  induction l as [|q r IH]; intros d; simpl; [reflexivity|].
  rewrite IH. destruct (table_threshold r n) as [t|]; [reflexivity|].
  unfold custom_threshold. destruct (thr q) as [| |t].
  - destruct (Z.eqb (number q) n); reflexivity.
  - destruct (Z.eqb (number q) n); reflexivity.
  - destruct (Z.eqb_spec (number q) n) as [E|N].
    + subst n. apply dict_get_set_same.
    + apply dict_get_set_other. intros E. apply N. symmetry. exact E.
Qed.

Lemma per_thr_table (l : list (person A)) (n : Z) :
  dict_get n (per_thr l) = table_threshold l n.
Proof.
  unfold per_thr. rewrite per_thr_table_gen.
  destruct (table_threshold l n); reflexivity.
Qed.

Lemma update_first_split (b : Z) (c : list A) (l : list (person A)) :
  In b (map (@number A) l) ->
  exists q,
    first_replaced l (update_first b c l) b q
      (_update_person_proto q c default_k_max default_ema_alpha).
Proof.
  induction l as [|p r IH]; intros Hin; simpl in *; [contradiction|].
  destruct (Z.eqb_spec (number p) b) as [E|N].
  - exists p, 0%nat. split; [reflexivity|]. split; [exact E|]. split.
    + intros j r0 Hj. lia.
    + reflexivity.
  - destruct Hin as [E|Hin]; [contradiction|].
    destruct (IH Hin) as [q [i [Hq [En [Hb El]]]]].
    exists q, (S i). split; [exact Hq|]. split; [exact En|]. split.
    + intros [|j] r0 Hj Hr; simpl in Hr.
      * injection Hr as <-. exact N.
      * apply (Hb j r0); [lia | exact Hr].
    + simpl. rewrite El. reflexivity.
Qed.

Lemma try_loop_app (T M : A) (cn : dict (list A)) (P : list (list A))
    (owners : list Z) (thrs : dict A) (l1 l2 : list Z) : forall st : loop_state A,
  try_loop T M cn P owners thrs (l1 ++ l2) st
  = match try_loop T M cn P owners thrs l1 st with
    | Some s => try_loop T M cn P owners thrs l2 s
    | None => None
    end.
Proof.
  induction l1 as [|cid r IH]; intros st; simpl; [reflexivity|].
  destruct (try_step T M cn P owners thrs st cid); [apply IH | reflexivity].
Qed.

Lemma try_loop_some (T M : A) (cn : dict (list A)) (P : list (list A))
    (owners : list Z) (thrs : dict A) (el : list Z) : forall st st' : loop_state A,
  try_loop T M cn P owners thrs el st = Some st' ->
  st' = fold_left (step T M cn P owners thrs) el st.
Proof.
  induction el as [|cid r IH]; intros st st' Hl; simpl in *.
  - injection Hl as <-. reflexivity.
  - unfold try_step in Hl. destruct (dict_get cid cn) as [c|] eqn:Ec.
    + destruct (conforms P c); [|discriminate]. exact (IH _ _ Hl).
    + rewrite (IH _ _ Hl). f_equal. unfold step. rewrite Ec. reflexivity.
Qed.

Lemma normalize_length (v : list A) : length (_normalize_np v) = length v.
Proof. unfold _normalize_np. apply length_map. Qed.

Lemma one_width_conforms (d : nat) (l : list (person A)) (c : list A) :
  one_width d l = true -> length c = d -> conforms (proto_list l) c = true.
Proof.
  intros Hw Hc. unfold conforms. apply forallb_forall. intros r Hr.
  unfold proto_list in Hr. apply in_flat_map in Hr. destruct Hr as [p [Hp Hr]].
  apply in_map_iff in Hr. destruct Hr as [x [<- Hx]].
  rewrite normalize_length, Hc. apply Nat.eqb_eq. symmetry.
  unfold one_width in Hw. rewrite forallb_forall in Hw.
  specialize (Hw p Hp). apply andb_prop in Hw. destruct Hw as [Hpr He].
  unfold person_protos in Hx. destruct (get_protos p) as [|y ys] eqn:Eg.
  - destruct (ema p) as [| |e]; [contradiction | contradiction |].
    destruct e as [|z e]; [contradiction|].
    destruct Hx as [<-|[]]. apply Nat.eqb_eq. exact He.
  - rewrite forallb_forall in Hpr. apply Nat.eqb_eq. apply Hpr. exact Hx.
Qed.

(** C1. Margin law.  Let the loop have come through a part [done] of the
    batch to a candidate with normalised centroid [c], the vectors stored
    in the loaded registry having the width of [c] and the table of
    prototypes built from it being non-empty.  Then there is a top record
    [p] with score [s1], the greatest over the records of the best
    similarity to one of their own prototypes, and a runner-up score [s2]
    (-1 when no other record has a prototype), and the turn ends in one of
    two ways.  When
    [s1 >= max(T, custom threshold of p)] and [s1 - s2 >= M] the candidate
    is assigned to [p]: [assigned[cid]] is the number of [p], the first
    record of that number is replaced by its update with [c], its count one
    higher, and nothing else changes.  In every other case, also when
    [s1 >= T], a new identity is minted: the record
    [{number: cur_max + 1, protos: [c], ema: c, count: 1, thr: None}] is
    appended, [new_nums[cid]] is its number, and nothing is assigned.  The
    custom threshold is the one the table of the loop holds for the number
    of [p], which is that of [p] itself when the numbers of the registry
    are distinct.  [T] is assumed not to lie below the -1e9 that the code
    substitutes for a missing custom threshold. *)
Theorem C1_margin_law (HO : NumericOrder A) (T M : A) (loaded : list (person A))
    (centroids_norm : dict (list A)) (existing_nums : list N)
    (done : list Z) (cid : Z) (c : list A) (st : loop_state A) :
  flt T (flit (-1000000000)) = false ->
  proto_list loaded <> [] ->
  dict_get cid centroids_norm = Some c ->
  one_width (length c) loaded = true ->
  try_loop T M centroids_norm (proto_list loaded) (proto_owner loaded) (per_thr loaded)
           done (mkState loaded [] [] (initial_max existing_nums)) = Some st ->
  exists p s1 s2 st',
    In p loaded
    /\ person_protos p <> []
    /\ top_record (proto_list loaded) (proto_owner loaded) c (number p) s1
    /\ runner_up (proto_list loaded) (proto_owner loaded) c (number p) s2
    /\ dict_get (number p) (per_thr loaded) = table_threshold loaded (number p)
    /\ (NoDup (map (@number A) loaded) ->
        table_threshold loaded (number p) = custom_threshold p)
    /\ try_loop T M centroids_norm (proto_list loaded) (proto_owner loaded)
                (per_thr loaded) (done ++ [cid])
                (mkState loaded [] [] (initial_max existing_nums)) = Some st'
    /\ if fle (effective_threshold T (table_threshold loaded (number p))) s1
          && fle M (fsub s1 s2)
       then
         assigned st' = dict_set cid (number p) (assigned st)
         /\ dict_get cid (assigned st') = Some (number p)
         /\ new_nums st' = new_nums st
         /\ cur_max st' = cur_max st
         /\ exists q,
              first_replaced (persons st) (persons st') (number p) q
                (_update_person_proto q c default_k_max default_ema_alpha)
              /\ count (_update_person_proto q c default_k_max default_ema_alpha)
                 = Some (count_or_0 q + 1)%Z
       else
         persons st'
         = persons st
           ++ [mkPerson (cur_max st + 1)%Z (Some [c]) None (Val c) (Some 1%Z) Null]
         /\ new_nums st' = dict_set cid (cur_max st + 1)%Z (new_nums st)
         /\ dict_get cid (new_nums st') = Some (cur_max st + 1)%Z
         /\ assigned st' = assigned st
         /\ cur_max st' = (cur_max st + 1)%Z.
Proof.
  intros HT HP Hc Hw Hdone.
  apply (one_width_conforms _ loaded c) in Hw; [|reflexivity].
  destruct (step_margin HO T M loaded centroids_norm st cid c HT HP Hc)
    as [p [s1 [s2 [H1 [H2 [H3 [H4 [H5 H6]]]]]]]].
  exists p, s1, s2,
    (step T M centroids_norm (proto_list loaded) (proto_owner loaded)
          (per_thr loaded) st cid).
  split; [exact H1|]. split; [exact H2|]. split; [exact H3|]. split; [exact H4|].
  split; [apply per_thr_table|].
  split; [intros Hnd; rewrite <- per_thr_table; exact (H5 Hnd)|].
  split.
  { rewrite try_loop_app, Hdone. simpl. unfold try_step. rewrite Hc, Hw. reflexivity. }
  rewrite H6, per_thr_table.
  destruct (fle (effective_threshold T (table_threshold loaded (number p))) s1
            && fle M (fsub s1 s2)).
  - unfold assign. cbn [persons assigned new_nums cur_max].
    split; [reflexivity|]. split; [apply dict_get_set_same|].
    split; [reflexivity|]. split; [reflexivity|].
    assert (Hin : In (number p) (map (@number A) (persons st))).
    { rewrite (try_loop_some T M centroids_norm _ _ _ done _ st Hdone).
      rewrite (proj2 (loop_numbers T M centroids_norm _ _ _ done _)).
      apply in_or_app. left. cbn [persons]. apply in_map. exact H1. }
    destruct (update_first_split (number p) c (persons st) Hin) as [q Hq].
    exists q. split; [exact Hq | reflexivity].
  - unfold mint, new_person. cbn [persons assigned new_nums cur_max].
    split; [reflexivity|]. split; [reflexivity|].
    split; [apply dict_get_set_same|]. split; reflexivity.
Qed.
End MarginLawTurn.

(* ------------------------------------------------------------------ *)
(** * One invocation of [match_and_apply] *)

Section Invocation.
Context {A : Type} `{Numeric A}.

Lemma try_loop_ok (T M : A) (cn : dict (list A)) (P : list (list A))
    (owners : list Z) (thrs : dict A) (el : list Z) : forall st : loop_state A,
  shapes_ok cn P el = true ->
  try_loop T M cn P owners thrs el st
  = Some (fold_left (step T M cn P owners thrs) el st).
Proof.
  induction el as [|cid r IH]; intros st Hok; simpl in *; [reflexivity|].
  apply andb_true_iff in Hok. destruct Hok as [H1 H2].
  unfold try_step. destruct (dict_get cid cn) as [c|] eqn:Ec.
  - rewrite H1. apply IH. exact H2.
  - rewrite (IH st H2). unfold step. rewrite Ec. reflexivity.
Qed.

Lemma try_loop_raises (T M : A) (cn : dict (list A)) (P : list (list A))
    (owners : list Z) (thrs : dict A) (el : list Z) : forall st : loop_state A,
  shapes_ok cn P el = false ->
  try_loop T M cn P owners thrs el st = None.
Proof.
  induction el as [|cid r IH]; intros st Hok; simpl in *; [discriminate|].
  unfold try_step. destruct (dict_get cid cn) as [c|] eqn:Ec.
  - destruct (conforms P c); [|reflexivity]. simpl in Hok. apply IH. exact Hok.
  - simpl in Hok. apply IH. exact Hok.
Qed.

Lemma match_and_apply_returns (T M : A) (g : group_dir A) (pl : plan A)
    (cn : dict (list A)) :
  normalize_centroids (cluster_centroids pl) [] = Some cn ->
  shapes_ok cn (proto_list (loaded_of g)) (eligible_clusters pl) = true ->
  match_and_apply T M g pl
  = Returns
      (mkOutcome (length (persons (final_state T M g pl cn)))
         (persons (final_state T M g pl cn))
         (assigned (final_state T M g pl cn))
         (new_nums (final_state T M g pl cn))
         (mkDir (save_person_index (persons (final_state T M g pl cn)))
            (fold_left ensure_dir
               (dict_values (dict_merge (assigned (final_state T M g pl cn))
                                        (new_nums (final_state T M g pl cn))))
               (numbered_dirs g)))).
Proof.
  intros Hn Hok. unfold match_and_apply, final_state, run_loop, loaded_of in *.
  destruct (load_person_index (person_index_json g)) as [loaded f].
  rewrite Hn. simpl in Hok. rewrite (try_loop_ok T M cn _ _ _ _ _ Hok). reflexivity.
Qed.

Lemma match_and_apply_raises (T M : A) (g : group_dir A) (pl : plan A) :
  normalize_centroids (cluster_centroids pl) [] = None ->
  match_and_apply T M g pl
  = Raises (mkDir (snd (load_person_index (person_index_json g))) (numbered_dirs g)).
Proof.
  intros Hn. unfold match_and_apply.
  destruct (load_person_index (person_index_json g)) as [loaded f].
  rewrite Hn. reflexivity.
Qed.

Lemma match_and_apply_raises_shape (T M : A) (g : group_dir A) (pl : plan A)
    (cn : dict (list A)) :
  normalize_centroids (cluster_centroids pl) [] = Some cn ->
  shapes_ok cn (proto_list (loaded_of g)) (eligible_clusters pl) = false ->
  match_and_apply T M g pl
  = Raises (mkDir (snd (load_person_index (person_index_json g))) (numbered_dirs g)).
Proof.
  intros Hn Hok. unfold match_and_apply, loaded_of in *.
  destruct (load_person_index (person_index_json g)) as [loaded f].
  rewrite Hn. simpl in Hok. rewrite (try_loop_raises T M cn _ _ _ _ _ Hok). reflexivity.
Qed.

Lemma match_and_apply_shapes (T M : A) (g : group_dir A) (pl : plan A) (o : outcome A) :
  match_and_apply T M g pl = Returns o ->
  exists cn,
    normalize_centroids (cluster_centroids pl) [] = Some cn
    /\ shapes_ok cn (proto_list (loaded_of g)) (eligible_clusters pl) = true.
Proof.
  intros Hr.
  destruct (normalize_centroids (cluster_centroids pl) []) as [cn|] eqn:E.
  - exists cn. split; [reflexivity|].
    destruct (shapes_ok cn (proto_list (loaded_of g)) (eligible_clusters pl)) eqn:Hok;
      [reflexivity|].
    rewrite (match_and_apply_raises_shape T M g pl cn E Hok) in Hr. discriminate.
  - rewrite (match_and_apply_raises T M g pl E) in Hr. discriminate.
Qed.

Lemma match_and_apply_inv (T M : A) (g : group_dir A) (pl : plan A) (o : outcome A) :
  match_and_apply T M g pl = Returns o ->
  exists cn, normalize_centroids (cluster_centroids pl) [] = Some cn.
Proof.
  intros Hr. destruct (match_and_apply_shapes T M g pl o Hr) as [cn [Hn _]].
  exists cn. exact Hn.
Qed.

(** What a returning invocation returns. *)
Lemma match_and_apply_returned (T M : A) (g : group_dir A) (pl : plan A)
    (cn : dict (list A)) (o : outcome A) :
  normalize_centroids (cluster_centroids pl) [] = Some cn ->
  match_and_apply T M g pl = Returns o ->
  Returns
    (mkOutcome (length (persons (final_state T M g pl cn)))
       (persons (final_state T M g pl cn))
       (assigned (final_state T M g pl cn))
       (new_nums (final_state T M g pl cn))
       (mkDir (save_person_index (persons (final_state T M g pl cn)))
          (fold_left ensure_dir
             (dict_values (dict_merge (assigned (final_state T M g pl cn))
                                      (new_nums (final_state T M g pl cn))))
             (numbered_dirs g))))
  = Returns o.
Proof.
  intros Hn Hr. destruct (match_and_apply_shapes T M g pl o Hr) as [cn' [Hn' Hok]].
  rewrite Hn in Hn'. injection Hn' as <-.
  rewrite <- (match_and_apply_returns T M g pl cn Hn Hok). exact Hr.
Qed.

Lemma normalize_centroids_raises (raw : dict (raw_centroid A)) :
  forall (acc : dict (list A)) (cid : Z),
  In (cid, Unconvertible) raw -> normalize_centroids raw acc = None.
Proof.
  induction raw as [|[k [v|]] raw IH]; intros acc cid Hin; simpl in *.
  - contradiction.
  - destruct Hin as [E|Hin]; [discriminate | exact (IH _ _ Hin)].
  - reflexivity.
Qed.

Lemma normalize_centroids_total (raw : dict (raw_centroid A)) :
  forall acc : dict (list A),
  (forall cid, ~ In (cid, Unconvertible) raw) ->
  exists cn, normalize_centroids raw acc = Some cn.
Proof.
  induction raw as [|[k [v|]] raw IH]; intros acc Hall; simpl in *.
  - exists acc. reflexivity.
  - apply IH. intros cid Hin. apply (Hall cid). right. exact Hin.
  - exfalso. apply (Hall k). left. reflexivity.
Qed.

Lemma normalize_centroids_keys (raw : dict (raw_centroid A)) :
  forall (acc cn : dict (list A)) (cid : Z),
  normalize_centroids raw acc = Some cn ->
  (In cid (dict_keys cn) <-> In cid (dict_keys raw) \/ In cid (dict_keys acc)).
Proof.
  induction raw as [|[k [v|]] raw IH]; intros acc cn cid Hn; simpl in *.
  - injection Hn as <-. tauto.
  - rewrite (IH _ _ cid Hn), dict_keys_set_In. unfold dict_keys.
    intuition congruence.
  - discriminate.
Qed.

Lemma normalize_centroids_missing (raw : dict (raw_centroid A))
    (cn : dict (list A)) (cid : Z) :
  normalize_centroids raw [] = Some cn ->
  (dict_get cid cn = None <-> dict_get cid raw = None).
Proof.
  intros Hn. rewrite !dict_get_None, (normalize_centroids_keys raw [] cn cid Hn).
  simpl. tauto.
Qed.

(** C8. Round trip.  The registry file that [match_and_apply] leaves is the
    saved list of its records, and [load_person_index] on that file gives
    back exactly these records: every key is present, so no migration
    default applies and the file is not rewritten. *)
Theorem C8_save_load_roundtrip (T M : A) (g : group_dir A) (pl : plan A)
    (o : outcome A) :
  match_and_apply T M g pl = Returns o ->
  person_index_json (out_dir o) = save_person_index (out_persons o)
  /\ forallb complete (out_persons o) = true
  /\ load_person_index (person_index_json (out_dir o))
     = (out_persons o, person_index_json (out_dir o)).
Proof.
  intros Hr. destruct (match_and_apply_inv T M g pl o Hr) as [cn Hn].
  apply (match_and_apply_returned T M g pl cn o Hn) in Hr.
  injection Hr as <-. simpl.
  assert (Hc : forallb complete (persons (final_state T M g pl cn)) = true).
  { unfold final_state, run_loop. apply loop_complete. simpl.
    apply load_complete. }
  split; [reflexivity|]. split; [exact Hc|].
  apply load_save_complete. exact Hc.
Qed.

Lemma shapes_ok_cold (cn : dict (list A)) (el : list Z) : shapes_ok cn [] el = true.
Proof.
  unfold shapes_ok. apply forallb_forall. intros cid _.
  destruct (dict_get cid cn); reflexivity.
Qed.

Lemma shapes_ok_skip (cn : dict (list A)) (P : list (list A)) (l1 l2 : list Z)
    (cid : Z) :
  dict_get cid cn = None ->
  shapes_ok cn P (l1 ++ cid :: l2) = shapes_ok cn P (l1 ++ l2).
Proof.
  intros Hc. unfold shapes_ok. rewrite !forallb_app. simpl. rewrite Hc. reflexivity.
Qed.

Lemma conforms_normalize (P : list (list A)) (v : list A) :
  conforms P (_normalize_np v) = conforms P v.
Proof.
  unfold conforms, _normalize_np. destruct P; [reflexivity|].
  rewrite length_map. reflexivity.
Qed.

Lemma normalize_centroids_get (raw : dict (raw_centroid A)) :
  forall (acc cn : dict (list A)) (cid : Z) (v : list A),
  NoDup (dict_keys raw) ->
  normalize_centroids raw acc = Some cn ->
  In (cid, Convertible v) raw ->
  dict_get cid cn = Some (_normalize_np v).
Proof.
  induction raw as [|[k [w|]] raw IH]; intros acc cn cid v Hnd Hn Hin; simpl in *.
  - contradiction.
  - inversion Hnd as [|? ? Hk Hnd']; subst.
    destruct Hin as [E|Hin].
    + injection E as -> ->.
      assert (Hkeep : forall (r : dict (raw_centroid A)) (a c : dict (list A)),
                ~ In cid (dict_keys r) -> normalize_centroids r a = Some c ->
                dict_get cid c = dict_get cid a).
      { clear. induction r as [|[k' [w'|]] r IHr]; intros a c Hk Hn; simpl in *.
        - injection Hn as <-. reflexivity.
        - rewrite (IHr _ _ ltac:(tauto) Hn).
          apply dict_get_set_other. intros E. apply Hk. left. symmetry. exact E.
        - discriminate. }
      rewrite (Hkeep raw _ cn Hk Hn). apply dict_get_set_same.
    + exact (IH _ _ cid v Hnd' Hn Hin).
  - discriminate.
Qed.

Lemma normalize_centroids_from (raw : dict (raw_centroid A)) :
  forall (acc cn : dict (list A)) (cid : Z) (c : list A),
  normalize_centroids raw acc = Some cn ->
  dict_get cid cn = Some c ->
  dict_get cid acc = Some c
  \/ exists v, In (cid, Convertible v) raw /\ c = _normalize_np v.
Proof.
  induction raw as [|[k [w|]] raw IH]; intros acc cn cid c Hn Hc; simpl in *.
  - injection Hn as <-. left. exact Hc.
  - destruct (IH _ _ cid c Hn Hc) as [Ha|[v [Hv Ev]]].
    + destruct (Z.eq_dec cid k) as [->|Hne].
      * rewrite dict_get_set_same in Ha. injection Ha as <-.
        right. exists w. split; [left; reflexivity | reflexivity].
      * rewrite dict_get_set_other in Ha by exact Hne. left. exact Ha.
    + right. exists v. split; [right; exact Hv | exact Ev].
  - discriminate.
Qed.

(** The shapes of a batch, read on the plan. *)
Lemma shapes_ok_plan (raw : dict (raw_centroid A)) (cn : dict (list A))
    (P : list (list A)) (el : list Z) :
  NoDup (dict_keys raw) ->
  normalize_centroids raw [] = Some cn ->
  (shapes_ok cn P el = true
   <-> forall cid v, In cid el -> In (cid, Convertible v) raw -> conforms P v = true).
Proof.
  intros Hnd Hn. unfold shapes_ok. rewrite forallb_forall. split.
  - intros Hok cid v Hin Hv. specialize (Hok cid Hin).
    rewrite (normalize_centroids_get raw [] cn cid v Hnd Hn Hv) in Hok.
    rewrite conforms_normalize in Hok. exact Hok.
  - intros Hall cid Hin. destruct (dict_get cid cn) as [c|] eqn:Ec; [|reflexivity].
    destruct (normalize_centroids_from raw [] cn cid c Hn Ec) as [Ha|[v [Hv ->]]];
      [discriminate|].
    rewrite conforms_normalize. exact (Hall cid v Hin Hv).
Qed.

(** C7, as the code has it.  An eligible cluster without an entry in
    [cluster_centroids] is skipped: the invocation gives the result it
    gives on the batch without that cluster, and the cluster is in neither
    map.  A malformed centroid is not skipped.  One that [np.array] cannot
    convert makes [_normalize_np] raise in the first loop, before any
    candidate is looked at; one that converts but has not the width of the
    prototype table makes [P @ c] raise in the turn of its cluster.  Either
    way the invocation ends with the exception, nothing of the batch is
    saved, and the folder is as [load_person_index] left it.  The
    invocation returns only when the plan holds no centroid of these two
    kinds; and on a registry whose stored vectors have one width it
    returns whenever every centroid converts and those of the eligible
    clusters have that width. *)
Theorem C7_missing_skipped (T M : A) (g : group_dir A) (pl : plan A) :
  (forall l1 l2 cid,
      eligible_clusters pl = l1 ++ cid :: l2 ->
      dict_get cid (cluster_centroids pl) = None ->
      match_and_apply T M g pl
      = match_and_apply T M g (mkPlan (cluster_centroids pl) (l1 ++ l2)))
  /\ (forall o cid,
        match_and_apply T M g pl = Returns o ->
        dict_get cid (cluster_centroids pl) = None ->
        dict_get cid (out_assigned o) = None /\ dict_get cid (out_new_nums o) = None)
  /\ (forall cid,
        In (cid, Unconvertible) (cluster_centroids pl) ->
        match_and_apply T M g pl
        = Raises (mkDir (snd (load_person_index (person_index_json g)))
                        (numbered_dirs g)))
  /\ (NoDup (dict_keys (cluster_centroids pl)) ->
      forall cid v,
        In cid (eligible_clusters pl) ->
        In (cid, Convertible v) (cluster_centroids pl) ->
        conforms (proto_list (loaded_of g)) v = false ->
        match_and_apply T M g pl
        = Raises (mkDir (snd (load_person_index (person_index_json g)))
                        (numbered_dirs g)))
  /\ (NoDup (dict_keys (cluster_centroids pl)) ->
      ((exists o, match_and_apply T M g pl = Returns o) ->
       (forall cid, ~ In (cid, Unconvertible) (cluster_centroids pl))
       /\ (forall cid v,
             In cid (eligible_clusters pl) ->
             In (cid, Convertible v) (cluster_centroids pl) ->
             conforms (proto_list (loaded_of g)) v = true))
      /\ (forall d,
            one_width d (loaded_of g) = true ->
            (forall cid, ~ In (cid, Unconvertible) (cluster_centroids pl)) ->
            (forall cid v,
                In cid (eligible_clusters pl) ->
                In (cid, Convertible v) (cluster_centroids pl) ->
                length v = d) ->
            exists o, match_and_apply T M g pl = Returns o)).
Proof.
  split; [|split; [|split; [|split]]].
  - intros l1 l2 cid Hel Hc.
    destruct (normalize_centroids (cluster_centroids pl) []) as [cn|] eqn:Hn.
    + assert (Hcn : dict_get cid cn = None)
        by (apply (normalize_centroids_missing _ cn cid Hn); exact Hc).
      destruct (shapes_ok cn (proto_list (loaded_of g)) (l1 ++ l2)) eqn:Hok.
      * rewrite (match_and_apply_returns T M g pl cn Hn)
          by (rewrite Hel, shapes_ok_skip; assumption).
        rewrite (match_and_apply_returns T M g
                   (mkPlan (cluster_centroids pl) (l1 ++ l2)) cn Hn Hok).
        unfold final_state, run_loop. simpl. rewrite Hel.
        rewrite loop_skip; [reflexivity | exact Hcn].
      * rewrite (match_and_apply_raises_shape T M g pl cn Hn)
          by (rewrite Hel, shapes_ok_skip; assumption).
        rewrite (match_and_apply_raises_shape T M g
                   (mkPlan (cluster_centroids pl) (l1 ++ l2)) cn Hn Hok).
        reflexivity.
    + rewrite !match_and_apply_raises by exact Hn. reflexivity.
  - intros o cid Hr Hc.
    destruct (match_and_apply_inv T M g pl o Hr) as [cn Hn].
    apply (match_and_apply_returned T M g pl cn o Hn) in Hr.
    injection Hr as <-. simpl.
    apply (normalize_centroids_missing _ cn cid Hn) in Hc.
    apply verdict_skipped
      with (T := T) (M := M) (P := proto_list (loaded_of g))
           (owners := proto_owner (loaded_of g)) (thrs := per_thr (loaded_of g)) in Hc.
    rewrite !dict_get_None. unfold final_state, run_loop.
    rewrite loop_assigned_keys, loop_new_keys, Hc. simpl.
    split; intros [[]|[_ E]]; discriminate.
  - intros cid Hin. apply match_and_apply_raises.
    exact (normalize_centroids_raises _ [] cid Hin).
  - intros Hnd cid v Hin Hv Hbad.
    destruct (normalize_centroids (cluster_centroids pl) []) as [cn|] eqn:Hn;
      [|apply match_and_apply_raises; exact Hn].
    apply (match_and_apply_raises_shape T M g pl cn Hn).
    destruct (shapes_ok cn (proto_list (loaded_of g)) (eligible_clusters pl)) eqn:Hok;
      [|reflexivity].
    rewrite (proj1 (shapes_ok_plan _ cn _ _ Hnd Hn) Hok cid v Hin Hv) in Hbad.
    discriminate.
  - intros Hnd. split.
    + intros [o Hr]. destruct (match_and_apply_shapes T M g pl o Hr) as [cn [Hn Hok]].
      split.
      * intros cid Hin.
        rewrite (normalize_centroids_raises _ [] cid Hin) in Hn. discriminate.
      * exact (proj1 (shapes_ok_plan _ cn _ _ Hnd Hn) Hok).
    + intros d Hw Hall Hshape.
      destruct (normalize_centroids_total (cluster_centroids pl) [] Hall) as [cn Hn].
      eexists. apply (match_and_apply_returns T M g pl cn Hn).
      apply (shapes_ok_plan _ cn _ _ Hnd Hn). intros cid v Hin Hv.
      apply (one_width_conforms d); [exact Hw | exact (Hshape cid v Hin Hv)].
Qed.

(** C2, as the code has it.  When the loaded registry holds no prototype
    (in particular when there is no registry file), every eligible cluster
    that has a centroid is minted, the i-th of them as person
    [running_max + i] with that centroid as its only prototype; the
    prototype table is built once before the loop, so no candidate of the
    batch is matched, also not to an identity minted earlier in it. *)
Theorem C2_cold_start (T M : A) (g : group_dir A) (pl : plan A)
    (cn : dict (list A)) :
  proto_list (loaded_of g) = [] ->
  normalize_centroids (cluster_centroids pl) [] = Some cn ->
  exists o,
    match_and_apply T M g pl = Returns o
    /\ out_assigned o = []
    /\ out_persons o
       = loaded_of g
         ++ mint_all (initial_max (numbered_dirs g))
                     (present_centroids cn (eligible_clusters pl))
    /\ (forall cid rest c,
          eligible_clusters pl = cid :: rest ->
          dict_get cid cn = Some c ->
          exists more,
            out_persons o
            = loaded_of g
              ++ new_person (initial_max (numbered_dirs g) + 1) c :: more)
    /\ forall cid, In cid (eligible_clusters pl) ->
                   dict_get cid cn <> None ->
                   dict_get cid (out_new_nums o) <> None.
Proof.
  intros HP Hn. eexists.
  split; [apply (match_and_apply_returns T M g pl cn Hn); rewrite HP;
          apply shapes_ok_cold|].
  simpl. unfold final_state, run_loop.
  destruct (loop_cold T M cn (proto_list (loaded_of g)) (proto_owner (loaded_of g))
              (per_thr (loaded_of g)) (eligible_clusters pl)
              (mkState (loaded_of g) [] [] (initial_max (numbered_dirs g))) HP)
    as [E1 E2].
  split; [exact E2|]. split; [exact E1|]. split.
  { intros cid rest c Hel Hc. rewrite E1, Hel. simpl. rewrite Hc. simpl.
    eexists. reflexivity. }
  intros cid Hin Hc. apply dict_get_In. rewrite loop_new_keys. right.
  split; [exact Hin|].
  unfold verdict_of. rewrite HP.
  destruct (dict_get cid cn); [reflexivity | congruence].
Qed.
End Invocation.

(* ------------------------------------------------------------------ *)
(** * Numbering *)

Section Numbering.
Context {A : Type} `{Numeric A}.

Lemma upto_In (n : Z) (k : nat) (x : Z) :
  In x (upto n k) <-> (n < x <= n + Z.of_nat k)%Z.
Proof.
  unfold upto. rewrite in_map_iff. split.
  - intros [i [<- Hi]]. apply in_seq in Hi. lia.
  - intros Hx. exists (Z.to_nat (x - n)). split; [lia|]. apply in_seq. lia.
Qed.

Lemma upto_sorted (n : Z) (k : nat) : StronglySorted Z.lt (upto n k).
Proof.
  unfold upto. generalize 1%nat as a.
  induction k as [|k IH]; intros a; simpl; constructor; [apply IH|].
  rewrite Forall_forall. intros x Hx. apply in_map_iff in Hx.
  destruct Hx as [i [<- Hi]]. apply in_seq in Hi. lia.
Qed.

Lemma sorted_lt_NoDup (l : list Z) : StronglySorted Z.lt l -> NoDup l.
Proof.
  induction 1 as [|x l Hs IH Hx]; constructor; [|exact IH].
  intros Hin. rewrite Forall_forall in Hx. specialize (Hx x Hin). lia.
Qed.

Lemma sorted_lt_app (l1 l2 : list Z) :
  StronglySorted Z.lt l1 -> StronglySorted Z.lt l2 ->
  (forall x y, In x l1 -> In y l2 -> (x < y)%Z) ->
  StronglySorted Z.lt (l1 ++ l2).
Proof.
  induction 1 as [|x l Hs IH Hx]; intros H2 Hlt; simpl; [exact H2|].
  constructor.
  - apply IH; [exact H2|]. intros a b Ha Hb. apply Hlt; [right|]; assumption.
  - rewrite Forall_forall in *. intros y Hy. apply in_app_iff in Hy.
    destruct Hy as [Hy|Hy]; [exact (Hx y Hy) | apply Hlt; [left; reflexivity | exact Hy]].
Qed.

Lemma fold_max_ge (r : list N) : forall d : N,
  (d <= fold_left N.max r d)%N
  /\ forall x, In x r -> (x <= fold_left N.max r d)%N.
Proof.
  induction r as [|y r IH]; intros d; simpl.
  - split; [lia | contradiction].
  - destruct (IH (N.max d y)) as [IH1 IH2]. split; [lia|].
    intros x [->|Hx]; [lia | exact (IH2 x Hx)].
Qed.

Lemma initial_max_ge (dirs : list N) (x : N) :
  In x dirs -> (Z.of_N x <= initial_max dirs)%Z.
Proof.
  destruct dirs as [|d r]; simpl; [contradiction|].
  destruct (fold_max_ge r d) as [H1 H2].
  intros [->|Hx]; [lia | specialize (H2 x Hx); lia].
Qed.

Lemma initial_max_In (dirs : list N) :
  dirs <> [] -> exists x, In x dirs /\ initial_max dirs = Z.of_N x.
Proof.
  destruct dirs as [|d r]; [congruence|]. intros _. simpl.
  revert d. induction r as [|y r IH]; intros d; simpl.
  - exists d. auto.
  - destruct (IH (N.max d y)) as [x [[E|Hx] Ex]].
    + destruct (N.max_spec d y) as [[_ Em]|[_ Em]]; rewrite Em in E; subst x;
        eexists; (split; [|exact Ex]); auto.
    + exists x. auto.
Qed.

Lemma initial_max_nonneg (dirs : list N) : (0 <= initial_max dirs)%Z.
Proof. destruct dirs; simpl; lia. Qed.

Lemma initial_max_mono (d1 d2 : list N) :
  incl d1 d2 -> (initial_max d1 <= initial_max d2)%Z.
Proof.
  intros Hi. destruct d1 as [|x r] eqn:E.
  - apply initial_max_nonneg.
  - rewrite <- E in *.
    destruct (initial_max_In d1) as [m [Hm ->]]; [subst; discriminate|].
    apply initial_max_ge. apply Hi. exact Hm.
Qed.

Lemma ensure_dir_incl (vals : list Z) : forall dirs : list N,
  incl dirs (fold_left ensure_dir vals dirs).
Proof.
  induction vals as [|v vals IH]; intros dirs; simpl; [apply incl_refl|].
  eapply incl_tran; [|apply IH].
  unfold ensure_dir.
  destruct ((v <? 0)%Z || existsb (N.eqb (Z.to_N v)) dirs);
    [apply incl_refl | apply incl_appl, incl_refl].
Qed.

Lemma ensure_dir_In (vals : list Z) : forall (dirs : list N) (v : Z),
  In v vals -> (0 <= v)%Z -> In (Z.to_N v) (fold_left ensure_dir vals dirs).
Proof.
  induction vals as [|w vals IH]; intros dirs v Hin Hv; simpl in *; [contradiction|].
  destruct Hin as [->|Hin]; [|exact (IH _ _ Hin Hv)].
  apply ensure_dir_incl. unfold ensure_dir.
  destruct (v <? 0)%Z eqn:E; [lia|]. simpl.
  destruct (existsb (N.eqb (Z.to_N v)) dirs) eqn:E'.
  - apply existsb_exists in E'. destruct E' as [x [Hx E']].
    apply N.eqb_eq in E'. subst x. exact Hx.
  - apply in_app_iff. right. left. reflexivity.
Qed.

Lemma merge_keep (V : Type) (b : dict V) : forall (a : dict V) (k : Z),
  ~ In k (dict_keys b) -> dict_get k (dict_merge a b) = dict_get k a.
Proof.
  unfold dict_merge.
  induction b as [|[k' v'] b IH]; intros a k Hn; simpl in *; [reflexivity|].
  rewrite IH by tauto. apply dict_get_set_other. intros E. apply Hn. left. congruence.
Qed.

Lemma merge_get (V : Type) (b : dict V) : forall (a : dict V) (k : Z) (v : V),
  NoDup (dict_keys b) -> dict_get k b = Some v ->
  dict_get k (dict_merge a b) = Some v.
Proof.
  induction b as [|[k' v'] b IH]; intros a k v Hnd Hk; simpl in *; [discriminate|].
  inversion Hnd as [|? ? Hn Hb]; subst.
  destruct (Z.eqb k k') eqn:E.
  - apply Z.eqb_eq in E. subst k'. injection Hk as ->.
    change (dict_get k (dict_merge (dict_set k v a) b) = Some v).
    rewrite merge_keep by exact Hn. apply dict_get_set_same.
  - change (dict_get k (dict_merge (dict_set k' v' a) b) = Some v).
    apply IH; assumption.
Qed.

Lemma dict_get_value (V : Type) (d : dict V) (k : Z) (v : V) :
  dict_get k d = Some v -> In v (dict_values d).
Proof.
  induction d as [|[k' v'] d IH]; simpl; [discriminate|].
  destruct (Z.eqb k k'); [intros E; injection E as ->; left; reflexivity|].
  intros Hk. right. exact (IH Hk).
Qed.
End Numbering.

Section MonotonicNumbering.
Context {A : Type} `{Numeric A}.

Lemma appended_numbers (T M : A) (g : group_dir A) (pl : plan A) (cn : dict (list A)) :
  map (@number A) (skipn (length (loaded_of g)) (persons (final_state T M g pl cn)))
  = upto (initial_max (numbered_dirs g)) (minted_count T M g pl cn).
Proof.
  rewrite <- skipn_map. unfold final_state, run_loop.
  rewrite (proj2 (loop_numbers T M cn _ _ _ (eligible_clusters pl) _)). simpl.
  rewrite skipn_app, length_map, Nat.sub_diag.
  rewrite <- (length_map (@number A)), skipn_all. reflexivity.
Qed.

Lemma final_cur_max (T M : A) (g : group_dir A) (pl : plan A) (cn : dict (list A)) :
  cur_max (final_state T M g pl cn)
  = (initial_max (numbered_dirs g) + Z.of_nat (minted_count T M g pl cn))%Z.
Proof.
  unfold final_state, run_loop.
  rewrite (proj1 (loop_numbers T M cn _ _ _ (eligible_clusters pl) _)). reflexivity.
Qed.

(** What an invocation mints, and the folders it leaves. *)
Lemma invocation_minted (T M : A) (g : group_dir A) (pl : plan A) :
  exists k,
    newly_minted g (match_and_apply T M g pl) = upto (initial_max (numbered_dirs g)) k
    /\ (initial_max (numbered_dirs g) + Z.of_nat k
        <= initial_max (numbered_dirs (dir_after g (match_and_apply T M g pl))))%Z.
Proof.
  destruct (normalize_centroids (cluster_centroids pl) []) as [cn|] eqn:Hn;
    [destruct (shapes_ok cn (proto_list (loaded_of g)) (eligible_clusters pl)) eqn:Hok|].
  - rewrite (match_and_apply_returns T M g pl cn Hn Hok).
    exists (minted_count T M g pl cn). simpl.
    split; [apply appended_numbers|].
    set (st := final_state T M g pl cn).
    set (vals := dict_values (dict_merge (assigned st) (new_nums st))).
    destruct (minted_count T M g pl cn) as [|k] eqn:Ek.
    + rewrite Z.add_0_r. apply initial_max_mono, ensure_dir_incl.
    + pose proof (final_cur_max T M g pl cn) as Ec. rewrite Ek in Ec. fold st in Ec.
      pose proof (initial_max_nonneg (numbered_dirs g)) as H0.
      assert (Hkey : exists key, dict_get key (new_nums st) = Some (cur_max st)).
      { apply (loop_last_minted T M cn (proto_list (loaded_of g))
                 (proto_owner (loaded_of g)) (per_thr (loaded_of g))
                 (eligible_clusters pl)
                 (mkState (loaded_of g) [] [] (initial_max (numbered_dirs g)))).
        change (cur_max st <> initial_max (numbered_dirs g)). lia. }
      destruct Hkey as [key Hkey].
      assert (Hnd : NoDup (dict_keys (new_nums st))).
      { apply (loop_new_NoDup T M cn (proto_list (loaded_of g))
                 (proto_owner (loaded_of g)) (per_thr (loaded_of g))
                 (eligible_clusters pl)
                 (mkState (loaded_of g) [] [] (initial_max (numbered_dirs g)))).
        constructor. }
      pose proof (merge_get Z (new_nums st) (assigned st) key (cur_max st) Hnd Hkey) as Hm.
      apply dict_get_value in Hm. fold vals in Hm.
      apply (ensure_dir_In vals (numbered_dirs g)) in Hm; [|lia].
      apply initial_max_ge in Hm. rewrite <- Ec. lia.
  - rewrite (match_and_apply_raises_shape T M g pl cn Hn Hok). exists 0%nat. simpl.
    split; [reflexivity | lia].
  - rewrite (match_and_apply_raises T M g pl Hn). exists 0%nat. simpl.
    split; [reflexivity | lia].
Qed.

Lemma minted_by_sorted (T M : A) (plans : list (plan A)) : forall g : group_dir A,
  StronglySorted Z.lt (concat (minted_by T M g plans))
  /\ forall x, In x (concat (minted_by T M g plans)) ->
               (initial_max (numbered_dirs g) < x)%Z.
Proof.
  induction plans as [|pl plans IH]; intros g; simpl.
  - split; [constructor | contradiction].
  - destruct (invocation_minted T M g pl) as [k [Ek Hk]].
    destruct (IH (dir_after g (match_and_apply T M g pl))) as [IH1 IH2].
    rewrite Ek. split.
    + apply sorted_lt_app; [apply upto_sorted | exact IH1 |].
      intros x y Hx Hy. apply upto_In in Hx. specialize (IH2 y Hy). lia.
    + intros x Hx. apply in_app_iff in Hx. destruct Hx as [Hx|Hx].
      * apply upto_In in Hx. lia.
      * specialize (IH2 x Hx). lia.
Qed.

(** C4. Monotonic numbering.  Over any sequence of invocations on one
    directory, each starting from the directory the previous one left,
    the numbers of the newly minted records, taken in order, are strictly
    increasing and therefore never repeat; within one invocation they are
    [m + 1, m + 2, ...] for [m] the greatest number among the digit-named
    folders found at its start (0 when there is none).  Scenario A: on an
    empty registry in a directory without numbered folders, one candidate
    with centroid [v] gives one new record with number 1, prototypes
    [[normalize v]] and count 1. *)
Theorem C4_monotonic_numbering (T M : A) (g : group_dir A) (plans : list (plan A)) :
  StronglySorted Z.lt (concat (minted_by T M g plans))
  /\ NoDup (concat (minted_by T M g plans))
  /\ (forall pl, exists k,
        newly_minted g (match_and_apply T M g pl)
        = upto (initial_max (numbered_dirs g)) k)
  /\ (forall cid v,
        loaded_of g = [] -> numbered_dirs g = [] ->
        exists o,
          match_and_apply T M g (mkPlan [(cid, Convertible v)] [cid]) = Returns o
          /\ out_persons o
             = [mkPerson 1 (Some [_normalize_np v]) None (Val (_normalize_np v))
                         (Some 1%Z) Null]
          /\ out_new_nums o = [(cid, 1%Z)]
          /\ out_assigned o = []
          /\ persons_count o = 1%nat).
Proof.
  pose proof (proj1 (minted_by_sorted T M plans g)) as Hs.
  split; [exact Hs|]. split; [exact (sorted_lt_NoDup _ Hs)|]. split.
  - intros pl. destruct (invocation_minted T M g pl) as [k [Ek _]].
    exists k. exact Ek.
  - intros cid v Hl Hd. eexists. split.
    + apply (match_and_apply_returns T M g _ [(cid, _normalize_np v)]);
        [reflexivity | rewrite Hl; apply shapes_ok_cold].
    + unfold final_state, run_loop. rewrite Hl, Hd. simpl.
      unfold step. simpl. rewrite Z.eqb_refl. simpl.
      repeat split; reflexivity.
Qed.
End MonotonicNumbering.

Section OneOutcome.
Context {A : Type} `{Numeric A}.

Lemma filter_number_count (n : Z) (l : list (person A)) :
  length (filter (fun p => Z.eqb (number p) n) l)
  = count_occ Z.eq_dec (map (@number A) l) n.
Proof.
  induction l as [|p l IH]; simpl; [reflexivity|].
  destruct (Z.eq_dec (number p) n) as [E|E].
  - rewrite (proj2 (Z.eqb_eq _ _) E). simpl. rewrite IH. reflexivity.
  - rewrite (proj2 (Z.eqb_neq _ _) E). exact IH.
Qed.

Lemma upto_length (n : Z) (k : nat) : length (upto n k) = k.
Proof. unfold upto. rewrite length_map, length_seq. reflexivity. Qed.

End OneOutcome.

(* ------------------------------------------------------------------ *)
(** * The bounded prototype list *)

Section Trimming.
Context {A : Type} `{Numeric A}.

Lemma mem_nat_In (i : nat) (l : list nat) : mem_nat i l = true <-> In i l.
Proof.
  unfold mem_nat. rewrite existsb_exists. split.
  - intros [x [Hx E]]. apply Nat.eqb_eq in E. subst. exact Hx.
  - intros Hi. exists i. split; [exact Hi | apply Nat.eqb_refl].
Qed.

Lemma argmax_from_range (T : Type) (lt : T -> T -> bool) (l : list T) :
  forall (i best : nat) (bv : T),
  (best < i)%nat -> (argmax_from lt l i best bv < i + length l)%nat.
Proof.
  induction l as [|x r IH]; intros i best bv Hb; simpl; [lia|].
  destruct (lt bv x).
  - specialize (IH (S i) i x). lia.
  - specialize (IH (S i) best bv). lia.
Qed.

Lemma argmax_range (T : Type) (lt : T -> T -> bool) (l : list T) :
  l <> [] -> (argmax lt l < length l)%nat.
Proof.
  destruct l as [|x r]; [congruence|]. intros _. simpl.
  pose proof (argmax_from_range T lt r 1 0 x). lia.
Qed.

Lemma list_set_length (T : Type) (v : T) (l : list T) : forall i,
  length (list_set i v l) = length l.
Proof.
  induction l as [|x r IH]; intros [|i]; simpl; auto.
Qed.

Lemma list_set_nth (T : Type) (v d : T) (l : list T) : forall i j,
  nth j (list_set i v l) d
  = if Nat.eqb i j && (i <? length l)%nat then v else nth j l d.
Proof.
  induction l as [|x r IH]; intros i j.
  - destruct i, j; simpl; rewrite ?andb_false_r; reflexivity.
  - destruct i as [|i], j as [|j]; simpl; try reflexivity.
    rewrite IH. reflexivity.
Qed.

Lemma mask_length (keep : list nat) : forall d : list (ext A),
  length (fold_left (fun d idx => list_set idx NegInf d) keep d) = length d.
Proof.
  induction keep as [|i keep IH]; intros d; simpl; [reflexivity|].
  rewrite IH. apply list_set_length.
Qed.

Lemma mask_nth (keep : list nat) : forall (d : list (ext A)) (j : nat),
  (nth j d NegInf = NegInf \/ (In j keep /\ (j < length d)%nat)) ->
  nth j (fold_left (fun d idx => list_set idx NegInf d) keep d) NegInf = NegInf.
Proof.
  induction keep as [|i keep IH]; intros d j Hj; simpl in *.
  - destruct Hj as [Hj|[[] _]]. exact Hj.
  - apply IH. rewrite list_set_nth, list_set_length.
    destruct (Nat.eqb i j && (i <? length d)%nat) eqn:E; [left; reflexivity|].
    destruct Hj as [Hj|[[->|Hj] Hl]]; [left; exact Hj | | right; split; assumption].
    rewrite Nat.eqb_refl in E. simpl in E. apply Nat.ltb_ge in E. lia.
Qed.

Lemma dists_length (X : list (list A)) (keep : list nat) :
  length (dists X keep) = length X.
Proof. unfold dists. rewrite mask_length, !length_map. reflexivity. Qed.

(** A kept row is masked, so [np.argmax] does not return it unless every
    row is masked. *)
Lemma dists_masked (X : list (list A)) (keep : list nat) (j : nat) :
  In j keep -> (j < length X)%nat -> nth j (dists X keep) NegInf = NegInf.
Proof.
  intros Hj Hl. unfold dists. apply mask_nth. right.
  rewrite !length_map. split; assumption.
Qed.

Lemma select_good (fuel k : nat) (X : list (list A)) : forall keep,
  good_keep X keep -> good_keep X (select fuel k X keep).
Proof.
  induction fuel as [|fuel IH]; intros keep Hg; simpl; [exact Hg|].
  destruct ((length keep <? k)%nat && (length keep <? length X)%nat) eqn:E;
    [|exact Hg].
  destruct (is_neginf (nth (argmax ext_lt (dists X keep)) (dists X keep) NegInf)) eqn:En;
    [exact Hg|].
  apply IH. destruct Hg as [Hnd Hr].
  apply andb_true_iff in E. destruct E as [_ E]. apply Nat.ltb_lt in E.
  assert (Hc : (argmax ext_lt (dists X keep) < length X)%nat).
  { rewrite <- (dists_length X keep). apply argmax_range.
    intros E0. apply (f_equal (@length _)) in E0.
    rewrite dists_length in E0. simpl in E0. lia. }
  split.
  - apply NoDup_app; [exact Hnd | repeat constructor; simpl; tauto |].
    intros a Ha Hin. destruct Hin as [Hin|[]]. subst a.
    rewrite (dists_masked X keep _ Ha Hc) in En. discriminate.
  - apply Forall_app. split; [exact Hr | repeat constructor; exact Hc].
Qed.

Lemma select_length_le (fuel k : nat) (X : list (list A)) : forall keep,
  (length keep <= Nat.min k (length X))%nat ->
  (length (select fuel k X keep) <= Nat.min k (length X))%nat.
Proof.
  induction fuel as [|fuel IH]; intros keep Hk; simpl; [exact Hk|].
  destruct ((length keep <? k)%nat && (length keep <? length X)%nat) eqn:E;
    [|exact Hk].
  destruct (is_neginf _); [exact Hk|].
  apply IH. rewrite length_app. simpl.
  apply andb_true_iff in E. destruct E as [E1 E2].
  apply Nat.ltb_lt in E1, E2. lia.
Qed.

(** Enough fuel: with [k_max] turns the loop has left through its own
    test or its [break]. *)
Lemma select_enough_fuel (fuel k : nat) (X : list (list A)) : forall keep,
  (k <= fuel + length keep)%nat ->
  select (S fuel) k X keep = select fuel k X keep.
Proof.
  induction fuel as [|fuel IH]; intros keep Hf.
  - simpl. destruct (length keep <? k)%nat eqn:E; [|reflexivity].
    apply Nat.ltb_lt in E. simpl in Hf. lia.
  - change (select (S (S fuel)) k X keep)
      with (if (length keep <? k)%nat && (length keep <? length X)%nat
            then if is_neginf (nth (argmax ext_lt (dists X keep)) (dists X keep) NegInf)
                 then keep
                 else select (S fuel) k X (keep ++ [argmax ext_lt (dists X keep)])
            else keep).
    change (select (S fuel) k X keep)
      with (if (length keep <? k)%nat && (length keep <? length X)%nat
            then if is_neginf (nth (argmax ext_lt (dists X keep)) (dists X keep) NegInf)
                 then keep
                 else select fuel k X (keep ++ [argmax ext_lt (dists X keep)])
            else keep).
    destruct ((length keep <? k)%nat && (length keep <? length X)%nat); [|reflexivity].
    destruct (is_neginf _); [reflexivity|].
    apply IH. rewrite length_app. simpl. lia.
Qed.

Lemma select_more_fuel (fuel k : nat) (X : list (list A)) (keep : list nat) :
  (k <= fuel + length keep)%nat ->
  forall extra, select (extra + fuel) k X keep = select fuel k X keep.
Proof.
  intros Hf extra. induction extra as [|extra IH]; [reflexivity|].
  simpl Nat.add. rewrite select_enough_fuel by lia. exact IH.
Qed.

Lemma fresh_count (idxs keep : list nat) :
  NoDup idxs ->
  (length idxs
   <= length (filter (fun i => negb (mem_nat i keep)) idxs) + length keep)%nat.
Proof.
  intros Hnd.
  rewrite <- (filter_length (fun i => negb (mem_nat i keep)) idxs) at 1.
  apply Nat.add_le_mono_l.
  apply NoDup_incl_length; [apply NoDup_filter; exact Hnd|].
  intros i Hi. apply filter_In in Hi. destruct Hi as [_ Hi].
  rewrite negb_involutive in Hi. apply mem_nat_In. exact Hi.
Qed.

(** The fallback tops [keep] up to exactly [lim] entries whenever the
    indices offer enough fresh ones. *)
Lemma fill_length (lim : nat) (idxs : list nat) : forall keep,
  NoDup idxs ->
  (length keep < lim)%nat ->
  (lim <= length keep + length (filter (fun i => negb (mem_nat i keep)) idxs))%nat ->
  length (fill idxs lim keep) = lim.
Proof.
  induction idxs as [|i r IH]; intros keep Hnd Hlt Hfresh; simpl in *; [lia|].
  inversion Hnd as [|? ? Hi Hr]; subst.
  destruct (mem_nat i keep) eqn:Em; simpl in *.
  - destruct (lim <=? length keep)%nat eqn:El; [apply Nat.leb_le in El; lia|].
    apply IH; assumption.
  - rewrite length_app. simpl.
    destruct (lim <=? length keep + 1)%nat eqn:El.
    + apply Nat.leb_le in El. rewrite length_app. simpl. lia.
    + apply Nat.leb_gt in El. apply IH; [exact Hr | rewrite length_app; simpl; lia |].
      rewrite length_app. simpl.
      assert (E : filter (fun j => negb (mem_nat j (keep ++ [i]))) r
                  = filter (fun j => negb (mem_nat j keep)) r).
      { apply filter_ext_in. intros j Hj. f_equal.
        unfold mem_nat. rewrite existsb_app. simpl.
        destruct (Nat.eqb j i) eqn:Ej; [|rewrite !orb_false_r; reflexivity].
        apply Nat.eqb_eq in Ej. subst j. contradiction. }
      rewrite E. lia.
Qed.

Lemma fill_good (X : list (list A)) (lim : nat) (idxs : list nat) : forall keep,
  Forall (fun i => (i < length X)%nat) idxs ->
  good_keep X keep -> good_keep X (fill idxs lim keep).
Proof.
  induction idxs as [|i r IH]; intros keep Hi Hg; simpl; [exact Hg|].
  inversion Hi as [|? ? Hi1 Hi2]; subst.
  assert (Hg' : good_keep X (if mem_nat i keep then keep else keep ++ [i])).
  { destruct (mem_nat i keep) eqn:Em; [exact Hg|].
    destruct Hg as [Hnd Hr]. split.
    - apply NoDup_app; [exact Hnd | repeat constructor; simpl; tauto |].
      intros a Ha Hin. destruct Hin as [Hin|[]]. subst a.
      apply mem_nat_In in Ha. congruence.
    - apply Forall_app. split; [exact Hr | repeat constructor; exact Hi1]. }
  destruct (lim <=? _)%nat; [exact Hg' | apply IH; assumption].
Qed.
End Trimming.

Section BoundedPrototypes.
Context {A : Type} `{Numeric A}.

Lemma kept_spec (k : nat) (X : list (list A)) :
  (1 <= k)%nat -> X <> [] ->
  length (kept k X) = Nat.min k (length X) /\ good_keep X (kept k X).
Proof.
  intros Hk HX.
  assert (Hn : (1 <= length X)%nat).
  { destruct X; [congruence | simpl; lia]. }
  unfold kept.
  set (d0 := map norm (map (fun x => vsub x (mean0 X)) X)).
  assert (H0 : (argmax flt d0 < length X)%nat).
  { assert (Ed : length d0 = length X) by (unfold d0; rewrite !length_map; reflexivity).
    rewrite <- Ed. apply argmax_range. intros E. rewrite E in Ed. simpl in Ed. lia. }
  assert (Hg0 : good_keep X [argmax flt d0]).
  { split; [repeat constructor; simpl; tauto | repeat constructor; exact H0]. }
  pose proof (select_good k k X _ Hg0) as Hg1.
  pose proof (select_length_le k k X [argmax flt d0]) as Hl1.
  simpl in Hl1. specialize (Hl1 ltac:(lia)).
  set (keep := select k k X [argmax flt d0]) in *.
  destruct (length keep <? Nat.min k (length X))%nat eqn:E.
  - apply Nat.ltb_lt in E. split.
    + apply fill_length; [apply seq_NoDup | exact E |].
      pose proof (fresh_count (seq 0 (length X)) keep (seq_NoDup _ _)) as Hf.
      rewrite length_seq in Hf. lia.
    + apply fill_good; [|exact Hg1].
      rewrite Forall_forall. intros i Hi. apply in_seq in Hi. lia.
  - apply Nat.ltb_ge in E. split; [lia | exact Hg1].
Qed.

Lemma trim_length (k : nat) (protos : list (list A)) :
  (1 <= k)%nat -> length (trim k protos) = Nat.min k (length protos).
Proof.
  intros Hk. unfold trim.
  destruct (k <? length protos)%nat eqn:E.
  - apply Nat.ltb_lt in E. rewrite length_map.
    rewrite (proj1 (kept_spec k (map _normalize_np protos) Hk ltac:(
               destruct protos; [simpl in E; lia | discriminate]))).
    rewrite length_map. reflexivity.
  - apply Nat.ltb_ge in E. lia.
Qed.

Lemma update_protos (p : person A) (v : list A) (k : nat) (a : A) :
  get_protos (_update_person_proto p v k a)
  = trim k (get_protos p ++ [_normalize_np v]).
Proof. reflexivity. Qed.

Lemma updates_bounded (k : nat) (a : A) (vs : list (list A)) : forall p : person A,
  (1 <= k)%nat ->
  (length (get_protos p) <= k)%nat ->
  (length (get_protos (fold_left (fun p v => _update_person_proto p v k a) vs p))
   <= k)%nat.
Proof.
  induction vs as [|v vs IH]; intros p Hk Hp; simpl; [exact Hp|].
  apply IH; [exact Hk|]. rewrite update_protos, trim_length by exact Hk. lia.
Qed.

End BoundedPrototypes.

(* ------------------------------------------------------------------ *)
(** * The running average and the observation count *)

Section RunningAverageFacts.
Context {A : Type} `{Numeric A}.

Lemma update_count (p : person A) (v : list A) (k : nat) (a : A) :
  count_or_0 (_update_person_proto p v k a) = (count_or_0 p + 1)%Z.
Proof. reflexivity. Qed.

Lemma updates_count (k : nat) (a : A) (vs : list (list A)) : forall p : person A,
  count_or_0 (fold_left (fun p v => _update_person_proto p v k a) vs p)
  = (count_or_0 p + Z.of_nat (length vs))%Z.
Proof.
  induction vs as [|v vs IH]; intros p; simpl fold_left.
  - simpl. lia.
  - rewrite IH, update_count. simpl length. lia.
Qed.

Lemma update_ema_val (p : person A) (v r : list A) (k : nat) (a : A) :
  ema p = Val r -> ema (_update_person_proto p v k a) = Val (ema_rule a r v).
Proof.
  intros Hr. unfold _update_person_proto, ema_rule. simpl. rewrite Hr. reflexivity.
Qed.

Lemma ema_rule_documented (alpha : A) (r v : list A) :
  ema_rule alpha r v = documented_ema alpha (_normalize_np r) v.
Proof. reflexivity. Qed.

End RunningAverageFacts.

(* ------------------------------------------------------------------ *)
(** * Vector math over the real numbers *)

Section RealVectors.
Local Open Scope R_scope.

Lemma flit_0 : @flit R _ 0%Q = 0.
Proof. simpl. unfold Q2R. simpl. lra. Qed.

Lemma eps_pos : 0 < @eps R _.
Proof. unfold eps. simpl. unfold Q2R. simpl. lra. Qed.

Lemma fold_plus_acc (l : list R) : forall a, fold_left Rplus l a = a + fold_left Rplus l 0.
Proof.
  induction l as [|x l IH]; intros a; simpl; [lra|].
  rewrite (IH (a + x)), (IH (0 + x)). lra.
Qed.

Lemma vsum_cons (x : R) (l : list R) : vsum (x :: l) = x + vsum l.
Proof.
  unfold vsum. change (@fadd R _) with Rplus.
  cbn [fold_left]. rewrite flit_0, (fold_plus_acc l (0 + x)). lra.
Qed.

Lemma vsum_nil : vsum (@nil R) = 0.
Proof. unfold vsum. cbn [fold_left]. apply flit_0. Qed.

Lemma sumsq_nonneg (v : list R) : 0 <= sumsq v.
Proof.
  unfold sumsq. induction v as [|x v IH]; simpl map.
  - rewrite vsum_nil. lra.
  - rewrite vsum_cons. nra.
Qed.

Lemma sumsq_div (n : R) (v : list R) :
  n <> 0 -> sumsq (map (fun x => x / n) v) = sumsq v / (n * n).
Proof.
  intros Hn. unfold sumsq. induction v as [|x v IH]; simpl map.
  - rewrite vsum_nil. field. exact Hn.
  - rewrite !vsum_cons, IH. field. exact Hn.
Qed.

Lemma dot_self (v : list R) : dot v v = sumsq v.
Proof.
  unfold dot, sumsq, zip_with. f_equal.
  induction v as [|x v IH]; simpl; [reflexivity | f_equal; exact IH].
Qed.

Lemma norm_sumsq (v : list R) : norm v = sqrt (sumsq v).
Proof. reflexivity. Qed.

Lemma norm_nonneg (v : list R) : 0 <= norm v.
Proof. rewrite norm_sumsq. apply sqrt_pos. Qed.

Lemma norm_sqr (v : list R) : norm v * norm v = sumsq v.
Proof. rewrite norm_sumsq. apply sqrt_sqrt, sumsq_nonneg. Qed.

Lemma normalize_R (v : list R) :
  _normalize_np v = map (fun x => x / (norm v + eps)) v.
Proof. reflexivity. Qed.

Lemma norm_normalize (v : list R) :
  norm (_normalize_np v) = norm v / (norm v + eps).
Proof.
  pose proof (norm_nonneg v) as Hn. pose proof eps_pos as He.
  rewrite normalize_R, norm_sumsq, sumsq_div by lra.
  rewrite <- norm_sqr.
  replace (norm v * norm v / ((norm v + eps) * (norm v + eps)))
    with ((norm v / (norm v + eps)) * (norm v / (norm v + eps))) by (field; lra).
  apply sqrt_square. unfold Rdiv.
  apply Rmult_le_pos; [lra | left; apply Rinv_0_lt_compat; lra].
Qed.
End RealVectors.

(* ------------------------------------------------------------------ *)
(** * Vector math with rounding

    The standard model: every operation returns its exact result changed
    by at most the fraction [u] of it. *)

Section StandardModel.
Local Open Scope R_scope.
Variable rnd : R -> R.
Variable u : R.
Hypothesis u_range : 0 <= u < 1.
Hypothesis rnd_accurate : accurate u rnd.

Lemma rnd_zero : rnd 0 = 0.
Proof.
  pose proof (rnd_accurate 0) as H0.
  rewrite Rabs_R0, Rmult_0_r, Rminus_0_r in H0.
  unfold Rabs in H0. destruct (Rcase_abs (rnd 0)); lra.
Qed.

Lemma rnd_bounds (x : R) : 0 <= x -> (1 - u) * x <= rnd x <= (1 + u) * x.
Proof.
  intros Hx. pose proof (rnd_accurate x) as Hr.
  rewrite (Rabs_right x) in Hr by lra.
  unfold Rabs in Hr. destruct (Rcase_abs (rnd x - x)); lra.
Qed.

Lemma rnd_sqr_bounds (x : R) :
  (1 - u) * (1 - u) * (x * x) <= rnd x * rnd x <= (1 + u) * (1 + u) * (x * x).
Proof.
  pose proof (rnd_accurate x) as Hr.
  destruct (Rle_or_lt 0 x) as [Hx|Hx].
  - pose proof (rnd_bounds x Hx) as [Hl Hh].
    assert (0 <= (1 - u) * x) by (apply Rmult_le_pos; lra).
    split; nra.
  - rewrite (Rabs_left x) in Hr by lra.
    unfold Rabs in Hr.
    assert (Hl : (1 + u) * x <= rnd x) by (destruct (Rcase_abs (rnd x - x)); lra).
    assert (Hh : rnd x <= (1 - u) * x) by (destruct (Rcase_abs (rnd x - x)); lra).
    assert ((1 - u) * x <= 0) by nra.
    split; nra.
Qed.

Lemma pow_small (a : R) (k : nat) : 0 <= a <= 1 -> 0 <= a ^ k <= 1.
Proof.
  intros Ha. induction k as [|k IH]; simpl; [lra|]. nra.
Qed.

Lemma pow_big (b : R) (k : nat) : 1 <= b -> 1 <= b ^ k.
Proof.
  intros Hb. induction k as [|k IH]; simpl; [lra|]. nra.
Qed.

Lemma fold_rounded (f g : R -> R) (Alo Ahi : R) (v : list R) :
  0 <= Alo -> 0 <= Ahi ->
  (forall x, 0 <= g x /\ Alo * g x <= f x <= Ahi * g x) ->
  forall (k : nat) (acc Y : R),
    0 <= Y ->
    (1 - u) ^ k * Alo * Y <= acc <= (1 + u) ^ k * Ahi * Y ->
    (1 - u) ^ (k + length v) * Alo * (Y + vsum (map g v))
    <= fold_left (fun s q => rnd (s + q)) (map f v) acc
    <= (1 + u) ^ (k + length v) * Ahi * (Y + vsum (map g v)).
Proof.
  intros HA HB Hfg. induction v as [|x v IH]; intros k acc Y HY Hacc.
  - simpl map. rewrite vsum_nil. simpl length. rewrite Nat.add_0_r, Rplus_0_r.
    exact Hacc.
  - simpl map. simpl fold_left. rewrite vsum_cons. simpl length.
    replace (k + S (length v))%nat with (S k + length v)%nat by lia.
    replace (Y + (g x + vsum (map g v))) with ((Y + g x) + vsum (map g v)) by lra.
    destruct (Hfg x) as [Hg [Hfl Hfh]].
    pose proof (pow_small (1 - u) k) as Hak.
    pose proof (pow_big (1 + u) k) as Hbk.
    assert (Ha : 0 <= (1 - u) ^ k <= 1) by (apply Hak; lra).
    assert (Hb : 1 <= (1 + u) ^ k) by (apply Hbk; lra).
    clear Hak Hbk.
    set (ak := (1 - u) ^ k) in *. set (bk := (1 + u) ^ k) in *.
    assert (HAg : 0 <= Alo * g x) by (apply Rmult_le_pos; assumption).
    assert (HBg : 0 <= Ahi * g x) by (apply Rmult_le_pos; assumption).
    assert (HAY : 0 <= Alo * Y) by (apply Rmult_le_pos; assumption).
    assert (HBY : 0 <= Ahi * Y) by (apply Rmult_le_pos; assumption).
    assert (Hs : 0 <= acc + f x).
    { assert (0 <= ak * Alo * Y) by (rewrite Rmult_assoc; apply Rmult_le_pos; lra).
      lra. }
    destruct (rnd_bounds (acc + f x) Hs) as [Hl Hh].
    apply IH; [lra|]. simpl pow. fold ak. fold bk. split.
    + assert (ak * Alo * (Y + g x) <= acc + f x).
      { assert (ak * (Alo * g x) <= Alo * g x) by nra. nra. }
      assert (0 <= 1 - u) by lra. nra.
    + assert (acc + f x <= bk * Ahi * (Y + g x)).
      { assert (Ahi * g x <= bk * (Ahi * g x)) by nra. nra. }
      assert (0 <= 1 + u) by lra. nra.
Qed.

Local Notation "'RN'" := (rounded rnd).

Lemma flit0_rounded : @flit R RN 0%Q = 0.
Proof. simpl. replace (Q2R 0) with 0 by (unfold Q2R; simpl; lra). apply rnd_zero. Qed.

Lemma vsum_rounded (l : list R) :
  @vsum R RN l = fold_left (fun s q => rnd (s + q)) l 0.
Proof. unfold vsum. rewrite flit0_rounded. reflexivity. Qed.

Lemma zip_self (f : R -> R -> R) (l : list R) :
  map (fun p => f (fst p) (snd p)) (combine l l) = map (fun y => f y y) l.
Proof. induction l as [|y l IH]; simpl; [reflexivity | rewrite IH; reflexivity]. Qed.

Lemma dot_self_rounded (l : list R) :
  @dot R RN l l = fold_left (fun s q => rnd (s + q)) (map (fun y => rnd (y * y)) l) 0.
Proof. unfold dot, zip_with. rewrite vsum_rounded, zip_self. reflexivity. Qed.

Lemma norm_rounded (l : list R) : @norm R RN l = rnd (sqrt (@dot R RN l l)).
Proof. unfold norm. rewrite dot_self_rounded, vsum_rounded. reflexivity. Qed.

Lemma eps_exact : @eps R R_numeric = 1 / 1000000000000.
Proof. unfold eps. simpl. unfold Q2R. simpl. lra. Qed.

Lemma eps_rounded : (1 - u) * eps <= @eps R RN <= (1 + u) * eps.
Proof.
  change (@eps R RN) with (rnd (@eps R R_numeric)).
  apply rnd_bounds. left. apply eps_pos.
Qed.

(** The sum of squares as computed. *)
Lemma sumsq_rounded (v : list R) :
  (1 - u) ^ (length v + 1) * sumsq v
  <= @dot R RN v v
  <= (1 + u) ^ (length v + 1) * sumsq v.
Proof.
  rewrite dot_self_rounded.
  pose proof (fold_rounded (fun y => rnd (y * y)) (fun y => y * y) (1 - u) (1 + u) v)
    as Hf.
  assert (H1 : 0 <= 1 - u) by lra. assert (H2 : 0 <= 1 + u) by lra.
  specialize (Hf H1 H2).
  assert (Hfg : forall x, 0 <= x * x /\ (1 - u) * (x * x) <= rnd (x * x) <= (1 + u) * (x * x)).
  { intros x. assert (Hx : 0 <= x * x) by nra. split; [exact Hx|].
    apply rnd_bounds. exact Hx. }
  specialize (Hf Hfg 0%nat 0 0 (Rle_refl 0)).
  assert (H0 : (1 - u) ^ 0 * (1 - u) * 0 <= 0 <= (1 + u) ^ 0 * (1 + u) * 0) by (simpl; lra).
  specialize (Hf H0). simpl plus in Hf. rewrite Rplus_0_l in Hf.
  fold (sumsq v) in Hf.
  replace (length v + 1)%nat with (S (length v)) by lia. simpl pow.
  destruct Hf as [Hl Hh]. split; lra.
Qed.

Lemma sqrt_small (t : R) : 0 <= t <= 1 -> t <= sqrt t.
Proof.
  intros Ht. rewrite <- (sqrt_square t) at 1 by lra.
  apply sqrt_le_1_alt. nra.
Qed.

Lemma sqrt_big (t : R) : 1 <= t -> sqrt t <= t.
Proof.
  intros Ht. rewrite <- (sqrt_square t) at 2 by lra.
  apply sqrt_le_1_alt. nra.
Qed.

(** The norm as computed. *)
Lemma norm_rounded_bounds (v : list R) :
  (1 - u) ^ (length v + 2) * norm v
  <= @norm R RN v
  <= (1 + u) ^ (length v + 2) * norm v.
Proof.
  rewrite norm_rounded.
  destruct (sumsq_rounded v) as [Hl Hh].
  pose proof (sumsq_nonneg v) as HS.
  pose proof (pow_small (1 - u) (length v + 1)) as Ha.
  pose proof (pow_big (1 + u) (length v + 1)) as Hb.
  assert (Ha' : 0 <= (1 - u) ^ (length v + 1) <= 1) by (apply Ha; lra).
  assert (Hb' : 1 <= (1 + u) ^ (length v + 1)) by (apply Hb; lra).
  clear Ha Hb.
  replace (length v + 2)%nat with (S (length v + 1)) by lia. simpl pow.
  set (ak := (1 - u) ^ (length v + 1)) in *.
  set (bk := (1 + u) ^ (length v + 1)) in *.
  set (d := @dot R RN v v) in *.
  assert (Hd : 0 <= d) by nra.
  destruct (rnd_bounds (sqrt d) (sqrt_pos d)) as [Rl Rh].
  rewrite norm_sumsq.
  pose proof (sqrt_pos (sumsq v)) as Hn.
  assert (Sl : ak * sqrt (sumsq v) <= sqrt d).
  { apply Rle_trans with (sqrt ak * sqrt (sumsq v)).
    - apply Rmult_le_compat_r; [exact Hn | apply sqrt_small; exact Ha'].
    - rewrite <- sqrt_mult by lra. apply sqrt_le_1_alt. exact Hl. }
  assert (Sh : sqrt d <= bk * sqrt (sumsq v)).
  { apply Rle_trans with (sqrt bk * sqrt (sumsq v)).
    - rewrite <- sqrt_mult by lra. apply sqrt_le_1_alt. exact Hh.
    - apply Rmult_le_compat_r; [exact Hn | apply sqrt_big; exact Hb']. }
  assert (0 <= 1 - u) by lra.
  split; nra.
Qed.

(** The divisor of [_normalize_np] as computed. *)
Lemma divisor_rounded (v : list R) :
  (1 - u) ^ (length v + 3) * (norm v + eps)
  <= @fadd R RN (@norm R RN v) (@eps R RN)
  <= (1 + u) ^ (length v + 3) * (norm v + eps).
Proof.
  destruct (norm_rounded_bounds v) as [Nl Nh].
  destruct eps_rounded as [El Eh].
  pose proof (norm_nonneg v) as Hn. pose proof eps_pos as He.
  pose proof (pow_small (1 - u) (length v + 1)) as Ha.
  pose proof (pow_big (1 + u) (length v + 1)) as Hb.
  assert (Ha' : 0 <= (1 - u) ^ (length v + 1) <= 1) by (apply Ha; lra).
  assert (Hb' : 1 <= (1 + u) ^ (length v + 1)) by (apply Hb; lra).
  clear Ha Hb.
  replace (length v + 3)%nat with (S (S (length v + 1))) by lia.
  replace (length v + 2)%nat with (S (length v + 1)) in Nl, Nh by lia.
  simpl pow in *.
  set (ak := (1 - u) ^ (length v + 1)) in *.
  set (bk := (1 + u) ^ (length v + 1)) in *.
  set (nh := @norm R RN v) in *. set (eh := @eps R RN) in *.
  change (@fadd R RN nh eh) with (rnd (nh + eh)).
  assert (H1 : 0 <= 1 - u) by lra.
  assert (H2 : 0 <= (1 - u) * ak) by (apply Rmult_le_pos; lra).
  assert (H3 : 0 <= (1 - u) * ak * norm v) by (apply Rmult_le_pos; lra).
  assert (H4 : 0 <= (1 - u) * eps) by (apply Rmult_le_pos; lra).
  assert (H0 : 0 <= nh + eh) by lra.
  destruct (rnd_bounds (nh + eh) H0) as [Rl Rh].
  split.
  - assert (P1 : (1 - u) * ak * eps <= (1 - u) * eps) by nra.
    assert (P2 : (1 - u) * ak * (norm v + eps) <= nh + eh) by lra.
    apply Rle_trans with ((1 - u) * (nh + eh)); [|exact Rl].
    rewrite Rmult_assoc. apply Rmult_le_compat_l; [exact H1 | exact P2].
  - assert (P1 : (1 + u) * eps <= (1 + u) * bk * eps) by nra.
    assert (P2 : nh + eh <= (1 + u) * bk * (norm v + eps)) by lra.
    apply Rle_trans with ((1 + u) * (nh + eh)); [exact Rh|].
    rewrite Rmult_assoc. apply Rmult_le_compat_l; [lra | exact P2].
Qed.

Lemma normalize_rounded (v : list R) :
  @_normalize_np R RN v
  = map (fun x => rnd (x / @fadd R RN (@norm R RN v) (@eps R RN))) v.
Proof. reflexivity. Qed.

Lemma vsum_zero (v : list R) (f : R -> R) :
  (forall x, In x v -> f x = 0) ->
  fold_left (fun s q => rnd (s + q)) (map f v) 0 = 0.
Proof.
  induction v as [|x v IH]; intros Hz; simpl; [reflexivity|].
  rewrite (Hz x (or_introl eq_refl)), Rplus_0_r, rnd_zero.
  apply IH. intros y Hy. apply Hz. right. exact Hy.
Qed.

(** The zero vector is mapped to itself. *)
Lemma normalize_zero_rounded (v : list R) :
  (forall x, In x v -> x = 0) ->
  @_normalize_np R RN v = v
  /\ @dot R RN (@_normalize_np R RN v) (@_normalize_np R RN v) = 0
  /\ @norm R RN (@_normalize_np R RN v) = 0.
Proof.
  intros Hz.
  assert (E : @_normalize_np R RN v = v).
  { rewrite normalize_rounded.
    set (d := @fadd R RN (@norm R RN v) (@eps R RN)). clearbody d.
    induction v as [|x v IH]; simpl; [reflexivity|].
    rewrite (Hz x (or_introl eq_refl)). unfold Rdiv. rewrite Rmult_0_l, rnd_zero.
    f_equal. apply IH. intros y Hy. apply Hz. right. exact Hy. }
  assert (Ed : @dot R RN v v = 0).
  { rewrite dot_self_rounded. apply vsum_zero. intros x Hx.
    rewrite (Hz x Hx), Rmult_0_l. apply rnd_zero. }
  split; [exact E|]. rewrite E. split; [exact Ed|].
  rewrite norm_rounded, Ed, sqrt_0. apply rnd_zero.
Qed.

Lemma pow_twice (x : R) (k : nat) : x ^ (2 * k) = x ^ k * x ^ k.
Proof. replace (2 * k)%nat with (k + k)%nat by lia. apply pow_add. Qed.

(** The similarity of a normalised vector to itself, as computed. *)
Lemma self_similarity_rounded (v : list R) :
  0 < norm v ->
  shrink u (length v + 3) * (unit_ratio v * unit_ratio v)
  <= @dot R RN (@_normalize_np R RN v) (@_normalize_np R RN v)
  <= stretch u (length v + 3) * (unit_ratio v * unit_ratio v).
Proof.
  intros Hn. pose proof eps_pos as He.
  destruct (divisor_rounded v) as [Dl Dh].
  rewrite normalize_rounded.
  set (d := @fadd R RN (@norm R RN v) (@eps R RN)) in *. clearbody d.
  assert (HA : 0 < (1 - u) ^ (length v + 3)) by (apply pow_lt; lra).
  assert (HB : 1 <= (1 + u) ^ (length v + 3)) by (apply pow_big; lra).
  assert (Hd : 0 < d) by nra.
  rewrite dot_self_rounded, map_map.
  pose proof (fold_rounded (fun x => rnd (rnd (x / d) * rnd (x / d)))
                (fun x => x / d * (x / d))
                ((1 - u) * ((1 - u) * (1 - u))) ((1 + u) * ((1 + u) * (1 + u))) v) as Hf.
  assert (H1 : 0 <= 1 - u) by lra. assert (H2 : 0 <= 1 + u) by lra.
  assert (H3 : 0 <= (1 - u) * ((1 - u) * (1 - u))) by (repeat apply Rmult_le_pos; lra).
  assert (H4 : 0 <= (1 + u) * ((1 + u) * (1 + u))) by (repeat apply Rmult_le_pos; lra).
  specialize (Hf H3 H4).
  assert (Hfg : forall x,
             0 <= x / d * (x / d)
             /\ (1 - u) * ((1 - u) * (1 - u)) * (x / d * (x / d))
                <= rnd (rnd (x / d) * rnd (x / d))
                <= (1 + u) * ((1 + u) * (1 + u)) * (x / d * (x / d))).
  { intros x. set (y := x / d).
    assert (Hy : 0 <= y * y) by nra. split; [exact Hy|].
    destruct (rnd_sqr_bounds y) as [Sl Sh].
    assert (Hr : 0 <= rnd y * rnd y) by nra.
    destruct (rnd_bounds (rnd y * rnd y) Hr) as [Rl Rh].
    split; nra. }
  specialize (Hf Hfg 0%nat 0 0 (Rle_refl 0)).
  assert (H0 : (1 - u) ^ 0 * ((1 - u) * ((1 - u) * (1 - u))) * 0 <= 0
               <= (1 + u) ^ 0 * ((1 + u) * ((1 + u) * (1 + u))) * 0) by (simpl; lra).
  specialize (Hf H0). simpl plus in Hf. rewrite Rplus_0_l in Hf.
  assert (Eg : vsum (map (fun x => x / d * (x / d)) v) = norm v * norm v / (d * d)).
  { rewrite norm_sqr, <- sumsq_div by lra. unfold sumsq. rewrite map_map. reflexivity. }
  rewrite Eg in Hf.
  assert (Ek : forall x : R, x ^ (length v) * (x * (x * x)) = x ^ (length v + 3)).
  { intros x. rewrite pow_add. simpl. ring. }
  rewrite !Ek in Hf. clear Ek Hfg H0 H3 H4 Eg.
  unfold shrink, stretch, unit_ratio. rewrite !pow_twice.
  set (A := (1 - u) ^ (length v + 3)) in *.
  set (B := (1 + u) ^ (length v + 3)) in *.
  set (n := norm v) in *. set (m := n + eps) in *.
  assert (Hm : 0 < m) by (unfold m; lra).
  set (F := fold_left (fun s q => rnd (s + q))
              (map (fun x => rnd (rnd (x / d) * rnd (x / d))) v) 0) in *.
  clearbody F.
  assert (Q1 : n / (B * m) <= n / d).
  { unfold Rdiv. apply Rmult_le_compat_l; [lra|].
    apply Rinv_le_contravar; [exact Hd | exact Dh]. }
  assert (Q2 : n / d <= n / (A * m)).
  { unfold Rdiv. apply Rmult_le_compat_l; [lra|].
    apply Rinv_le_contravar; [apply Rmult_lt_0_compat; assumption | exact Dl]. }
  assert (Q0 : 0 <= n / (B * m)).
  { unfold Rdiv. apply Rmult_le_pos; [lra|]. left. apply Rinv_0_lt_compat.
    apply Rmult_lt_0_compat; lra. }
  assert (E1 : n * n / (d * d) = n / d * (n / d)) by (field; lra).
  assert (E2 : A / (B * B) * (n / m * (n / m)) = A * (n / (B * m) * (n / (B * m))))
    by (field; lra).
  assert (E3 : B / (A * A) * (n / m * (n / m)) = B * (n / (A * m) * (n / (A * m))))
    by (field; lra).
  rewrite E1 in Hf. rewrite E2, E3. destruct Hf as [Fl Fh].
  assert (S1 : n / (B * m) * (n / (B * m)) <= n / d * (n / d)) by nra.
  assert (S2 : n / d * (n / d) <= n / (A * m) * (n / (A * m))) by nra.
  split.
  - apply Rle_trans with (A * (n / d * (n / d))); [|exact Fl].
    apply Rmult_le_compat_l; [lra | exact S1].
  - apply Rle_trans with (B * (n / d * (n / d))); [exact Fh|].
    apply Rmult_le_compat_l; [lra | exact S2].
Qed.

Lemma unit_ratio_nonneg (v : list R) : 0 <= unit_ratio v.
Proof.
  pose proof (norm_nonneg v) as Hn. pose proof eps_pos as He.
  unfold unit_ratio, Rdiv. apply Rmult_le_pos; [exact Hn|].
  left. apply Rinv_0_lt_compat. lra.
Qed.

Lemma shrink_pos (k : nat) : 0 < shrink u k.
Proof.
  unfold shrink, Rdiv. apply Rmult_lt_0_compat; [apply pow_lt; lra|].
  apply Rinv_0_lt_compat. apply pow_lt. lra.
Qed.

Lemma stretch_pos (k : nat) : 0 < stretch u k.
Proof.
  unfold stretch, Rdiv. apply Rmult_lt_0_compat; [apply pow_lt; lra|].
  apply Rinv_0_lt_compat. apply pow_lt. lra.
Qed.

Lemma sqrt_scaled (c r : R) : 0 <= c -> 0 <= r -> sqrt (c * (r * r)) = sqrt c * r.
Proof.
  intros Hc Hr. rewrite sqrt_mult by nra. rewrite sqrt_square by exact Hr. reflexivity.
Qed.

(** The length of a normalised vector, as computed. *)
Lemma unit_length_rounded (v : list R) :
  0 < norm v ->
  (1 - u) * sqrt (shrink u (length v + 3)) * unit_ratio v
  <= @norm R RN (@_normalize_np R RN v)
  <= (1 + u) * sqrt (stretch u (length v + 3)) * unit_ratio v.
Proof.
  intros Hn. destruct (self_similarity_rounded v Hn) as [Sl Sh].
  rewrite norm_rounded.
  set (d := @dot R RN (@_normalize_np R RN v) (@_normalize_np R RN v)) in *.
  clearbody d.
  pose proof (unit_ratio_nonneg v) as Hr.
  pose proof (shrink_pos (length v + 3)) as Hs.
  pose proof (stretch_pos (length v + 3)) as Ht.
  rewrite !Rmult_assoc, <- !sqrt_scaled by lra.
  set (lo := shrink u (length v + 3) * (unit_ratio v * unit_ratio v)) in *.
  set (hi := stretch u (length v + 3) * (unit_ratio v * unit_ratio v)) in *.
  assert (Hlo : 0 <= lo) by (unfold lo; apply Rmult_le_pos; nra).
  pose proof (sqrt_le_1_alt _ _ Sl) as Ql.
  pose proof (sqrt_le_1_alt _ _ Sh) as Qh.
  destruct (rnd_bounds (sqrt d) (sqrt_pos d)) as [Rl Rh].
  pose proof (sqrt_pos lo) as Pl.
  split.
  - apply Rle_trans with ((1 - u) * sqrt d); [|exact Rl].
    apply Rmult_le_compat_l; [lra | exact Ql].
  - apply Rle_trans with ((1 + u) * sqrt d); [exact Rh|].
    apply Rmult_le_compat_l; [lra | exact Qh].
Qed.

End StandardModel.

Section Normalisation.
Local Open Scope R_scope.

Lemma ratio_bounds (n e : R) :
  0 <= n -> 0 < e -> 0 <= n / (n + e) < 1.
Proof.
  intros Hn He.
  assert (Hi : 0 < / (n + e)) by (apply Rinv_0_lt_compat; lra).
  unfold Rdiv. split; [apply Rmult_le_pos; lra|].
  replace (n * / (n + e)) with (1 - e * / (n + e)) by (field; lra).
  assert (0 < e * / (n + e)) by (apply Rmult_lt_0_compat; lra). lra.
Qed.

Lemma ratio_close (n e : R) :
  0 < n -> 0 < e -> 1 - e / n < n / (n + e).
Proof.
  intros Hn He.
  replace (n / (n + e)) with (1 - e / (n + e)) by (field; lra).
  assert (e / (n + e) < e / n); [|lra].
  unfold Rdiv. apply Rmult_lt_compat_l; [exact He|].
  apply Rinv_lt_contravar; [apply Rmult_lt_0_compat; lra | lra].
Qed.

Lemma unit_ratio_close (v : list R) :
  0 < norm v ->
  1 - eps / norm v <= unit_ratio v <= 1
  /\ 1 - 2 * (eps / norm v) <= unit_ratio v * unit_ratio v <= 1.
Proof.
  intros Hp. pose proof eps_pos as He.
  assert (Hn : 0 <= norm v) by lra.
  pose proof (ratio_bounds (norm v) eps Hn He) as Hb.
  pose proof (ratio_close (norm v) eps Hp He) as Hc.
  fold (unit_ratio v) in Hb, Hc.
  assert (0 < eps / norm v).
  { unfold Rdiv. apply Rmult_lt_0_compat; [lra | apply Rinv_0_lt_compat; lra]. }
  split; split; nra.
Qed.

(** In exact arithmetic the average that an update stores is the
    documented blend with the weight [alpha] of the stored average [r]
    divided by [|r| + eps]: by 1, up to the [eps], for a stored average of
    unit length. *)
Lemma running_average_weight (alpha : R) (r v : list R) :
  ema_rule alpha r v
  = _normalize_np (vadd (scale (alpha / (norm r + eps)) r)
                        (scale (fsub (flit 1) alpha) (_normalize_np v))).
Proof.
  unfold ema_rule. f_equal. f_equal.
  rewrite normalize_R. unfold scale. rewrite map_map. apply map_ext. intros x.
  pose proof (norm_nonneg r) as Hn. pose proof eps_pos as He.
  change (alpha * (x / (norm r + eps)) = alpha / (norm r + eps) * x).
  field. lra.
Qed.
End Normalisation.

Section RealExamples.
Local Open Scope R_scope.

Lemma sumsq2 (x y : R) : sumsq [x; y] = x * x + y * y.
Proof. unfold sumsq. simpl map. rewrite !vsum_cons, vsum_nil. lra. Qed.

Lemma norm_zero2 : norm [0; 0] = 0.
Proof.
  rewrite norm_sumsq, sumsq2.
  replace (0 * 0 + 0 * 0) with 0 by lra. apply sqrt_0.
Qed.

Lemma norm_34 : norm [3; 4] = 5.
Proof.
  rewrite norm_sumsq, sumsq2.
  replace (3 * 3 + 4 * 4) with (5 * 5) by lra. apply sqrt_square. lra.
Qed.
End RealExamples.

(* ------------------------------------------------------------------ *)
(** * The rational and the real runtime are ordered *)

Lemma Q_flt_spec (a b : Q) : flt a b = true <-> (a < b)%Q.
Proof.
  simpl. rewrite negb_true_iff. split.
  - intros E. apply Qnot_le_lt. intros Hle. apply Qle_bool_iff in Hle. congruence.
  - intros Hlt. destruct (Qle_bool b a) eqn:E; [|reflexivity].
    apply Qle_bool_iff in E. exfalso. exact (Qlt_not_le _ _ Hlt E).
Qed.

Lemma Q_flt_false (a b : Q) : flt a b = false <-> (b <= a)%Q.
Proof.
  simpl. rewrite negb_false_iff. apply Qle_bool_iff.
Qed.

#[export] Instance Q_order : NumericOrder Q.
Proof.
  split.
  - intros a. apply Q_flt_false. apply Qle_refl.
  - intros a b c Hab Hbc. apply Q_flt_spec in Hab, Hbc. apply Q_flt_spec.
    exact (Qlt_trans _ _ _ Hab Hbc).
  - intros a b c Hab Hbc. apply Q_flt_false in Hab, Hbc. apply Q_flt_false.
    exact (Qle_trans _ _ _ Hbc Hab).
Defined.

#[export] Instance R_order : NumericOrder R.
Proof.
  split; simpl.
  - intros a. destruct (Rlt_dec a a); [lra | reflexivity].
  - intros a b c. destruct (Rlt_dec a b), (Rlt_dec b c), (Rlt_dec a c);
      intros; try reflexivity; try discriminate; lra.
  - intros a b c. destruct (Rlt_dec a b), (Rlt_dec b c), (Rlt_dec a c);
      intros; try reflexivity; try discriminate; lra.
Defined.

(* ------------------------------------------------------------------ *)
(** * The scenarios of the design document, evaluated *)

(** Scenario B: person 1 is matched, its count becomes 2 and it has two
    prototypes. *)
Example scenario_B :
  out_assigned (returned (match_and_apply T0 M0 dir_B plan_B)) = [(0, 1)]%Z
  /\ out_new_nums (returned (match_and_apply T0 M0 dir_B plan_B)) = []
  /\ map (fun p => (number p, count p, length (get_protos p)))
         (out_persons (returned (match_and_apply T0 M0 dir_B plan_B)))
     = [(1%Z, Some 2%Z, 2%nat)].
Proof. vm_compute. repeat split; reflexivity. Qed.

(** Scenario C: the two best scores are closer than the margin, and
    person 3 is minted. *)
Example scenario_C :
  out_assigned (returned (match_and_apply T0 M0 dir_C plan_C)) = []
  /\ out_new_nums (returned (match_and_apply T0 M0 dir_C plan_C)) = [(0, 3)]%Z
  /\ map (fun p => (number p, count p, length (get_protos p)))
         (out_persons (returned (match_and_apply T0 M0 dir_C plan_C)))
     = [(1%Z, Some 1%Z, 1%nat); (2%Z, Some 1%Z, 1%nat); (3%Z, Some 1%Z, 1%nat)].
Proof. vm_compute. repeat split; reflexivity. Qed.

(** Trimming six prototypes keeps five distinct rows, the one farthest
    from the mean first. *)
Example trim_six :
  kept 5 (map _normalize_np six_protos) = [1; 0; 4; 2; 3]%nat.
Proof. vm_compute. reflexivity. Qed.

(* ------------------------------------------------------------------ *)
(** * The theorems at concrete inputs *)

(** Scenario C as a turn of the loop: the candidate lies between persons
    1 and 2, so whichever is the top record, the margin decides. *)
Lemma C1_margin_law_witness :
  flt T0 (flit (-1000000000)) = false
  /\ proto_list [person_A; person_B] <> []
  /\ dict_get 0%Z (centroids_of plan_C) = Some (_normalize_np [70 # 100; 68 # 100])
  /\ one_width (length (_normalize_np [70 # 100; 68 # 100])) [person_A; person_B] = true
  /\ try_loop T0 M0 (centroids_of plan_C) (proto_list [person_A; person_B])
       (proto_owner [person_A; person_B]) (per_thr [person_A; person_B]) []
       (mkState [person_A; person_B] [] [] (initial_max [1%N; 2%N]))
     = Some (mkState [person_A; person_B] [] [] (initial_max [1%N; 2%N]))
  /\ exists p s1 s2 st',
       In p [person_A; person_B]
       /\ person_protos p <> []
       /\ top_record (proto_list [person_A; person_B]) (proto_owner [person_A; person_B])
                     (_normalize_np [70 # 100; 68 # 100]) (number p) s1
       /\ runner_up (proto_list [person_A; person_B]) (proto_owner [person_A; person_B])
                    (_normalize_np [70 # 100; 68 # 100]) (number p) s2
       /\ dict_get (number p) (per_thr [person_A; person_B])
          = table_threshold [person_A; person_B] (number p)
       /\ (NoDup (map (@number Q) [person_A; person_B]) ->
           table_threshold [person_A; person_B] (number p) = custom_threshold p)
       /\ try_loop T0 M0 (centroids_of plan_C) (proto_list [person_A; person_B])
            (proto_owner [person_A; person_B]) (per_thr [person_A; person_B])
            ([] ++ [0%Z])
            (mkState [person_A; person_B] [] [] (initial_max [1%N; 2%N]))
          = Some st'
       /\ if fle (effective_threshold T0
                    (table_threshold [person_A; person_B] (number p))) s1
             && fle M0 (fsub s1 s2)
          then
            assigned st' = dict_set 0%Z (number p) []
            /\ dict_get 0%Z (assigned st') = Some (number p)
            /\ new_nums st' = []
            /\ cur_max st' = initial_max [1%N; 2%N]
            /\ exists q,
                 first_replaced [person_A; person_B] (persons st') (number p) q
                   (_update_person_proto q (_normalize_np [70 # 100; 68 # 100])
                      default_k_max default_ema_alpha)
                 /\ count (_update_person_proto q (_normalize_np [70 # 100; 68 # 100])
                             default_k_max default_ema_alpha)
                    = Some (count_or_0 q + 1)%Z
          else
            persons st'
            = [person_A; person_B]
              ++ [mkPerson (initial_max [1%N; 2%N] + 1)%Z
                           (Some [_normalize_np [70 # 100; 68 # 100]]) None
                           (Val (_normalize_np [70 # 100; 68 # 100])) (Some 1%Z) Null]
            /\ new_nums st' = dict_set 0%Z (initial_max [1%N; 2%N] + 1)%Z []
            /\ dict_get 0%Z (new_nums st') = Some (initial_max [1%N; 2%N] + 1)%Z
            /\ assigned st' = []
            /\ cur_max st' = (initial_max [1%N; 2%N] + 1)%Z.
Proof.
  assert (h1 : flt T0 (flit (-1000000000)) = false) by (vm_compute; reflexivity).
  assert (h2 : proto_list [person_A; person_B] <> []) by (vm_compute; discriminate).
  assert (h3 : dict_get 0%Z (centroids_of plan_C)
               = Some (_normalize_np [70 # 100; 68 # 100]))
    by (vm_compute; reflexivity).
  assert (h4 : one_width (length (_normalize_np [70 # 100; 68 # 100]))
                 [person_A; person_B] = true) by reflexivity.
  assert (h5 : try_loop T0 M0 (centroids_of plan_C) (proto_list [person_A; person_B])
                 (proto_owner [person_A; person_B]) (per_thr [person_A; person_B]) []
                 (mkState [person_A; person_B] [] [] (initial_max [1%N; 2%N]))
               = Some (mkState [person_A; person_B] [] [] (initial_max [1%N; 2%N])))
    by reflexivity.
  exact (conj h1 (conj h2 (conj h3 (conj h4 (conj h5
           (C1_margin_law Q_order T0 M0 [person_A; person_B] (centroids_of plan_C)
              [1%N; 2%N] [] 0 _ _ h1 h2 h3 h4 h5)))))).
Defined.

(** A cold start: no registry, two clusters. *)
Lemma C2_cold_start_witness :
  proto_list (loaded_of cold_dir) = []
  /\ normalize_centroids (cluster_centroids twin_plan) [] = Some (centroids_of twin_plan)
  /\ exists o,
       match_and_apply T0 M0 cold_dir twin_plan = Returns o
       /\ out_assigned o = []
       /\ out_persons o
          = loaded_of cold_dir
            ++ mint_all (initial_max (numbered_dirs cold_dir))
                        (present_centroids (centroids_of twin_plan)
                                           (eligible_clusters twin_plan))
       /\ (forall cid rest c,
             eligible_clusters twin_plan = cid :: rest ->
             dict_get cid (centroids_of twin_plan) = Some c ->
             exists more,
               out_persons o
               = loaded_of cold_dir
                 ++ new_person (initial_max (numbered_dirs cold_dir) + 1) c :: more)
       /\ forall cid, In cid (eligible_clusters twin_plan) ->
                      dict_get cid (centroids_of twin_plan) <> None ->
                      dict_get cid (out_new_nums o) <> None.
Proof.
  assert (h1 : proto_list (loaded_of cold_dir) = []) by reflexivity.
  assert (h2 : normalize_centroids (cluster_centroids twin_plan) []
               = Some (centroids_of twin_plan)) by (vm_compute; reflexivity).
  exact (conj h1 (conj h2 (C2_cold_start T0 M0 cold_dir twin_plan _ h1 h2))).
Defined.

(** The second cluster of [twin_plan] has the centroid of the first, so its
    similarity to the prototype minted for the first passes the threshold
    and the margin; it is minted as person 2 all the same. *)
Lemma C2_twin_not_matched :
  match_and_apply T0 M0 cold_dir twin_plan
  = Returns (returned (match_and_apply T0 M0 cold_dir twin_plan))
  /\ out_assigned (returned (match_and_apply T0 M0 cold_dir twin_plan)) = []
  /\ out_new_nums (returned (match_and_apply T0 M0 cold_dir twin_plan))
     = [(0, 1); (1, 2)]%Z
  /\ map (@number Q) (out_persons (returned (match_and_apply T0 M0 cold_dir twin_plan)))
     = [1; 2]%Z
  /\ fle T0 (dot (_normalize_np (_normalize_np [1; 0])) (_normalize_np [1; 0])) = true
  /\ fle M0 (fsub (dot (_normalize_np (_normalize_np [1; 0])) (_normalize_np [1; 0]))
                  (flit (-1))) = true.
Proof. vm_compute. repeat split; reflexivity. Qed.


(** Numbering on an empty directory: Scenario A, and three invocations. *)
Lemma C4_monotonic_numbering_witness :
  loaded_of cold_dir = []
  /\ numbered_dirs cold_dir = []
  /\ StronglySorted Z.lt (concat (minted_by T0 M0 cold_dir [twin_plan; plan_C; gap_plan]))
  /\ exists o,
       match_and_apply T0 M0 cold_dir (mkPlan [(0%Z, Convertible [3; 4])] [0%Z])
       = Returns o
       /\ out_persons o
          = [mkPerson 1 (Some [_normalize_np [3; 4]]) None (Val (_normalize_np [3; 4]))
                      (Some 1%Z) Null]
       /\ out_new_nums o = [(0%Z, 1%Z)]
       /\ out_assigned o = []
       /\ persons_count o = 1%nat.
Proof.
  assert (h1 : loaded_of cold_dir = []) by reflexivity.
  assert (h2 : numbered_dirs cold_dir = []) by reflexivity.
  destruct (C4_monotonic_numbering T0 M0 cold_dir [twin_plan; plan_C; gap_plan])
    as [c1 [_ [_ c4]]].
  exact (conj h1 (conj h2 (conj c1 (c4 0%Z [3; 4] h1 h2)))).
Defined.

(** The numbers minted by three invocations in a row. *)
Example three_invocations :
  minted_by T0 M0 cold_dir [twin_plan; plan_C; gap_plan] = [[1; 2]; [3]; [4]]%Z.
Proof. vm_compute. reflexivity. Qed.

(** A legacy record is upgraded on load, and the file rewritten. *)
Example load_legacy :
  load_person_index (Parsed (Some [legacy]))
  = ([mkPerson 4 (Some [[3; 4]]) None (Val [3; 4]) (Some 1%Z) Null],
     Parsed (Some [mkPerson 4 (Some [[3; 4]]) None (Val [3; 4]) (Some 1%Z) Null])).
Proof. reflexivity. Qed.


(** A batch with a centroid that is not numeric ends in an exception;
    cluster 0, whose centroid is fine, is not processed. *)
Lemma C7_unconvertible_aborts :
  match_and_apply T0 M0 cold_dir broken_plan = Raises cold_dir.
Proof. reflexivity. Qed.

(** A centroid of the wrong width is not skipped either: the product of
    its turn raises, also after a cluster of the batch was matched, and
    nothing is saved. *)
Lemma C7_wrong_width_aborts :
  match_and_apply T0 M0 dir_B wide_plan = Raises dir_B.
Proof. vm_compute. reflexivity. Qed.

(** A centroid that holds a NaN is processed like any other: normalised
    it is NaN throughout, its similarities are NaN and count as -1, which
    passes no threshold, and it is minted as a person whose prototype is
    NaN throughout. *)
Lemma C7_nan_centroid_minted :
  match_and_apply T32 M32 dir_B32 nan_plan
  = Returns (returned (match_and_apply T32 M32 dir_B32 nan_plan))
  /\ out_assigned (returned (match_and_apply T32 M32 dir_B32 nan_plan)) = []
  /\ out_new_nums (returned (match_and_apply T32 M32 dir_B32 nan_plan)) = [(0%Z, 2%Z)]
  /\ skipn 1 (out_persons (returned (match_and_apply T32 M32 dir_B32 nan_plan)))
     = [new_person 2 [NaN; NaN]].
Proof. vm_compute. repeat split; reflexivity. Qed.

(** A batch whose cluster 7 has no centroid, one with a centroid that is
    not numeric, and one with a centroid of three coordinates. *)
Lemma C7_missing_skipped_witness :
  eligible_clusters gap_plan = [0%Z] ++ 7%Z :: [1%Z]
  /\ dict_get 7%Z (cluster_centroids gap_plan) = None
  /\ match_and_apply T0 M0 dir_B gap_plan
     = match_and_apply T0 M0 dir_B
         (mkPlan (cluster_centroids gap_plan) ([0%Z] ++ [1%Z]))
  /\ match_and_apply T0 M0 dir_B gap_plan
     = Returns (returned (match_and_apply T0 M0 dir_B gap_plan))
  /\ (dict_get 7%Z (out_assigned (returned (match_and_apply T0 M0 dir_B gap_plan))) = None
      /\ dict_get 7%Z (out_new_nums (returned (match_and_apply T0 M0 dir_B gap_plan)))
         = None)
  /\ In (1%Z, Unconvertible) (cluster_centroids broken_plan)
  /\ match_and_apply T0 M0 dir_B broken_plan
     = Raises (mkDir (snd (load_person_index (person_index_json dir_B)))
                     (numbered_dirs dir_B))
  /\ NoDup (dict_keys (cluster_centroids wide_plan))
  /\ In 1%Z (eligible_clusters wide_plan)
  /\ In (1%Z, Convertible [1; 0; 0]) (cluster_centroids wide_plan)
  /\ conforms (proto_list (loaded_of dir_B)) [1; 0; 0] = false
  /\ match_and_apply T0 M0 dir_B wide_plan
     = Raises (mkDir (snd (load_person_index (person_index_json dir_B)))
                     (numbered_dirs dir_B))
  /\ NoDup (dict_keys (cluster_centroids gap_plan))
  /\ (forall cid, ~ In (cid, Unconvertible) (cluster_centroids gap_plan))
  /\ one_width 2 (loaded_of dir_B) = true
  /\ (forall cid v,
        In cid (eligible_clusters gap_plan) ->
        In (cid, Convertible v) (cluster_centroids gap_plan) ->
        length v = 2%nat)
  /\ exists o, match_and_apply T0 M0 dir_B gap_plan = Returns o.
Proof.
  assert (h1 : eligible_clusters gap_plan = [0%Z] ++ 7%Z :: [1%Z]) by reflexivity.
  assert (h2 : dict_get 7%Z (cluster_centroids gap_plan) = None) by reflexivity.
  assert (h3 : match_and_apply T0 M0 dir_B gap_plan
               = Returns (returned (match_and_apply T0 M0 dir_B gap_plan)))
    by (vm_compute; reflexivity).
  assert (h4 : In (1%Z, Unconvertible) (cluster_centroids broken_plan))
    by (right; left; reflexivity).
  assert (h5 : forall cid, ~ In (cid, Unconvertible) (cluster_centroids gap_plan)).
  { intros cid Hin. destruct Hin as [E|[E|[]]]; discriminate. }
  assert (h6 : NoDup (dict_keys (cluster_centroids wide_plan))).
  { simpl. repeat constructor; simpl; intuition discriminate. }
  assert (h7 : In 1%Z (eligible_clusters wide_plan)) by (right; left; reflexivity).
  assert (h8 : In (1%Z, Convertible [1; 0; 0]) (cluster_centroids wide_plan))
    by (right; left; reflexivity).
  assert (h9 : conforms (proto_list (loaded_of dir_B)) [1; 0; 0] = false) by reflexivity.
  assert (h10 : NoDup (dict_keys (cluster_centroids gap_plan))).
  { simpl. repeat constructor; simpl; intuition discriminate. }
  assert (h11 : forall cid v,
            In cid (eligible_clusters gap_plan) ->
            In (cid, Convertible v) (cluster_centroids gap_plan) ->
            length v = 2%nat).
  { intros cid v _ [E|[E|[]]]; injection E as _ <-; reflexivity. }
  assert (h12 : one_width 2 (loaded_of dir_B) = true) by reflexivity.
  destruct (C7_missing_skipped T0 M0 dir_B gap_plan) as [c1 [c2 [_ [_ c5]]]].
  destruct (C7_missing_skipped T0 M0 dir_B broken_plan) as [_ [_ [d3 _]]].
  destruct (C7_missing_skipped T0 M0 dir_B wide_plan) as [_ [_ [_ [e4 _]]]].
  exact (conj h1 (conj h2 (conj (c1 _ _ _ h1 h2) (conj h3 (conj (c2 _ _ h3 h2)
           (conj h4 (conj (d3 _ h4) (conj h6 (conj h7 (conj h8 (conj h9
           (conj (e4 h6 _ _ h7 h8 h9) (conj h10 (conj h5 (conj h12 (conj h11
           (proj2 (c5 h10) _ h12 h5 h11))))))))))))))))).
Defined.

(** The round trip at Scenario B. *)
Lemma C8_save_load_roundtrip_witness :
  match_and_apply T0 M0 dir_B plan_B
  = Returns (returned (match_and_apply T0 M0 dir_B plan_B))
  /\ person_index_json (out_dir (returned (match_and_apply T0 M0 dir_B plan_B)))
     = save_person_index (out_persons (returned (match_and_apply T0 M0 dir_B plan_B)))
  /\ forallb complete (out_persons (returned (match_and_apply T0 M0 dir_B plan_B))) = true
  /\ load_person_index
       (person_index_json (out_dir (returned (match_and_apply T0 M0 dir_B plan_B))))
     = (out_persons (returned (match_and_apply T0 M0 dir_B plan_B)),
        person_index_json (out_dir (returned (match_and_apply T0 M0 dir_B plan_B)))).
Proof.
  assert (h1 : match_and_apply T0 M0 dir_B plan_B
               = Returns (returned (match_and_apply T0 M0 dir_B plan_B)))
    by (vm_compute; reflexivity).
  exact (conj h1 (C8_save_load_roundtrip T0 M0 dir_B plan_B _ h1)).
Defined.





(** In float32 the normalised [3, 4] has length 1 and similarity 1 to
    itself, not less, and normalising it again changes nothing. *)
Example unit_vector_float32 :
  norm unit_34 = Num 1
  /\ dot unit_34 unit_34 = Num 1
  /\ _normalize_np unit_34 = unit_34.
Proof. vm_compute. repeat split; reflexivity. Qed.

(** A vector as short as the epsilon does not come out at unit length
    either: normalised, [1e-12] is [0.5] and its similarity to itself is
    0.25, in the rational runtime exactly and in float32 at most 0.3. *)
Example tiny_vector_similarity :
  _normalize_np [1 # 1000000000000] = [1 # 2]
  /\ dot (_normalize_np [1 # 1000000000000]) (_normalize_np [1 # 1000000000000])
     = 1 # 4
  /\ fle (dot (_normalize_np [Num (round24 (1 # 1000000000000))])
              (_normalize_np [Num (round24 (1 # 1000000000000))]))
         (Num (round24 (3 # 10))) = true.
Proof. vm_compute. repeat split; reflexivity. Qed.

(* ------------------------------------------------------------------ *)
(** * More about the loop over the eligible clusters *)

Section LoopMore.
Context {A : Type} `{Numeric A}.
Variables (T M : A) (cn : dict (list A)) (P : list (list A))
          (owners : list Z) (thrs : dict A).

Local Notation "'stp'" := (step T M cn P owners thrs) (only parsing).
Local Notation "'V'" := (verdict_of T M cn P owners thrs) (only parsing).

Lemma sims_of_In (c : list A) (o : Z) :
  sims_of P owners c o <> [] -> In o owners.
Proof.
  unfold sims_of. intros Hne.
  destruct (filter _ _) as [|x l] eqn:E; [contradiction|].
  assert (Hx : In x (x :: l)) by (left; reflexivity).
  rewrite <- E in Hx. apply filter_In in Hx. destruct Hx as [Hx Ex].
  apply Z.eqb_eq in Ex. subst o. destruct x as [s o]. simpl.
  exact (in_combine_r _ _ _ _ Hx).
Qed.

Lemma rank_owner (c : list A) (b : Z) (s1 s2 : A) :
  rank P owners c = Some (b, s1, s2) -> In b owners.
Proof.
  unfold rank. intros Hr.
  destruct (sorted_pairs _) as [|[b' s] rest] eqn:E; [discriminate|].
  injection Hr as -> _ _.
  assert (Hin : In (b, s) (per_person_scores (map nan_to_num (matvec P c)) owners)).
  { apply (Permutation_in _ (sorted_pairs_perm _)). rewrite E. left. reflexivity. }
  apply (sims_of_In c). exact (proj1 (scores_best P owners c b s Hin)).
Qed.

(** A cluster is only matched to the owner of a row of the table. *)
Lemma verdict_matched_owner (cid b : Z) : V cid = Matched b -> In b owners.
Proof.
  unfold verdict_of.
  destruct (dict_get cid cn) as [c|]; [|discriminate].
  destruct P as [|r0 rs] eqn:EP; [discriminate|]. rewrite <- EP.
  destruct (rank P owners c) as [[[b' s1] s2]|] eqn:Er; [|discriminate].
  destruct (accepts _ _ _ _); [|discriminate].
  intros E. injection E as <-. exact (rank_owner c b' s1 s2 Er).
Qed.

Lemma loop_assigned_other (el : list Z) : forall (st : loop_state A) (k : Z),
  ~ In k el ->
  dict_get k (assigned (fold_left stp el st)) = dict_get k (assigned st).
Proof.
  induction el as [|cid el IH]; intros st k Hk; simpl in *; [reflexivity|].
  rewrite IH by tauto.
  pose proof (step_cases T M cn P owners thrs st cid) as Hc.
  destruct (V cid).
  - destruct Hc as [_ ->]. reflexivity.
  - destruct Hc as [c [_ ->]]. simpl. apply dict_get_set_other.
    intros E. apply Hk. left. congruence.
  - destruct Hc as [c [_ ->]]. reflexivity.
Qed.

Lemma loop_assigned_get (el : list Z) : forall (st : loop_state A) (k n : Z),
  In k el -> V k = Matched n ->
  dict_get k (assigned (fold_left stp el st)) = Some n.
Proof.
  induction el as [|cid el IH]; intros st k n Hk Hv; simpl in *; [contradiction|].
  destruct (in_dec Z.eq_dec k el) as [Hin|Hnin]; [exact (IH _ _ _ Hin Hv)|].
  destruct Hk as [->|Hk]; [|contradiction].
  rewrite loop_assigned_other by exact Hnin.
  pose proof (step_cases T M cn P owners thrs st k) as Hc.
  rewrite Hv in Hc. destruct Hc as [c [_ ->]]. simpl. apply dict_get_set_same.
Qed.

Lemma loop_assigned_value (el : list Z) : forall (st : loop_state A) (k n : Z),
  dict_get k (assigned (fold_left stp el st)) = Some n ->
  dict_get k (assigned st) = Some n \/ (In k el /\ V k = Matched n).
Proof.
  induction el as [|cid el IH]; intros st k n Hk; simpl in *; [left; exact Hk|].
  destruct (IH _ _ _ Hk) as [Hk'|[Hin Hv]]; [|right; tauto].
  pose proof (step_cases T M cn P owners thrs st cid) as Hc.
  destruct (V cid) as [|b|] eqn:Ev.
  - destruct Hc as [_ E]. rewrite E in Hk'. left. exact Hk'.
  - destruct Hc as [c [_ E]]. rewrite E in Hk'. simpl in Hk'.
    destruct (Z.eq_dec k cid) as [->|Hne].
    + rewrite dict_get_set_same in Hk'. injection Hk' as <-. right. tauto.
    + rewrite dict_get_set_other in Hk' by exact Hne. left. exact Hk'.
  - destruct Hc as [c [_ E]]. rewrite E in Hk'. left. exact Hk'.
Qed.

Lemma update_first_app (b : Z) (c : list A) (l1 l2 : list (person A)) :
  In b (map (@number A) l1) ->
  update_first b c (l1 ++ l2) = update_first b c l1 ++ l2.
Proof.
  induction l1 as [|p l1 IH]; simpl; [contradiction|].
  intros Hin. destruct (Z.eqb (number p) b) eqn:E; [reflexivity|].
  apply Z.eqb_neq in E. destruct Hin as [Hin|Hin]; [contradiction|].
  simpl. rewrite (IH Hin). reflexivity.
Qed.

(** The records present when the loop starts keep their places and numbers;
    behind them the loop appends one fresh record per minting turn. *)
Lemma loop_shape (el : list Z) : forall (st : loop_state A) (L Ap : list (person A)),
  persons st = L ++ Ap ->
  incl owners (map (@number A) L) ->
  exists L',
    persons (fold_left stp el st)
    = L' ++ Ap ++ mint_all (cur_max st) (minted_centroids T M cn P owners thrs el)
    /\ map (@number A) L' = map (@number A) L.
Proof.
  induction el as [|cid el IH]; intros st L Ap Hp Ho; simpl.
  - exists L. rewrite app_nil_r. split; [exact Hp | reflexivity].
  - pose proof (step_cases T M cn P owners thrs st cid) as Hc.
    destruct (V cid) as [|b|] eqn:Ev.
    + destruct Hc as [E1 E2]. rewrite E2. simpl. apply IH; assumption.
    + destruct Hc as [c [E1 E2]]. rewrite E2.
      assert (Hb : In b (map (@number A) L)) by (apply Ho, (verdict_matched_owner cid); exact Ev).
      destruct (IH (assign st cid b c) (update_first b c L) Ap) as [L' [E3 E4]].
      * simpl. rewrite Hp. apply update_first_app. exact Hb.
      * rewrite update_first_numbers. exact Ho.
      * exists L'. simpl in E3. rewrite E3. simpl.
        split; [reflexivity | rewrite E4; apply update_first_numbers].
    + destruct Hc as [c [E1 E2]]. rewrite E2, E1.
      destruct (IH (mint st cid c) L (Ap ++ [new_person (cur_max st + 1) c]))
        as [L' [E3 E4]].
      * simpl. rewrite Hp, app_assoc. reflexivity.
      * exact Ho.
      * exists L'. rewrite E3. simpl. rewrite <- !app_assoc. simpl.
        split; [reflexivity | exact E4].
Qed.

Lemma update_first_other (b : Z) (c : list A) (l : list (person A)) :
  forall (i : nat) (p : person A),
  nth_error l i = Some p -> number p <> b ->
  nth_error (update_first b c l) i = Some p.
Proof.
  induction l as [|q l IH]; intros i p Hi Hne; [destruct i; discriminate|].
  simpl. destruct (Z.eqb (number q) b) eqn:E.
  - destruct i as [|i]; simpl in *; [|exact Hi].
    injection Hi as ->. apply Z.eqb_eq in E. contradiction.
  - destruct i as [|i]; simpl in *; [exact Hi | exact (IH _ _ Hi Hne)].
Qed.

(** A record that no turn matches is left as it is. *)
Lemma loop_untouched (el : list Z) : forall (st : loop_state A) (i : nat) (p : person A),
  nth_error (persons st) i = Some p ->
  (forall k, In k el -> V k <> Matched (number p)) ->
  nth_error (persons (fold_left stp el st)) i = Some p.
Proof.
  induction el as [|cid el IH]; intros st i p Hi Hv; simpl; [exact Hi|].
  apply IH; [|intros k Hk; apply Hv; right; exact Hk].
  pose proof (step_cases T M cn P owners thrs st cid) as Hc.
  destruct (V cid) as [|b|] eqn:Ev.
  - destruct Hc as [_ ->]. exact Hi.
  - destruct Hc as [c [_ ->]]. simpl. apply update_first_other; [exact Hi|].
    intros E. apply (Hv cid); [left; reflexivity | rewrite Ev, E; reflexivity].
  - destruct Hc as [c [_ ->]]. simpl. rewrite nth_error_app1; [exact Hi|].
    apply nth_error_Some. congruence.
Qed.
End LoopMore.

Section LoopCounts.
Context {A : Type} `{Numeric A}.
Variables (T M : A) (cn : dict (list A)) (P : list (list A))
          (owners : list Z) (thrs : dict A).

Local Notation "'stp'" := (step T M cn P owners thrs) (only parsing).
Local Notation "'V'" := (verdict_of T M cn P owners thrs) (only parsing).

Lemma update_first_nth_number (b : Z) (c : list A) (l : list (person A)) (j : nat) :
  option_map (@number A) (nth_error (update_first b c l) j)
  = option_map (@number A) (nth_error l j).
Proof.
  rewrite <- !nth_error_map, update_first_numbers. reflexivity.
Qed.

Lemma update_first_hit (b : Z) (c : list A) (l : list (person A)) :
  forall (i : nat) (p : person A),
  first_with_number l i p -> number p = b ->
  nth_error (update_first b c l) i
  = Some (_update_person_proto p c default_k_max default_ema_alpha).
Proof.
  induction l as [|q l IH]; intros i p [Hi Hf] Hb; [destruct i; discriminate|].
  simpl. destruct i as [|i]; simpl in Hi.
  - injection Hi as ->. rewrite (proj2 (Z.eqb_eq _ _) Hb). reflexivity.
  - assert (Hq : number q <> b).
    { rewrite <- Hb. apply (Hf 0%nat q); [lia | reflexivity]. }
    rewrite (proj2 (Z.eqb_neq _ _) Hq). simpl. apply IH; [|exact Hb].
    split; [exact Hi|]. intros j r Hj Hr. apply (Hf (S j) r); [lia | exact Hr].
Qed.

Lemma first_with_number_update (b : Z) (c : list A) (l : list (person A))
    (i : nat) (p p' : person A) :
  first_with_number l i p ->
  nth_error (update_first b c l) i = Some p' -> number p' = number p ->
  first_with_number (update_first b c l) i p'.
Proof.
  intros [Hi Hf] Hi' Hn. split; [exact Hi'|].
  intros j q Hj Hq.
  pose proof (update_first_nth_number b c l j) as E. rewrite Hq in E. simpl in E.
  destruct (nth_error l j) as [q0|] eqn:E0; [|discriminate].
  simpl in E. injection E as E. rewrite Hn, E. exact (Hf j q0 Hj E0).
Qed.

(** The first record with a given number takes one update per turn matched
    to that number, and nothing else happens to it. *)
Lemma loop_counts (el : list Z) : forall (st : loop_state A) (i : nat) (p : person A),
  first_with_number (persons st) i p ->
  exists p',
    first_with_number (persons (fold_left stp el st)) i p'
    /\ number p' = number p
    /\ thr p' = thr p
    /\ count_or_0 p'
       = (count_or_0 p
          + Z.of_nat (length (matched_to T M cn P owners thrs (number p) el)))%Z.
Proof.
  induction el as [|cid el IH]; intros st i p Hf; simpl.
  - exists p. rewrite Z.add_0_r. repeat split; try reflexivity; apply Hf.
  - pose proof (step_cases T M cn P owners thrs st cid) as Hc.
    destruct (V cid) as [|b|] eqn:Ev.
    + destruct Hc as [_ ->]. apply IH. exact Hf.
    + destruct Hc as [c [_ ->]].
      destruct (Z.eqb b (number p)) eqn:Eb.
      * apply Z.eqb_eq in Eb.
        pose proof (update_first_hit b c (persons st) i p Hf (eq_sym Eb)) as Hh.
        destruct (IH (assign st cid b c) i
                    (_update_person_proto p c default_k_max default_ema_alpha))
          as [p' [F1 [F2 [F3 F4]]]].
        { simpl. apply (first_with_number_update b c _ i p); [exact Hf | exact Hh |].
          reflexivity. }
        exists p'. split; [exact F1|]. split; [exact F2|]. split; [exact F3|].
        rewrite F4. simpl length.
        change (number (_update_person_proto p c default_k_max default_ema_alpha))
          with (number p).
        rewrite update_count. lia.
      * apply Z.eqb_neq in Eb.
        apply IH. simpl.
        apply (first_with_number_update b c _ i p); [exact Hf | | reflexivity].
        apply update_first_other; [apply Hf | congruence].
    + destruct Hc as [c [_ ->]]. apply IH. simpl.
      destruct Hf as [Hi Hf].
      assert (Hlt : (i < length (persons st))%nat) by (apply nth_error_Some; congruence).
      split; [rewrite nth_error_app1; assumption|].
      intros j q Hj Hq. rewrite nth_error_app1 in Hq by lia. exact (Hf j q Hj Hq).
Qed.

Lemma dict_set_fresh (V0 : Type) (k : Z) (v : V0) (d : dict V0) :
  ~ In k (dict_keys d) -> dict_set k v d = d ++ [(k, v)].
Proof.
  induction d as [|[k' v'] d IH]; simpl; intros Hn; [reflexivity|].
  destruct (Z.eqb k k') eqn:E.
  - apply Z.eqb_eq in E. exfalso. apply Hn. left. congruence.
  - rewrite IH by tauto. reflexivity.
Qed.

(** With distinct ids, [assigned] lists the matched clusters in the order
    of the batch. *)
Lemma loop_assigned_list (el : list Z) : forall st : loop_state A,
  NoDup el ->
  (forall k, In k el -> ~ In k (dict_keys (assigned st))) ->
  assigned (fold_left stp el st)
  = assigned st
    ++ flat_map (fun k => match V k with Matched b => [(k, b)] | _ => [] end) el.
Proof.
  induction el as [|cid el IH]; intros st Hnd Hd; simpl.
  - rewrite app_nil_r. reflexivity.
  - inversion Hnd as [|? ? Hn Hnd']; subst.
    pose proof (step_cases T M cn P owners thrs st cid) as Hc.
    destruct (V cid) as [|b|] eqn:Ev.
    + destruct Hc as [_ ->]. apply IH; [exact Hnd'|].
      intros k Hk. apply Hd. right. exact Hk.
    + destruct Hc as [c [_ ->]]. rewrite IH; [|exact Hnd'|].
      * simpl. rewrite dict_set_fresh by (apply Hd; left; reflexivity).
        rewrite <- app_assoc. reflexivity.
      * intros k Hk. simpl. rewrite dict_keys_set_In. intros [E|Hk'].
        -- subst k. contradiction.
        -- apply (Hd k); [right; exact Hk | exact Hk'].
    + destruct Hc as [c [_ ->]]. rewrite IH; [reflexivity | exact Hnd' |].
      intros k Hk. apply Hd. right. exact Hk.
Qed.

Lemma matched_pairs_count (n : Z) (el : list Z) :
  length (assigned_to n
            (flat_map (fun k => match V k with Matched b => [(k, b)] | _ => [] end) el))
  = length (matched_to T M cn P owners thrs n el).
Proof.
  unfold assigned_to, matched_to.
  induction el as [|cid el IH]; simpl; [reflexivity|].
  destruct (V cid) as [|b|]; simpl; try exact IH.
  destruct (Z.eqb b n); simpl; rewrite IH; reflexivity.
Qed.

(** No two clusters are given the same new number. *)
Lemma dict_set_values (V0 : Type) (k : Z) (v : V0) (d : dict V0) :
  forall x, In x (dict_values (dict_set k v d)) -> x = v \/ In x (dict_values d).
Proof.
  induction d as [|[k' v'] d IH]; simpl; intros x Hx.
  - destruct Hx as [<-|[]]. left. reflexivity.
  - destruct (Z.eqb k k'); simpl in Hx.
    + destruct Hx as [<-|Hx]; [left; reflexivity | right; right; exact Hx].
    + destruct Hx as [<-|Hx]; [right; left; reflexivity|].
      destruct (IH x Hx); [left | right; right]; assumption.
Qed.

Lemma dict_set_values_NoDup (V0 : Type) (k : Z) (v : V0) (d : dict V0) :
  NoDup (dict_values d) -> ~ In v (dict_values d) ->
  NoDup (dict_values (dict_set k v d)).
Proof.
  induction d as [|[k' v'] d IH]; simpl; intros Hnd Hv.
  - repeat constructor. simpl. tauto.
  - inversion Hnd as [|? ? Hn Hnd']; subst.
    destruct (Z.eqb k k'); simpl.
    + constructor; [tauto | exact Hnd'].
    + constructor; [|apply IH; tauto].
      intros Hin. apply dict_set_values in Hin. destruct Hin as [->|Hin]; tauto.
Qed.

Lemma loop_new_values_NoDup (el : list Z) : forall st : loop_state A,
  NoDup (dict_values (new_nums st)) ->
  (forall x, In x (dict_values (new_nums st)) -> (x <= cur_max st)%Z) ->
  NoDup (dict_values (new_nums (fold_left stp el st)))
  /\ forall x, In x (dict_values (new_nums (fold_left stp el st))) ->
               (x <= cur_max (fold_left stp el st))%Z.
Proof.
  induction el as [|cid el IH]; intros st Hnd Hle; simpl; [split; assumption|].
  pose proof (step_cases T M cn P owners thrs st cid) as Hc.
  destruct (V cid) as [|b|] eqn:Ev.
  - destruct Hc as [_ ->]. apply IH; assumption.
  - destruct Hc as [c [_ ->]]. apply IH; assumption.
  - destruct Hc as [c [_ ->]]. apply IH; simpl.
    + apply dict_set_values_NoDup; [exact Hnd|].
      intros Hin. specialize (Hle _ Hin). lia.
    + intros x Hx. apply dict_set_values in Hx.
      destruct Hx as [->|Hx]; [lia | specialize (Hle _ Hx); lia].
Qed.
End LoopCounts.

(* ------------------------------------------------------------------ *)
(** * More about one invocation *)

Section InvocationMore.
Context {A : Type} `{Numeric A}.

Lemma assigned_iff (T M : A) (g : group_dir A) (pl : plan A) (cn : dict (list A))
    (cid n : Z) :
  dict_get cid (assigned (final_state T M g pl cn)) = Some n
  <-> In cid (eligible_clusters pl)
      /\ verdict_of T M cn (proto_list (loaded_of g)) (proto_owner (loaded_of g))
                    (per_thr (loaded_of g)) cid = Matched n.
Proof.
  unfold final_state, run_loop. split.
  - intros Hk. apply loop_assigned_value in Hk. simpl in Hk.
    destruct Hk as [Hk|Hk]; [discriminate | exact Hk].
  - intros [Hin Hv]. apply loop_assigned_get; assumption.
Qed.

Lemma new_nums_iff (T M : A) (g : group_dir A) (pl : plan A) (cn : dict (list A))
    (cid : Z) :
  dict_get cid (new_nums (final_state T M g pl cn)) <> None
  <-> In cid (eligible_clusters pl)
      /\ verdict_of T M cn (proto_list (loaded_of g)) (proto_owner (loaded_of g))
                    (per_thr (loaded_of g)) cid = Minted.
Proof.
  unfold final_state, run_loop. rewrite dict_get_In, loop_new_keys. simpl.
  destruct (verdict_of _ _ _ _ _ _ cid); simpl; split;
    intros Hk; try tauto; destruct Hk as [[]|[_ E]] || destruct Hk as [_ E];
    discriminate.
Qed.

Lemma final_shape (T M : A) (g : group_dir A) (pl : plan A) (cn : dict (list A)) :
  exists L',
    persons (final_state T M g pl cn)
    = L' ++ mint_all (initial_max (numbered_dirs g))
                     (minted_centroids T M cn (proto_list (loaded_of g))
                        (proto_owner (loaded_of g)) (per_thr (loaded_of g))
                        (eligible_clusters pl))
    /\ map (@number A) L' = map (@number A) (loaded_of g)
    /\ length L' = length (loaded_of g).
Proof.
  unfold final_state, run_loop.
  destruct (loop_shape T M cn (proto_list (loaded_of g)) (proto_owner (loaded_of g))
              (per_thr (loaded_of g)) (eligible_clusters pl)
              (mkState (loaded_of g) [] [] (initial_max (numbered_dirs g)))
              (loaded_of g) [])
    as [L' [E1 E2]].
  - simpl. rewrite app_nil_r. reflexivity.
  - intros o Ho. apply proto_owner_In in Ho. destruct Ho as [p [Hp [<- _]]].
    apply in_map. exact Hp.
  - exists L'. split; [exact E1|]. split; [exact E2|].
    rewrite <- (length_map (@number A) L'), E2. apply length_map.
Qed.

Lemma normalize_centroids_origin (raw : dict (raw_centroid A)) :
  forall (acc cn : dict (list A)) (cid : Z) (c : list A),
  normalize_centroids raw acc = Some cn ->
  dict_get cid cn = Some c ->
  dict_get cid acc = Some c
  \/ exists v, In (cid, Convertible v) raw /\ c = _normalize_np v.
Proof.
  induction raw as [|[k [v|]] raw IH]; intros acc cn cid c Hn Hc; simpl in *.
  - injection Hn as <-. left. exact Hc.
  - destruct (IH _ _ _ _ Hn Hc) as [Ha|[w [Hw Ew]]].
    + destruct (Z.eq_dec cid k) as [->|Hne].
      * rewrite dict_get_set_same in Ha. injection Ha as <-.
        right. exists v. split; [left; reflexivity | reflexivity].
      * rewrite dict_get_set_other in Ha by exact Hne. left. exact Ha.
    + right. exists w. split; [right; exact Hw | exact Ew].
  - discriminate.
Qed.

(** A cluster is only ever assigned to a person that was in the loaded
    registry and had a prototype there (or, without prototypes, a running
    average); the cluster is one of the eligible ones. *)
Theorem assigned_only_to_loaded (T M : A) (g : group_dir A) (pl : plan A)
    (o : outcome A) (cid n : Z) :
  match_and_apply T M g pl = Returns o ->
  dict_get cid (out_assigned o) = Some n ->
  In cid (eligible_clusters pl)
  /\ dict_get cid (cluster_centroids pl) <> None
  /\ exists p, In p (loaded_of g) /\ number p = n /\ person_protos p <> [].
Proof.
  intros Hr Hk. destruct (match_and_apply_inv T M g pl o Hr) as [cn Hn].
  apply (match_and_apply_returned T M g pl cn o Hn) in Hr.
  injection Hr as <-. simpl in Hk.
  apply assigned_iff in Hk. destruct Hk as [Hin Hv].
  split; [exact Hin|]. split.
  - intros Hc. apply (normalize_centroids_missing _ cn cid Hn) in Hc.
    apply verdict_skipped
      with (T := T) (M := M) (P := proto_list (loaded_of g))
           (owners := proto_owner (loaded_of g)) (thrs := per_thr (loaded_of g)) in Hc.
    congruence.
  - apply proto_owner_In. exact (verdict_matched_owner T M cn _ _ _ cid n Hv).
Qed.

(** The registry only grows.  The loaded records keep their places and
    their numbers, the returned count is the length of the saved list, and
    a record to which no cluster was assigned is saved as it was loaded. *)
Theorem registry_only_grows (T M : A) (g : group_dir A) (pl : plan A) (o : outcome A) :
  match_and_apply T M g pl = Returns o ->
  persons_count o = length (out_persons o)
  /\ (length (loaded_of g) <= persons_count o)%nat
  /\ map (@number A) (firstn (length (loaded_of g)) (out_persons o))
     = map (@number A) (loaded_of g)
  /\ forall i p,
       nth_error (loaded_of g) i = Some p ->
       (forall cid, dict_get cid (out_assigned o) <> Some (number p)) ->
       nth_error (out_persons o) i = Some p.
Proof.
  intros Hr. destruct (match_and_apply_inv T M g pl o Hr) as [cn Hn].
  apply (match_and_apply_returned T M g pl cn o Hn) in Hr.
  injection Hr as <-. simpl.
  destruct (final_shape T M g pl cn) as [L' [E1 [E2 E3]]].
  split; [reflexivity|]. split; [rewrite E1, length_app; lia|]. split.
  - rewrite E1, <- E3, firstn_app, Nat.sub_diag, firstn_all. simpl.
    rewrite app_nil_r. exact E2.
  - intros i p Hi Hnone. unfold final_state, run_loop.
    apply loop_untouched; [exact Hi|].
    intros k Hk Hv. apply (Hnone k). apply assigned_iff. split; assumption.
Qed.

(** The records a returning invocation appends are fresh ones, numbered
    upwards from the greatest numbered folder: each holds the normalised
    centroid of an eligible cluster as its only prototype and as its
    running average, with count 1 and no custom threshold. *)
Theorem appended_records_are_fresh (T M : A) (g : group_dir A) (pl : plan A)
    (o : outcome A) (cn : dict (list A)) :
  match_and_apply T M g pl = Returns o ->
  normalize_centroids (cluster_centroids pl) [] = Some cn ->
  skipn (length (loaded_of g)) (out_persons o)
  = mint_all (initial_max (numbered_dirs g))
             (minted_centroids T M cn (proto_list (loaded_of g))
                (proto_owner (loaded_of g)) (per_thr (loaded_of g))
                (eligible_clusters pl))
  /\ forall c,
       In c (minted_centroids T M cn (proto_list (loaded_of g))
               (proto_owner (loaded_of g)) (per_thr (loaded_of g))
               (eligible_clusters pl)) ->
       exists cid v,
         In cid (eligible_clusters pl)
         /\ In (cid, Convertible v) (cluster_centroids pl)
         /\ c = _normalize_np v.
Proof.
  intros Hr Hn. apply (match_and_apply_returned T M g pl cn o Hn) in Hr.
  injection Hr as <-.
  simpl. destruct (final_shape T M g pl cn) as [L' [E1 [E2 E3]]]. split.
  - rewrite E1, <- E3, skipn_app, Nat.sub_diag, skipn_all. reflexivity.
  - intros c Hc. unfold minted_centroids in Hc. apply in_flat_map in Hc.
    destruct Hc as [cid [Hin Hc]].
    destruct (verdict_of _ _ _ _ _ _ cid); try contradiction.
    destruct (dict_get cid cn) as [c'|] eqn:Ec; [|contradiction].
    destruct Hc as [<-|[]].
    destruct (normalize_centroids_origin _ [] cn cid c' Hn Ec) as [Ha|[v [Hv Ev]]];
      [discriminate|].
    exists cid, v. repeat split; assumption.
Qed.

(** With distinct eligible ids, the observation count of a person (the
    first record of its number) grows by the number of clusters assigned to
    it; its number and custom threshold stay. *)
Theorem count_grows_by_matches (T M : A) (g : group_dir A) (pl : plan A)
    (o : outcome A) (i : nat) (p : person A) :
  match_and_apply T M g pl = Returns o ->
  NoDup (eligible_clusters pl) ->
  first_with_number (loaded_of g) i p ->
  exists p',
    nth_error (out_persons o) i = Some p'
    /\ number p' = number p
    /\ thr p' = thr p
    /\ count_or_0 p'
       = (count_or_0 p
          + Z.of_nat (length (assigned_to (number p) (out_assigned o))))%Z.
Proof.
  intros Hr Hnd Hf. destruct (match_and_apply_inv T M g pl o Hr) as [cn Hn].
  apply (match_and_apply_returned T M g pl cn o Hn) in Hr.
  injection Hr as <-. simpl.
  destruct (loop_counts T M cn (proto_list (loaded_of g)) (proto_owner (loaded_of g))
              (per_thr (loaded_of g)) (eligible_clusters pl)
              (mkState (loaded_of g) [] [] (initial_max (numbered_dirs g))) i p Hf)
    as [p' [[F1 _] [F2 [F3 F4]]]].
  exists p'. split; [exact F1|]. split; [exact F2|]. split; [exact F3|].
  rewrite F4. unfold final_state, run_loop.
  rewrite loop_assigned_list; [|exact Hnd | intros k _ []].
  simpl. rewrite matched_pairs_count. reflexivity.
Qed.
End InvocationMore.

Section InvocationFolders.
Context {A : Type} `{Numeric A}.

Lemma loop_assigned_NoDup (T M : A) (cn : dict (list A)) (P : list (list A))
    (owners : list Z) (thrs : dict A) (el : list Z) : forall st : loop_state A,
  NoDup (dict_keys (assigned st)) ->
  NoDup (dict_keys (assigned (fold_left (step T M cn P owners thrs) el st))).
Proof.
  induction el as [|cid el IH]; intros st Hst; simpl; [exact Hst|].
  apply IH.
  pose proof (step_cases T M cn P owners thrs st cid) as Hc.
  destruct (verdict_of T M cn P owners thrs cid).
  - destruct Hc as [_ ->]. exact Hst.
  - destruct Hc as [c [_ ->]]. simpl. apply dict_keys_set_NoDup. exact Hst.
  - destruct Hc as [c [_ ->]]. exact Hst.
Qed.

Lemma merge_keys_NoDup (V0 : Type) (b : dict V0) : forall a : dict V0,
  NoDup (dict_keys a) -> NoDup (dict_keys (dict_merge a b)).
Proof.
  unfold dict_merge.
  induction b as [|[k v] b IH]; intros a Ha; simpl; [exact Ha|].
  apply IH, dict_keys_set_NoDup, Ha.
Qed.

Lemma merge_origin (V0 : Type) (b : dict V0) : forall (a : dict V0) (k : Z) (v : V0),
  dict_get k (dict_merge a b) = Some v ->
  dict_get k a = Some v \/ In (k, v) b.
Proof.
  unfold dict_merge.
  induction b as [|[k' v'] b IH]; intros a k v Hk; simpl in *; [left; exact Hk|].
  destruct (IH _ _ _ Hk) as [Ha|Hb]; [|right; right; exact Hb].
  destruct (Z.eq_dec k k') as [->|Hne].
  - rewrite dict_get_set_same in Ha. injection Ha as <-. right. left. reflexivity.
  - rewrite dict_get_set_other in Ha by exact Hne. left. exact Ha.
Qed.

Lemma dict_value_key (V0 : Type) (d : dict V0) (v : V0) :
  NoDup (dict_keys d) -> In v (dict_values d) -> exists k, dict_get k d = Some v.
Proof.
  intros Hnd Hv. apply in_map_iff in Hv. destruct Hv as [[k v'] [E Hin]].
  simpl in E. subst v'. exists k. apply dict_get_In_pair; assumption.
Qed.

Lemma ensure_dir_origin (vals : list Z) : forall (dirs : list N) (d : N),
  In d (fold_left ensure_dir vals dirs) ->
  In d dirs \/ exists v, In v vals /\ (0 <= v)%Z /\ d = Z.to_N v.
Proof.
  induction vals as [|w vals IH]; intros dirs d Hd; simpl in *; [left; exact Hd|].
  destruct (IH _ _ Hd) as [Hin|[v [Hv [H0 E]]]].
  - unfold ensure_dir in Hin.
    destruct (w <? 0)%Z eqn:Ew; simpl in Hin; [left; exact Hin|].
    destruct (existsb (N.eqb (Z.to_N w)) dirs); [left; exact Hin|].
    apply in_app_iff in Hin. destruct Hin as [Hin|[<-|[]]]; [left; exact Hin|].
    right. exists w. split; [left; reflexivity|]. split; [lia | reflexivity].
  - right. exists v. split; [right; exact Hv|]. split; assumption.
Qed.

(** The numbered folders after an invocation: those found at its start,
    which all remain, and the folders of the persons to which a cluster was
    assigned or for which one was minted; no other is created. *)
Theorem folders_after_invocation (T M : A) (g : group_dir A) (pl : plan A)
    (o : outcome A) :
  match_and_apply T M g pl = Returns o ->
  incl (numbered_dirs g) (numbered_dirs (out_dir o))
  /\ (forall cid n,
        dict_get cid (out_assigned o) = Some n \/ dict_get cid (out_new_nums o) = Some n ->
        (0 <= n)%Z ->
        In (Z.to_N n) (numbered_dirs (out_dir o)))
  /\ (forall d,
        In d (numbered_dirs (out_dir o)) ->
        In d (numbered_dirs g)
        \/ exists cid,
             dict_get cid (out_assigned o) = Some (Z.of_N d)
             \/ dict_get cid (out_new_nums o) = Some (Z.of_N d)).
Proof.
  intros Hr. destruct (match_and_apply_inv T M g pl o Hr) as [cn Hn].
  apply (match_and_apply_returned T M g pl cn o Hn) in Hr.
  injection Hr as <-. simpl.
  set (st := final_state T M g pl cn).
  assert (Hnew : NoDup (dict_keys (new_nums st))).
  { unfold st, final_state, run_loop. apply loop_new_NoDup. constructor. }
  assert (Has : NoDup (dict_keys (assigned st))).
  { unfold st, final_state, run_loop. apply loop_assigned_NoDup. constructor. }
  split; [apply ensure_dir_incl|]. split.
  - intros cid n Hk Hn0. apply ensure_dir_In; [|exact Hn0].
    apply (dict_get_value _ _ cid). destruct Hk as [Hk|Hk].
    + rewrite merge_keep; [exact Hk|].
      intros Hin. apply dict_get_In in Hin. apply new_nums_iff in Hin.
      apply assigned_iff in Hk. destruct Hin as [_ E1]. destruct Hk as [_ E2].
      congruence.
    + apply merge_get; assumption.
  - intros d Hd. apply ensure_dir_origin in Hd.
    destruct Hd as [Hd|[v [Hv [H0 ->]]]]; [left; exact Hd|]. right.
    apply dict_value_key in Hv; [|apply merge_keys_NoDup; exact Has].
    destruct Hv as [k Hk]. exists k. rewrite Z2N.id by exact H0.
    apply merge_origin in Hk. destruct Hk as [Hk|Hk]; [left; exact Hk|].
    right. apply dict_get_In_pair; assumption.
Qed.

(** No two clusters are given the same new number, and a new number is
    above every numbered folder found at the start, so it is the number of
    none of them. *)
Theorem minted_numbers_distinct (T M : A) (g : group_dir A) (pl : plan A)
    (o : outcome A) :
  match_and_apply T M g pl = Returns o ->
  NoDup (dict_values (out_new_nums o))
  /\ forall cid n,
       dict_get cid (out_new_nums o) = Some n ->
       (initial_max (numbered_dirs g) < n)%Z
       /\ (forall d, In d (numbered_dirs g) -> (Z.of_N d < n)%Z).
Proof.
  intros Hr. destruct (match_and_apply_inv T M g pl o Hr) as [cn Hn].
  apply (match_and_apply_returned T M g pl cn o Hn) in Hr.
  injection Hr as <-. simpl. unfold final_state, run_loop. split.
  - apply loop_new_values_NoDup; simpl; [constructor | contradiction].
  - intros cid n Hk. apply loop_new_values in Hk. simpl in Hk.
    destruct Hk as [Hk|Hk]; [discriminate|].
    split; [lia|]. intros d Hd. pose proof (initial_max_ge _ _ Hd). lia.
Qed.

(** The numbers of the registry stay distinct when they were distinct and
    none of them exceeds the greatest numbered folder (as when every
    registered person still has its folder). *)
Theorem numbers_stay_unique (T M : A) (g : group_dir A) (pl : plan A) (o : outcome A) :
  match_and_apply T M g pl = Returns o ->
  NoDup (map (@number A) (loaded_of g)) ->
  (forall p, In p (loaded_of g) -> (number p <= initial_max (numbered_dirs g))%Z) ->
  NoDup (map (@number A) (out_persons o)).
Proof.
  intros Hr Hnd Hle. destruct (match_and_apply_inv T M g pl o Hr) as [cn Hn].
  apply (match_and_apply_returned T M g pl cn o Hn) in Hr.
  injection Hr as <-. simpl. unfold final_state, run_loop.
  rewrite (proj2 (loop_numbers T M cn _ _ _ (eligible_clusters pl) _)). simpl.
  apply NoDup_app; [exact Hnd | apply sorted_lt_NoDup, upto_sorted |].
  intros a Ha Hu. apply (upto_In (initial_max (numbered_dirs g))) in Hu.
  apply in_map_iff in Ha. destruct Ha as [p [<- Hp]]. specialize (Hle p Hp). lia.
Qed.

Lemma filter_perm (T0 : Type) (f : T0 -> bool) (l l' : list T0) :
  Permutation l l' -> Permutation (filter f l) (filter f l').
Proof.
  induction 1 as [|x l l' Hp IH|x y l|l l' l'' H1 IH1 H2 IH2]; simpl.
  - constructor.
  - destruct (f x); [constructor|]; exact IH.
  - destruct (f x), (f y); try reflexivity. apply perm_swap.
  - exact (Permutation_trans IH1 IH2).
Qed.

(** The outcome of a cluster does not depend on its place in the batch:
    two batches with the same centroids and the same eligible ids in
    another order assign the same clusters to the same persons, mint for
    the same clusters, and return the same count. *)
Theorem batch_order_irrelevant (T M : A) (g : group_dir A) (pl pl' : plan A)
    (o o' : outcome A) :
  cluster_centroids pl' = cluster_centroids pl ->
  Permutation (eligible_clusters pl) (eligible_clusters pl') ->
  match_and_apply T M g pl = Returns o ->
  match_and_apply T M g pl' = Returns o' ->
  (forall cid n,
      dict_get cid (out_assigned o) = Some n <-> dict_get cid (out_assigned o') = Some n)
  /\ (forall cid,
        dict_get cid (out_new_nums o) <> None <-> dict_get cid (out_new_nums o') <> None)
  /\ persons_count o = persons_count o'.
Proof.
  intros Ec Hperm Hr Hr'. destruct (match_and_apply_inv T M g pl o Hr) as [cn Hn].
  assert (Hn' : normalize_centroids (cluster_centroids pl') [] = Some cn)
    by (rewrite Ec; exact Hn).
  apply (match_and_apply_returned T M g pl cn o Hn) in Hr.
  apply (match_and_apply_returned T M g pl' cn o' Hn') in Hr'.
  injection Hr as <-. injection Hr' as <-. simpl.
  assert (Hin : forall k, In k (eligible_clusters pl) <-> In k (eligible_clusters pl')).
  { intros k. split; apply Permutation_in; [exact Hperm | symmetry; exact Hperm]. }
  split; [|split].
  - intros cid n. rewrite !assigned_iff, Hin. reflexivity.
  - intros cid. rewrite !new_nums_iff, Hin. reflexivity.
  - rewrite <- !(length_map (@number A)). unfold final_state, run_loop.
    rewrite !(proj2 (loop_numbers T M cn _ _ _ _ _)). simpl.
    rewrite !length_app, !length_map, !length_seq. f_equal.
    apply Permutation_length, filter_perm. exact Hperm.
Qed.
End InvocationFolders.

(* ------------------------------------------------------------------ *)
(** * The further properties at concrete inputs *)

Lemma assigned_only_to_loaded_witness :
  match_and_apply T0 M0 dir_B plan_B = Returns run_B
  /\ dict_get 0%Z (out_assigned run_B) = Some 1%Z
  /\ In 0%Z (eligible_clusters plan_B)
  /\ dict_get 0%Z (cluster_centroids plan_B) <> None
  /\ exists p, In p (loaded_of dir_B) /\ number p = 1%Z /\ person_protos p <> [].
Proof.
  assert (h1 : match_and_apply T0 M0 dir_B plan_B = Returns run_B)
    by (vm_compute; reflexivity).
  assert (h2 : dict_get 0%Z (out_assigned run_B) = Some 1%Z) by (vm_compute; reflexivity).
  exact (conj h1 (conj h2 (assigned_only_to_loaded T0 M0 dir_B plan_B run_B 0 1 h1 h2))).
Defined.

Lemma registry_only_grows_witness :
  match_and_apply T0 M0 dir_C plan_B = Returns run_CB
  /\ nth_error (loaded_of dir_C) 1 = Some person_B
  /\ (forall cid, dict_get cid (out_assigned run_CB) <> Some (number person_B))
  /\ persons_count run_CB = length (out_persons run_CB)
  /\ (length (loaded_of dir_C) <= persons_count run_CB)%nat
  /\ map (@number Q) (firstn (length (loaded_of dir_C)) (out_persons run_CB))
     = map (@number Q) (loaded_of dir_C)
  /\ nth_error (out_persons run_CB) 1 = Some person_B.
Proof.
  assert (h1 : match_and_apply T0 M0 dir_C plan_B = Returns run_CB)
    by (vm_compute; reflexivity).
  assert (h2 : nth_error (loaded_of dir_C) 1 = Some person_B) by reflexivity.
  assert (h3 : forall cid, dict_get cid (out_assigned run_CB) <> Some (number person_B)).
  { assert (E : out_assigned run_CB = [(0, 1)]%Z) by (vm_compute; reflexivity).
    intros cid. rewrite E. simpl. destruct (Z.eqb cid 0); discriminate. }
  destruct (registry_only_grows T0 M0 dir_C plan_B run_CB h1) as [c1 [c2 [c3 c4]]].
  exact (conj h1 (conj h2 (conj h3 (conj c1 (conj c2 (conj c3 (c4 1%nat person_B h2 h3))))))).
Defined.

Lemma appended_records_are_fresh_witness :
  match_and_apply T0 M0 dir_C plan_C
  = Returns (returned (match_and_apply T0 M0 dir_C plan_C))
  /\ normalize_centroids (cluster_centroids plan_C) [] = Some (centroids_of plan_C)
  /\ skipn (length (loaded_of dir_C))
           (out_persons (returned (match_and_apply T0 M0 dir_C plan_C)))
     = mint_all (initial_max (numbered_dirs dir_C))
                (minted_centroids T0 M0 (centroids_of plan_C)
                   (proto_list (loaded_of dir_C)) (proto_owner (loaded_of dir_C))
                   (per_thr (loaded_of dir_C)) (eligible_clusters plan_C))
  /\ forall c,
       In c (minted_centroids T0 M0 (centroids_of plan_C)
               (proto_list (loaded_of dir_C)) (proto_owner (loaded_of dir_C))
               (per_thr (loaded_of dir_C)) (eligible_clusters plan_C)) ->
       exists cid v,
         In cid (eligible_clusters plan_C)
         /\ In (cid, Convertible v) (cluster_centroids plan_C)
         /\ c = _normalize_np v.
Proof.
  assert (h0 : match_and_apply T0 M0 dir_C plan_C
               = Returns (returned (match_and_apply T0 M0 dir_C plan_C)))
    by (vm_compute; reflexivity).
  assert (h1 : normalize_centroids (cluster_centroids plan_C) []
               = Some (centroids_of plan_C)) by (vm_compute; reflexivity).
  exact (conj h0 (conj h1
    (appended_records_are_fresh T0 M0 dir_C plan_C _ _ h0 h1))).
Defined.

Lemma count_grows_by_matches_witness :
  match_and_apply T0 M0 dir_B plan_B = Returns run_B
  /\ NoDup (eligible_clusters plan_B)
  /\ first_with_number (loaded_of dir_B) 0 person_A
  /\ exists p',
       nth_error (out_persons run_B) 0 = Some p'
       /\ number p' = number person_A
       /\ thr p' = thr person_A
       /\ count_or_0 p'
          = (count_or_0 person_A
             + Z.of_nat (length (assigned_to (number person_A) (out_assigned run_B))))%Z.
Proof.
  assert (h1 : match_and_apply T0 M0 dir_B plan_B = Returns run_B)
    by (vm_compute; reflexivity).
  assert (h2 : NoDup (eligible_clusters plan_B)).
  { repeat constructor. simpl. tauto. }
  assert (h3 : first_with_number (loaded_of dir_B) 0 person_A).
  { split; [reflexivity | intros j q Hj; lia]. }
  exact (conj h1 (conj h2 (conj h3
           (count_grows_by_matches T0 M0 dir_B plan_B run_B 0 person_A h1 h2 h3)))).
Defined.

Lemma folders_after_invocation_witness :
  match_and_apply T0 M0 dir_B gap_plan = Returns run_gap
  /\ dict_get 1%Z (out_new_nums run_gap) = Some 2%Z
  /\ (0 <= 2)%Z
  /\ In 2%N (numbered_dirs (out_dir run_gap))
  /\ incl (numbered_dirs dir_B) (numbered_dirs (out_dir run_gap))
  /\ (In 2%N (numbered_dirs dir_B)
      \/ exists cid,
           dict_get cid (out_assigned run_gap) = Some (Z.of_N 2)
           \/ dict_get cid (out_new_nums run_gap) = Some (Z.of_N 2)).
Proof.
  assert (h1 : match_and_apply T0 M0 dir_B gap_plan = Returns run_gap)
    by (vm_compute; reflexivity).
  assert (h2 : dict_get 1%Z (out_new_nums run_gap) = Some 2%Z) by (vm_compute; reflexivity).
  assert (h3 : (0 <= 2)%Z) by lia.
  destruct (folders_after_invocation T0 M0 dir_B gap_plan run_gap h1) as [c1 [c2 c3]].
  exact (conj h1 (conj h2 (conj h3 (conj (c2 1%Z 2%Z (or_intror h2) h3)
           (conj c1 (c3 2%N (c2 1%Z 2%Z (or_intror h2) h3))))))).
Defined.

Lemma minted_numbers_distinct_witness :
  match_and_apply T0 M0 dir_B gap_plan = Returns run_gap
  /\ dict_get 1%Z (out_new_nums run_gap) = Some 2%Z
  /\ NoDup (dict_values (out_new_nums run_gap))
  /\ (initial_max (numbered_dirs dir_B) < 2)%Z
  /\ (forall d, In d (numbered_dirs dir_B) -> (Z.of_N d < 2)%Z).
Proof.
  assert (h1 : match_and_apply T0 M0 dir_B gap_plan = Returns run_gap)
    by (vm_compute; reflexivity).
  assert (h2 : dict_get 1%Z (out_new_nums run_gap) = Some 2%Z) by (vm_compute; reflexivity).
  destruct (minted_numbers_distinct T0 M0 dir_B gap_plan run_gap h1) as [c1 c2].
  exact (conj h1 (conj h2 (conj c1 (c2 1%Z 2%Z h2)))).
Defined.

Lemma numbers_stay_unique_witness :
  match_and_apply T0 M0 dir_C plan_C = Returns (returned (match_and_apply T0 M0 dir_C plan_C))
  /\ NoDup (map (@number Q) (loaded_of dir_C))
  /\ (forall p, In p (loaded_of dir_C) -> (number p <= initial_max (numbered_dirs dir_C))%Z)
  /\ NoDup (map (@number Q) (out_persons (returned (match_and_apply T0 M0 dir_C plan_C)))).
Proof.
  assert (h1 : match_and_apply T0 M0 dir_C plan_C
               = Returns (returned (match_and_apply T0 M0 dir_C plan_C)))
    by (vm_compute; reflexivity).
  assert (h2 : NoDup (map (@number Q) (loaded_of dir_C))).
  { repeat constructor; simpl; intuition discriminate. }
  assert (h3 : forall p, In p (loaded_of dir_C) ->
                         (number p <= initial_max (numbered_dirs dir_C))%Z).
  { intros p [<-|[<-|[]]]; simpl; lia. }
  exact (conj h1 (conj h2 (conj h3 (numbers_stay_unique T0 M0 dir_C plan_C _ h1 h2 h3)))).
Defined.

Lemma batch_order_irrelevant_witness :
  cluster_centroids gap_plan_rev = cluster_centroids gap_plan
  /\ Permutation (eligible_clusters gap_plan) (eligible_clusters gap_plan_rev)
  /\ match_and_apply T0 M0 dir_B gap_plan = Returns run_gap
  /\ match_and_apply T0 M0 dir_B gap_plan_rev = Returns run_gap_rev
  /\ (forall cid n,
         dict_get cid (out_assigned run_gap) = Some n
         <-> dict_get cid (out_assigned run_gap_rev) = Some n)
  /\ (forall cid,
         dict_get cid (out_new_nums run_gap) <> None
         <-> dict_get cid (out_new_nums run_gap_rev) <> None)
  /\ persons_count run_gap = persons_count run_gap_rev.
Proof.
  assert (h1 : cluster_centroids gap_plan_rev = cluster_centroids gap_plan) by reflexivity.
  assert (h2 : Permutation (eligible_clusters gap_plan) (eligible_clusters gap_plan_rev)).
  { simpl. apply (perm_trans (l' := [7; 0; 1]%Z)).
    - apply perm_swap.
    - apply (perm_trans (l' := [7; 1; 0]%Z)); [apply perm_skip, perm_swap | apply perm_swap]. }
  assert (h3 : match_and_apply T0 M0 dir_B gap_plan = Returns run_gap)
    by (vm_compute; reflexivity).
  assert (h4 : match_and_apply T0 M0 dir_B gap_plan_rev = Returns run_gap_rev)
    by (vm_compute; reflexivity).
  exact (conj h1 (conj h2 (conj h3 (conj h4
           (batch_order_irrelevant T0 M0 dir_B gap_plan gap_plan_rev _ _ h1 h2 h3 h4))))).
Defined.

(* ------------------------------------------------------------------ *)
(** * More about the registry store and the prototype list *)

Section StoreMore.
Context {A : Type} `{Numeric A}.

Lemma migrate_changed (p : person A) : snd (migrate p) = negb (complete p).
Proof.
  destruct p as [n ps pr e c t].
  destruct ps as [l|], pr as [v|], e as [| |e], c as [k|], t as [| |t];
    try destruct l; reflexivity.
Qed.

Lemma migrate_any_changed (l : list (person A)) :
  existsb snd (map migrate l) = negb (forallb complete l).
Proof.
  induction l as [|p l IH]; simpl; [reflexivity|].
  rewrite IH, migrate_changed, negb_andb. reflexivity.
Qed.

(** Loading settles the file.  A missing or unparseable file is left as it
    is (none is created); a parsed file is rewritten exactly when one of
    its records lacked a key, and then holds the returned records; loading
    again returns the same records and leaves the file alone. *)
Theorem load_settles_the_file (f : index_file A) :
  load_person_index (snd (load_person_index f)) = load_person_index f
  /\ snd (load_person_index (@Absent A)) = Absent
  /\ snd (load_person_index (@Unparseable A)) = Unparseable
  /\ forall d : option (list (person A)),
       snd (load_person_index (Parsed d))
       = if forallb complete (match d with Some l => l | None => [] end)
         then Parsed d
         else Parsed (Some (fst (load_person_index (Parsed d)))).
Proof.
  assert (Hd : forall d : option (list (person A)),
             snd (load_person_index (Parsed d))
             = if forallb complete (match d with Some l => l | None => [] end)
               then Parsed d
               else Parsed (Some (fst (load_person_index (Parsed d))))).
  { intros d. simpl. rewrite migrate_any_changed.
    destruct (forallb complete _); reflexivity. }
  split; [|split; [reflexivity | split; [reflexivity | exact Hd]]].
  destruct f as [| |d]; try reflexivity.
  rewrite Hd.
  destruct (forallb complete (match d with Some l => l | None => [] end)) eqn:E;
    [reflexivity|].
  pose proof (load_complete (Parsed d)) as Hc.
  pose proof (load_save_complete _ Hc) as Hs. unfold save_person_index in Hs.
  rewrite Hs. rewrite (surjective_pairing (load_person_index (Parsed d))) at 3.
  f_equal. rewrite Hd, E. reflexivity.
Qed.

Lemma kept_good (k : nat) (X : list (list A)) :
  X <> [] -> good_keep X (kept k X).
Proof.
  intros HX. unfold kept.
  set (d0 := map norm (map (fun x => vsub x (mean0 X)) X)).
  assert (H0 : (argmax flt d0 < length X)%nat).
  { assert (Ed : length d0 = length X) by (unfold d0; rewrite !length_map; reflexivity).
    rewrite <- Ed. apply argmax_range. intros E. rewrite E in Ed.
    destruct X; [congruence | discriminate]. }
  assert (Hg0 : good_keep X [argmax flt d0]).
  { split; [repeat constructor; simpl; tauto | repeat constructor; exact H0]. }
  pose proof (select_good k k X _ Hg0) as Hg1.
  destruct (_ <? _)%nat; [|exact Hg1].
  apply fill_good; [|exact Hg1].
  rewrite Forall_forall. intros i Hi. apply in_seq in Hi. lia.
Qed.

Lemma kept_length (k : nat) (X : list (list A)) :
  (k < length X)%nat -> length (kept k X) = Nat.max 1 k.
Proof.
  intros Hk. destruct k as [|k].
  - unfold kept. simpl select.
    destruct (_ <? _)%nat eqn:E; [|reflexivity].
    apply Nat.ltb_lt in E. simpl in E. lia.
  - assert (HX : X <> []) by (destruct X; [simpl in Hk; lia | discriminate]).
    rewrite (proj1 (kept_spec (S k) X ltac:(lia) HX)). lia.
Qed.

(** An update invents no prototype.  Under the cap the list is the old one
    with the normalised observation appended.  Over it, the list is made
    of [max(1, k_max)] entries of that longer list, normalised, each taken
    from a position of its own: [k_max] of them for a cap of at least 1,
    and one, the row farthest from the mean, for a cap of 0. *)
Theorem update_keeps_known_prototypes (p : person A) (v : list A) (k_max : nat) (a : A) :
  ((length (get_protos p) < k_max)%nat ->
   get_protos (_update_person_proto p v k_max a) = get_protos p ++ [_normalize_np v])
  /\ ((k_max <= length (get_protos p))%nat ->
      exists keep,
        good_keep (get_protos p ++ [_normalize_np v]) keep
        /\ length keep = Nat.max 1 k_max
        /\ length (get_protos (_update_person_proto p v k_max a)) = Nat.max 1 k_max
        /\ get_protos (_update_person_proto p v k_max a)
           = map (fun i => _normalize_np (nth i (get_protos p ++ [_normalize_np v]) []))
                 keep).
Proof.
  rewrite update_protos. unfold trim. split.
  - intros Hlt.
    assert (E : (k_max <? length (get_protos p ++ [_normalize_np v]))%nat = false).
    { apply Nat.ltb_ge. rewrite length_app. simpl. lia. }
    rewrite E. reflexivity.
  - intros Hge.
    assert (Hlen : (k_max < length (get_protos p ++ [_normalize_np v]))%nat).
    { rewrite length_app. simpl. lia. }
    assert (E : (k_max <? length (get_protos p ++ [_normalize_np v]))%nat = true)
      by (apply Nat.ltb_lt; exact Hlen).
    rewrite E.
    set (l := get_protos p ++ [_normalize_np v]) in *.
    assert (Hl : map _normalize_np l <> []).
    { unfold l. destruct (get_protos p); discriminate. }
    destruct (kept_good k_max (map _normalize_np l) Hl) as [Hnd Hr].
    rewrite length_map in Hr.
    assert (Hk : length (kept k_max (map _normalize_np l)) = Nat.max 1 k_max).
    { apply kept_length. rewrite length_map. exact Hlen. }
    exists (kept k_max (map _normalize_np l)). split; [split; assumption|].
    split; [exact Hk|]. split; [rewrite length_map; exact Hk|].
    apply map_ext_in. intros i Hi. unfold row.
    rewrite Forall_forall in Hr. specialize (Hr i Hi).
    rewrite (nth_indep _ [] (_normalize_np []) ) by (rewrite length_map; exact Hr).
    apply map_nth.
Qed.
End StoreMore.

(* ------------------------------------------------------------------ *)
(** * The configuration: [_clamp] and [load_config] *)

Section ClampFacts.
Variables V B : Type.
Variable lt : B -> B -> bool.
Hypothesis lt_irrefl : forall a, lt a a = false.
Hypothesis lt_trans : forall a b c, lt a b = true -> lt b c = true -> lt a c = true.

Lemma lt_asym (a b : B) : lt a b = true -> lt b a = false.
Proof.
  intros Hab. destruct (lt b a) eqn:Hba; [|reflexivity].
  pose proof (lt_trans _ _ _ Hab Hba) as Haa. rewrite lt_irrefl in Haa. discriminate.
Qed.

Lemma clamp_value_bounds (x lo hi : B) :
  lt hi lo = false ->
  lt (py_max lt lo (py_min lt hi x)) lo = false
  /\ lt hi (py_max lt lo (py_min lt hi x)) = false.
Proof.
  intros Hb. unfold py_max, py_min.
  destruct (lt x hi) eqn:Hx.
  - destruct (lt lo x) eqn:Hl.
    + split; apply lt_asym; assumption.
    + split; [apply lt_irrefl | exact Hb].
  - destruct (lt lo hi) eqn:Hl.
    + split; [exact Hb | apply lt_irrefl].
    + split; [apply lt_irrefl | exact Hb].
Qed.

(** [_clamp]: with bounds in order and a default between them the answer
    lies between the bounds, whatever the value and however the conversion
    ends.  A value that does not convert gives the default, a value strictly
    inside is kept, and a value that is not below the upper bound (a NaN
    among them) gives the upper bound. *)
Theorem clamp_within_bounds (conv : V -> option B) (v : V) (lo hi dflt : B) :
  lt hi lo = false -> lt dflt lo = false -> lt hi dflt = false ->
  (lt (_clamp lt conv v lo hi dflt) lo = false
   /\ lt hi (_clamp lt conv v lo hi dflt) = false)
  /\ (conv v = None -> _clamp lt conv v lo hi dflt = dflt)
  /\ (forall x, conv v = Some x -> lt lo x = true -> lt x hi = true ->
        _clamp lt conv v lo hi dflt = x)
  /\ (forall x, conv v = Some x -> lt x hi = false -> lt lo hi = true ->
        _clamp lt conv v lo hi dflt = hi).
Proof.
  intros Hb Hd1 Hd2. unfold _clamp. repeat split.
  - destruct (conv v) as [x|]; [apply clamp_value_bounds; exact Hb | exact Hd1].
  - destruct (conv v) as [x|]; [apply clamp_value_bounds; exact Hb | exact Hd2].
  - intros E. rewrite E. reflexivity.
  - intros x E Hl Hh. rewrite E. unfold py_max, py_min. rewrite Hh, Hl. reflexivity.
  - intros x E Hh Hl. rewrite E. unfold py_max, py_min. rewrite Hh, Hl. reflexivity.
Qed.
End ClampFacts.

Section StrDictFacts.
Import String.
Local Open Scope string_scope.
Context {V : Type}.

Lemma sdict_get_set (k k' : string) (v : V) (d : sdict V) :
  sdict_get k (sdict_set k' v d) = if String.eqb k k' then Some v else sdict_get k d.
Proof.
  induction d as [|[k0 v0] r IH]; simpl.
  - reflexivity.
  - destruct (String.eqb k' k0) eqn:E0; simpl.
    + apply String.eqb_eq in E0. subst k0.
      destruct (String.eqb k k'); reflexivity.
    + destruct (String.eqb k k0) eqn:E1.
      * apply String.eqb_eq in E1. subst k0.
        rewrite String.eqb_sym, E0. reflexivity.
      * exact IH.
Qed.

Lemma sdict_get_app (k : string) (a b : sdict V) :
  sdict_get k (a ++ b)%list
  = match sdict_get k a with Some v => Some v | None => sdict_get k b end.
Proof.
  induction a as [|[k0 v0] r IH]; simpl; [reflexivity|].
  destruct (String.eqb k k0); [reflexivity | exact IH].
Qed.

Lemma sdict_get_update (k : string) (u : sdict V) : forall d : sdict V,
  sdict_get k (sdict_update d u)
  = match sdict_get k (rev u) with Some v => Some v | None => sdict_get k d end.
Proof.
  unfold sdict_update.
  induction u as [|[k' v] u IH]; intros d; simpl; [reflexivity|].
  rewrite IH, sdict_get_app, sdict_get_set. simpl.
  destruct (sdict_get k (rev u)); [reflexivity|].
  destruct (String.eqb k k'); reflexivity.
Qed.
End StrDictFacts.

Section ConfigFacts.
Import String.
Local Open Scope string_scope.
Variable float_of_str : string -> option Q.
Variable int_of_str : string -> option Z.
Variable int_of_float : Q -> option Z.

Local Notation "'load'" := (load_config float_of_str int_of_str int_of_float)
  (only parsing).
Local Notation "'fix_entry'" := (clamped float_of_str int_of_str int_of_float)
  (only parsing).

(** The dict the clamps start from. *)
Lemma clamp_float_get (k : string) (lo hi dflt : Q) (d : sdict (json Q)) (v : json Q) :
  sdict_get k d = Some v ->
  exists d', clamp_float float_of_str k lo hi dflt d = Some d'
    /\ forall k', sdict_get k' d'
         = if String.eqb k' k
           then Some (JFloat (_clamp flt (py_float float_of_str) v
                                (flit lo) (flit hi) (flit dflt)))
           else sdict_get k' d.
Proof.
  intros E. unfold clamp_float. rewrite E. eexists. split; [reflexivity|].
  intros k'. apply sdict_get_set.
Qed.

Lemma clamp_int_get (k : string) (lo hi dflt : Z) (d : sdict (json Q)) (v : json Q) :
  sdict_get k d = Some v ->
  exists d', clamp_int int_of_str int_of_float k lo hi dflt d = Some d'
    /\ forall k', sdict_get k' d'
         = if String.eqb k' k
           then Some (JInt (_clamp Z.ltb (py_int int_of_str int_of_float) v lo hi dflt))
           else sdict_get k' d.
Proof.
  intros E. unfold clamp_int. rewrite E. eexists. split; [reflexivity|].
  intros k'. apply sdict_get_set.
Qed.

Lemma defaults_kept (k : string) (u : sdict (json Q)) (v : json Q) :
  sdict_get k (@defaults Q _) = Some v ->
  exists w, sdict_get k (sdict_update defaults u) = Some w.
Proof.
  intros E. rewrite sdict_get_update, E.
  destruct (sdict_get k (rev u)) as [w|]; eexists; reflexivity.
Qed.

(** [load_config] on a dict that holds the five keys. *)
Lemma clamps_get (d : sdict (json Q)) :
  (forall k, In k clamped_keys -> exists v, sdict_get k d = Some v) ->
  exists d',
    and_then (clamp_float float_of_str "eps_sim" 0 1 (55 # 100) d) (fun d =>
    and_then (clamp_float float_of_str "match_thr" 0 1 (52 # 100) d) (fun d =>
    and_then (clamp_float float_of_str "top2_margin" 0 1 (8 # 100) d) (fun d =>
    and_then (clamp_int int_of_str int_of_float "min_face" 0 10000 110 d) (fun d =>
    clamp_int int_of_str int_of_float "det_size" 64 4096 640 d)))) = Some d'
    /\ forall k, sdict_get k d' = option_map (fix_entry k) (sdict_get k d).
Proof.
  intros Hk.
  destruct (Hk "eps_sim" ltac:(simpl; tauto)) as [v1 E1].
  destruct (Hk "match_thr" ltac:(simpl; tauto)) as [v2 E2].
  destruct (Hk "top2_margin" ltac:(simpl; tauto)) as [v3 E3].
  destruct (Hk "min_face" ltac:(simpl; tauto)) as [v4 E4].
  destruct (Hk "det_size" ltac:(simpl; tauto)) as [v5 E5].
  destruct (clamp_float_get "eps_sim" 0 1 (55 # 100) d v1 E1) as [d1 [R1 G1]].
  rewrite R1. cbn [and_then].
  assert (F2 : sdict_get "match_thr" d1 = Some v2) by (rewrite G1; exact E2).
  destruct (clamp_float_get "match_thr" 0 1 (52 # 100) d1 v2 F2) as [d2 [R2 G2]].
  rewrite R2. cbn [and_then].
  assert (F3 : sdict_get "top2_margin" d2 = Some v3) by (rewrite G2, G1; exact E3).
  destruct (clamp_float_get "top2_margin" 0 1 (8 # 100) d2 v3 F3) as [d3 [R3 G3]].
  rewrite R3. cbn [and_then].
  assert (F4 : sdict_get "min_face" d3 = Some v4) by (rewrite G3, G2, G1; exact E4).
  destruct (clamp_int_get "min_face" 0 10000 110 d3 v4 F4) as [d4 [R4 G4]].
  rewrite R4. cbn [and_then].
  assert (F5 : sdict_get "det_size" d4 = Some v5) by (rewrite G4, G3, G2, G1; exact E5).
  destruct (clamp_int_get "det_size" 64 4096 640 d4 v5 F5) as [d5 [R5 G5]].
  exists d5. split; [exact R5|].
  intros k. rewrite G5, G4, G3, G2, G1. unfold clamped.
  destruct (String.eqb k "det_size") eqn:K5.
  { apply String.eqb_eq in K5. subst k. rewrite E5. reflexivity. }
  destruct (String.eqb k "min_face") eqn:K4.
  { apply String.eqb_eq in K4. subst k. rewrite E4. reflexivity. }
  destruct (String.eqb k "top2_margin") eqn:K3.
  { apply String.eqb_eq in K3. subst k. rewrite E3. reflexivity. }
  destruct (String.eqb k "match_thr") eqn:K2.
  { apply String.eqb_eq in K2. subst k. rewrite E2. reflexivity. }
  destruct (String.eqb k "eps_sim") eqn:K1.
  { apply String.eqb_eq in K1. subst k. rewrite E1. reflexivity. }
  destruct (sdict_get k d); reflexivity.
Qed.
Lemma load_config_get (f : config_file Q) :
  exists d, load f = Some d
    /\ forall k, sdict_get k d
         = option_map (fix_entry k)
             (sdict_get k match f with
                          | Config (JObj u) => sdict_update defaults u
                          | _ => defaults
                          end).
Proof.
  unfold load_config. apply clamps_get.
  intros k Hk.
  assert (Hd : exists v, sdict_get k (@defaults Q _) = Some v).
  { simpl in Hk. destruct Hk as [E|[E|[E|[E|[E|[]]]]]]; subst k;
      eexists; reflexivity. }
  destruct Hd as [v Hv].
  destruct f as [| |j]; try (exists v; exact Hv).
  destruct j; try (exists v; exact Hv).
  exact (defaults_kept k _ v Hv).
Qed.

Lemma clamp_float_range (v : json Q) (lo hi dflt : Q) :
  (lo <= hi)%Q -> (lo <= dflt <= hi)%Q ->
  (lo <= _clamp flt (py_float float_of_str) v lo hi dflt <= hi)%Q.
Proof.
  intros Hb [Hd1 Hd2]. unfold _clamp.
  destruct (py_float float_of_str v) as [x|]; [|split; assumption].
  destruct (clamp_value_bounds Q (@flt Q _) (@flt_irrefl Q _ _) (@flt_trans Q _ _) x lo hi) as [B1 B2].
  { apply Q_flt_false. exact Hb. }
  split; apply Q_flt_false; assumption.
Qed.

Lemma clamp_int_range (v : json Q) (lo hi dflt : Z) :
  (lo <= hi)%Z -> (lo <= dflt <= hi)%Z ->
  (lo <= _clamp Z.ltb (py_int int_of_str int_of_float) v lo hi dflt <= hi)%Z.
Proof.
  intros Hb Hd. unfold _clamp, py_max, py_min.
  destruct (py_int int_of_str int_of_float v) as [x|]; [|exact Hd].
  destruct (Z.ltb_spec x hi), (Z.ltb_spec lo x), (Z.ltb_spec lo hi); lia.
Qed.

(** [load_config] always answers.  Whatever the file holds, the three
    similarity settings come back between 0 and 1, [min_face] between 0 and
    10000 and [det_size] between 64 and 4096; without a file that decodes to
    an object the answer is the table of defaults. *)
Theorem load_config_bounds (f : config_file Q) :
  exists d, load f = Some d
    /\ float_within 0 1 (sdict_get "eps_sim" d)
    /\ float_within 0 1 (sdict_get "match_thr" d)
    /\ float_within 0 1 (sdict_get "top2_margin" d)
    /\ int_within 0 10000 (sdict_get "min_face" d)
    /\ int_within 64 4096 (sdict_get "det_size" d)
    /\ ((forall u, f <> Config (JObj u)) -> d = defaults).
Proof.
  destruct (load_config_get f) as [d [R G]]. exists d. split; [exact R|].
  assert (Hin : forall k, In k clamped_keys ->
            exists v, sdict_get k match f with
                                  | Config (JObj u) => sdict_update defaults u
                                  | _ => defaults
                                  end = Some v).
  { intros k Hk.
    assert (Hd : exists v, sdict_get k (@defaults Q _) = Some v).
    { simpl in Hk. destruct Hk as [E|[E|[E|[E|[E|[]]]]]]; subst k;
        eexists; reflexivity. }
    destruct Hd as [v Hv].
    destruct f as [| |j]; try (exists v; exact Hv).
    destruct j; try (exists v; exact Hv).
    exact (defaults_kept k _ v Hv). }
  repeat split.
  - destruct (Hin "eps_sim" ltac:(simpl; tauto)) as [v E].
    rewrite G, E. eexists. split; [reflexivity|].
    apply clamp_float_range; [discriminate | split; discriminate].
  - destruct (Hin "match_thr" ltac:(simpl; tauto)) as [v E].
    rewrite G, E. eexists. split; [reflexivity|].
    apply clamp_float_range; [discriminate | split; discriminate].
  - destruct (Hin "top2_margin" ltac:(simpl; tauto)) as [v E].
    rewrite G, E. eexists. split; [reflexivity|].
    apply clamp_float_range; [discriminate | split; discriminate].
  - destruct (Hin "min_face" ltac:(simpl; tauto)) as [v E].
    rewrite G, E. eexists. split; [reflexivity|].
    apply clamp_int_range; lia.
  - destruct (Hin "det_size" ltac:(simpl; tauto)) as [v E].
    rewrite G, E. eexists. split; [reflexivity|].
    apply clamp_int_range; lia.
  - intros Hf.
    assert (E : load f = Some defaults).
    { destruct f as [| |j]; try reflexivity.
      destruct j; try reflexivity. exfalso. exact (Hf _ eq_refl). }
    rewrite E in R. injection R as R. symmetry. exact R.
Qed.

Lemma not_clamped (k : string) (v : json Q) :
  ~ In k clamped_keys -> fix_entry k v = v.
Proof.
  intros Hk. unfold clamped.
  destruct (String.eqb k "eps_sim") eqn:K1.
  { apply String.eqb_eq in K1. subst k. exfalso. apply Hk. simpl. tauto. }
  destruct (String.eqb k "match_thr") eqn:K2.
  { apply String.eqb_eq in K2. subst k. exfalso. apply Hk. simpl. tauto. }
  destruct (String.eqb k "top2_margin") eqn:K3.
  { apply String.eqb_eq in K3. subst k. exfalso. apply Hk. simpl. tauto. }
  destruct (String.eqb k "min_face") eqn:K4.
  { apply String.eqb_eq in K4. subst k. exfalso. apply Hk. simpl. tauto. }
  destruct (String.eqb k "det_size") eqn:K5.
  { apply String.eqb_eq in K5. subst k. exfalso. apply Hk. simpl. tauto. }
  reflexivity.
Qed.

Lemma clamp_float_inside (x lo hi dflt : Q) :
  (lo <= x <= hi)%Q ->
  (_clamp flt (py_float float_of_str) (JFloat x) lo hi dflt == x)%Q.
Proof.
  intros [H1 H2]. unfold _clamp, py_float, py_max, py_min.
  destruct (flt x hi) eqn:Hx.
  - destruct (flt lo x) eqn:Hl; [reflexivity|].
    apply Q_flt_false in Hl. apply Qle_antisym; assumption.
  - apply Q_flt_false in Hx.
    assert (E : (x == hi)%Q) by (apply Qle_antisym; assumption).
    destruct (flt lo hi) eqn:Hl; [symmetry; exact E|].
    apply Q_flt_false in Hl. rewrite E. apply Qle_antisym; [|exact Hl].
    rewrite <- E. exact H1.
Qed.

Lemma clamp_int_inside (z lo hi dflt : Z) :
  (lo <= z <= hi)%Z ->
  _clamp Z.ltb (py_int int_of_str int_of_float) (JInt z) lo hi dflt = z.
Proof.
  intros Hz. unfold _clamp, py_int, py_max, py_min.
  destruct (Z.ltb_spec z hi), (Z.ltb_spec lo z), (Z.ltb_spec lo hi); lia.
Qed.

(** How the members of the file show in the answer of [load_config].  A key
    that is not clamped holds what the last member of that name holds,
    unchecked, or its default.  A similarity setting given as a number of
    [0, 1] and a size given as an integer inside its bounds are kept; a
    clamped key given as [null] gets its default. *)
Theorem load_config_entries (u : sdict (json Q)) :
  exists d, load (Config (JObj u)) = Some d
    /\ (forall k, ~ In k clamped_keys ->
          sdict_get k d = match file_entry k u with
                          | Some v => Some v
                          | None => sdict_get k defaults
                          end)
    /\ (forall k x, In k ["eps_sim"; "match_thr"; "top2_margin"] ->
          file_entry k u = Some (JFloat x) -> (0 <= x <= 1)%Q ->
          exists r, sdict_get k d = Some (JFloat r) /\ (r == x)%Q)
    /\ (forall z, file_entry "min_face" u = Some (JInt z) -> (0 <= z <= 10000)%Z ->
          sdict_get "min_face" d = Some (JInt z))
    /\ (forall z, file_entry "det_size" u = Some (JInt z) -> (64 <= z <= 4096)%Z ->
          sdict_get "det_size" d = Some (JInt z))
    /\ (forall k, In k clamped_keys -> file_entry k u = Some JNull ->
          sdict_get k d = sdict_get k defaults).
Proof.
  destruct (load_config_get (Config (JObj u))) as [d [R G]].
  exists d. split; [exact R|].
  assert (G' : forall k, sdict_get k d
             = option_map (fix_entry k)
                 match file_entry k u with
                 | Some v => Some v
                 | None => sdict_get k defaults
                 end).
  { intros k. rewrite G, sdict_get_update. reflexivity. }
  repeat split.
  - intros k Hk. rewrite G'.
    destruct (file_entry k u) as [v|]; cbn [option_map].
    + rewrite not_clamped by exact Hk. reflexivity.
    + destruct (sdict_get k defaults) as [v|]; cbn [option_map]; [|reflexivity].
      rewrite not_clamped by exact Hk. reflexivity.
  - intros k x Hk E Hx. rewrite G', E. simpl in Hk.
    destruct Hk as [K|[K|[K|[]]]]; subst k; eexists; (split; [reflexivity|]);
      apply clamp_float_inside; exact Hx.
  - intros z E Hz. rewrite G', E. simpl. unfold clamped. simpl.
    rewrite clamp_int_inside by exact Hz. reflexivity.
  - intros z E Hz. rewrite G', E. simpl. unfold clamped. simpl.
    rewrite clamp_int_inside by exact Hz. reflexivity.
  - intros k Hk E. rewrite G', E. simpl in Hk.
    destruct Hk as [K|[K|[K|[K|[K|[]]]]]]; subst k; reflexivity.
Qed.
End ConfigFacts.

(* ------------------------------------------------------------------ *)
(** * [safe_copy]: the name a copy gets *)

Section StringFacts.
Import String.
Local Open Scope string_scope.

Lemma str_length_app (a b : string) : length (a ++ b) = (length a + length b)%nat.
Proof. induction a as [|x a IH]; simpl; [reflexivity | rewrite IH; reflexivity]. Qed.

Lemma str_app_inv_l (a b c : string) : a ++ b = a ++ c -> b = c.
Proof.
  induction a as [|x a IH]; simpl; intros E; [exact E|].
  injection E as E. exact (IH E).
Qed.

Lemma str_app_inv_r (c : string) : forall a b : string, a ++ c = b ++ c -> a = b.
Proof.
  induction a as [|x a IH]; intros [|y b] E; simpl in E.
  - reflexivity.
  - exfalso. apply (f_equal length) in E. simpl in E.
    rewrite str_length_app in E. lia.
  - exfalso. apply (f_equal length) in E. simpl in E.
    rewrite str_length_app in E. lia.
  - injection E as Exy E. subst y. rewrite (IH b E). reflexivity.
Qed.

Lemma dec_inj (i j : nat) : dec i = dec j -> i = j.
Proof.
  unfold dec. intros E.
  apply (f_equal DecimalString.NilEmpty.uint_of_string) in E.
  rewrite !DecimalString.NilEmpty.usu in E. injection E as E.
  apply (f_equal Nat.of_uint) in E.
  rewrite !DecimalNat.Unsigned.of_to in E. exact E.
Qed.

Lemma numbered_inj (s : source) (i j : nat) : numbered s i = numbered s j -> i = j.
Proof.
  unfold numbered. intros E.
  apply str_app_inv_l in E. apply str_app_inv_l in E.
  apply str_app_inv_r in E. exact (dec_inj i j E).
Qed.

Lemma numbered_not_name (s : source) (i : nat) : numbered s i <> src_name s.
Proof.
  unfold numbered, src_name. intros E. apply str_app_inv_l in E.
  apply (f_equal length) in E. simpl in E. rewrite str_length_app in E.
  simpl in E. lia.
Qed.
End StringFacts.

Section SafeCopyFacts.
Import String.
Local Open Scope string_scope.
Context {E : Type}.

Lemma exists_in_In (n : string) (d : sdict E) :
  exists_in n d = true -> In n (map fst d).
Proof.
  unfold exists_in. induction d as [|[k v] r IH]; simpl; [discriminate|].
  destruct (String.eqb n k) eqn:K.
  - apply String.eqb_eq in K. intros _. left. symmetry. exact K.
  - intros H. right. exact (IH H).
Qed.

(** The numbered names are distinct, so a folder holds at most as many of
    them as it has entries. *)
Lemma all_taken_bound (s : source) (d : sdict E) (m : nat) :
  (forall j, (1 <= j <= m)%nat -> exists_in (numbered s j) d = true) ->
  (m <= List.length d)%nat.
Proof.
  intros Hall.
  assert (Hnd : NoDup (map (numbered s) (seq 1 m))).
  { clear Hall. generalize 1%nat. induction m as [|m IHm]; intros a; simpl; constructor.
    - intros Hin. apply in_map_iff in Hin. destruct Hin as [j [Ej Hj]].
      apply numbered_inj in Ej. apply in_seq in Hj. lia.
    - apply IHm. }
  assert (Hin : incl (map (numbered s) (seq 1 m)) (map fst d)).
  { intros x Hx. apply in_map_iff in Hx. destruct Hx as [j [Ej Hj]]. subst x.
    apply in_seq in Hj. apply exists_in_In. apply Hall. lia. }
  pose proof (NoDup_incl_length Hnd Hin) as Hle.
  rewrite !length_map, length_seq in Hle. exact Hle.
Qed.

Lemma free_index_found (s : source) (d : sdict E) : forall (turns i : nat),
  (1 <= i)%nat ->
  (forall j, (1 <= j < i)%nat -> exists_in (numbered s j) d = true) ->
  (List.length d + 2 <= i + turns)%nat ->
  exists r, free_index turns s d i = Some r /\ (i <= r)%nat
    /\ exists_in (numbered s r) d = false
    /\ forall j, (1 <= j < r)%nat -> exists_in (numbered s j) d = true.
Proof.
  induction turns as [|t IH]; intros i Hi Hbelow Hfuel.
  - exfalso.
    assert (Hb : (i - 1 <= List.length d)%nat).
    { apply (all_taken_bound s). intros j Hj. apply Hbelow. lia. }
    lia.
  - simpl. destruct (exists_in (numbered s i) d) eqn:Ei.
    + destruct (IH (S i)) as [r [R [Hr [Hfree Hb]]]].
      * lia.
      * intros j Hj. destruct (Nat.eq_dec j i) as [->|Hne]; [exact Ei|].
        apply Hbelow. lia.
      * lia.
      * exists r. repeat split; [exact R | lia | exact Hfree | exact Hb].
    + exists i. repeat split; [lia | exact Ei | exact Hbelow].
Qed.

Lemma destination_spec (s : source) (d : sdict E) :
  exists n, destination s d = Some n
    /\ exists_in n d = false
    /\ (exists_in (src_name s) d = false -> n = src_name s)
    /\ (exists_in (src_name s) d = true ->
        exists i, (1 <= i)%nat /\ n = numbered s i
          /\ forall j, (1 <= j < i)%nat -> exists_in (numbered s j) d = true).
Proof.
  unfold destination. destruct (exists_in (src_name s) d) eqn:En.
  - destruct (free_index_found s d (S (List.length d)) 1) as [r [R [Hr [Hfree Hb]]]].
    + lia.
    + intros j Hj. lia.
    + lia.
    + rewrite R. simpl. exists (numbered s r). repeat split.
      * exact Hfree.
      * discriminate.
      * intros _. exists r. repeat split; [exact Hr | exact Hb].
  - exists (src_name s). repeat split; [exact En | discriminate].
Qed.

Lemma sdict_set_fresh (k : string) (v : E) (d : sdict E) :
  exists_in k d = false -> sdict_set k v d = (d ++ [(k, v)])%list.
Proof.
  unfold exists_in. induction d as [|[k0 v0] r IH]; simpl; [reflexivity|].
  destruct (String.eqb k k0); [discriminate|].
  intros H. rewrite (IH H). reflexivity.
Qed.

Lemma exists_in_app (k : string) (a b : sdict E) :
  exists_in k (a ++ b)%list = exists_in k a || exists_in k b.
Proof.
  unfold exists_in. rewrite sdict_get_app.
  destruct (sdict_get k a); [reflexivity|]. destruct (sdict_get k b); reflexivity.
Qed.

Lemma exists_in_one (k k' : string) (v : E) :
  exists_in k [(k', v)] = String.eqb k k'.
Proof. unfold exists_in. simpl. destruct (String.eqb k k'); reflexivity. Qed.

(** With the name of the source taken, the numbered names the folder holds
    from 1 on leave room: they are fewer than its entries. *)
Lemma taken_with_name_bound (s : source) (d : sdict E) (m : nat) :
  exists_in (src_name s) d = true ->
  (forall j, (1 <= j <= m)%nat -> exists_in (numbered s j) d = true) ->
  (S m <= List.length d)%nat.
Proof.
  intros Hname Hall.
  assert (Hnd : NoDup (src_name s :: map (numbered s) (seq 1 m))).
  { constructor.
    - intros Hin. apply in_map_iff in Hin. destruct Hin as [j [Ej _]].
      exact (numbered_not_name s j Ej).
    - clear Hall. generalize 1%nat. induction m as [|m IHm]; intros a; simpl; constructor.
      + intros Hin. apply in_map_iff in Hin. destruct Hin as [j [Ej Hj]].
        apply numbered_inj in Ej. apply in_seq in Hj. lia.
      + apply IHm. }
  assert (Hin : incl (src_name s :: map (numbered s) (seq 1 m)) (map fst d)).
  { intros x [<-|Hx]; [apply exists_in_In; exact Hname|].
    apply in_map_iff in Hx. destruct Hx as [j [Ej Hj]]. subst x.
    apply in_seq in Hj. apply exists_in_In. apply Hall. lia. }
  pose proof (NoDup_incl_length Hnd Hin) as Hle.
  simpl in Hle. rewrite !length_map, length_seq in Hle. exact Hle.
Qed.

(** [safe_copy] and [safe_move] always settle on a name, and on one the
    folder does not hold: the name of the source when it is free, and
    otherwise the stem followed by the least number from 1 on whose name is
    free, a number below the count of the entries of the folder. *)
Theorem destination_is_free (s : source) (d : sdict E) :
  exists n, destination s d = Some n
    /\ exists_in n d = false
    /\ (exists_in (src_name s) d = false -> n = src_name s)
    /\ (exists_in (src_name s) d = true ->
        exists i, (1 <= i <= List.length d)%nat /\ n = numbered s i
          /\ forall j, (1 <= j < i)%nat -> exists_in (numbered s j) d = true).
Proof.
  destruct (destination_spec s d) as [n [R [Hfree [Hname Hnum]]]].
  exists n. split; [exact R|]. split; [exact Hfree|]. split; [exact Hname|].
  intros Hn. destruct (Hnum Hn) as [i [Hi [En Hb]]].
  exists i. split; [|split; [exact En | exact Hb]].
  split; [exact Hi|].
  assert (Hle : (S (i - 1) <= List.length d)%nat).
  { apply (taken_with_name_bound s d (i - 1) Hn). intros j Hj. apply Hb. lia. }
  lia.
Qed.

(** A copy of a readable source succeeds and only adds: the folder after
    is the folder before followed by one new entry with what the source
    holds, so no entry is overwritten, renamed or dropped.  A source that
    cannot be read leaves the call raising. *)
Theorem safe_copy_only_adds (s : source) (c : E) (d : sdict E) :
  safe_copy s None d = None
  /\ exists n, safe_copy s (Some c) d = Some (n, (d ++ [(n, c)])%list)
       /\ exists_in n d = false
       /\ sdict_get n (d ++ [(n, c)])%list = Some c
       /\ forall k v, sdict_get k d = Some v -> sdict_get k (d ++ [(n, c)])%list = Some v.
Proof.
  split.
  - unfold safe_copy. destruct (destination s d); reflexivity.
  - destruct (destination_spec s d) as [n [R [Hfree _]]].
    exists n. unfold safe_copy. rewrite R, (sdict_set_fresh n c d Hfree).
    repeat split.
    + exact Hfree.
    + rewrite sdict_get_app. unfold exists_in in Hfree.
      destruct (sdict_get n d); [discriminate|]. simpl.
      rewrite String.eqb_refl. reflexivity.
    + intros k v Hk. rewrite sdict_get_app, Hk. reflexivity.
Qed.

Lemma copy_times_numbered (s : source) (c : E) : forall (m i : nat) (d : sdict E),
  (1 <= i)%nat ->
  exists_in (src_name s) d = true ->
  (forall j, (1 <= j < i)%nat -> exists_in (numbered s j) d = true) ->
  (forall j, (i <= j)%nat -> exists_in (numbered s j) d = false) ->
  copy_times m s c d
  = Some (map (numbered s) (seq i m),
          (d ++ map (fun j => (numbered s j, c)) (seq i m))%list).
Proof.
  induction m as [|m IH]; intros i d Hi Hn Hlo Hhi.
  - simpl. rewrite app_nil_r. reflexivity.
  - cbn [copy_times].
    destruct (destination_spec s d) as [n [R [Hfree [_ Hnum]]]].
    destruct (Hnum Hn) as [r [Hr [En Hb]]]. subst n.
    assert (Eri : r = i).
    { destruct (Nat.lt_trichotomy r i) as [Hlt|[Heq|Hgt]]; [|exact Heq|].
      - rewrite (Hlo r) in Hfree by lia. discriminate.
      - pose proof (Hb i ltac:(lia)) as Hx. rewrite (Hhi i) in Hx by lia.
        discriminate. }
    subst r. unfold safe_copy. rewrite R, (sdict_set_fresh _ c d Hfree).
    rewrite (IH (S i) (d ++ [(numbered s i, c)])%list).
    + simpl. rewrite <- app_assoc. reflexivity.
    + lia.
    + rewrite exists_in_app, Hn. reflexivity.
    + intros j Hj. rewrite exists_in_app, exists_in_one.
      destruct (Nat.eq_dec j i) as [->|Hne].
      * rewrite String.eqb_refl. apply orb_true_r.
      * rewrite (Hlo j) by lia. reflexivity.
    + intros j Hj. rewrite exists_in_app, exists_in_one, (Hhi j) by lia.
      simpl. apply String.eqb_neq. intros Ej. apply numbered_inj in Ej. lia.
Qed.

(** Copying one source again and again into a folder that holds none of
    its names gives the name of the source first and then the stem
    numbered 1, 2, 3, ... in this order, each entry holding what the source
    holds. *)
Theorem repeated_copies_are_numbered (s : source) (c : E) (d : sdict E) (m : nat) :
  (forall n, family s n -> exists_in n d = false) ->
  copy_times (S m) s c d
  = Some (src_name s :: map (numbered s) (seq 1 m),
          (d ++ (src_name s, c) :: map (fun j => (numbered s j, c)) (seq 1 m))%list).
Proof.
  intros Hfam. cbn [copy_times].
  assert (Hn : exists_in (src_name s) d = false) by (apply Hfam; left; reflexivity).
  destruct (destination_spec s d) as [n [R [Hfree [Hname _]]]].
  rewrite (Hname Hn) in R. unfold safe_copy. rewrite R, (sdict_set_fresh _ c d Hn).
  rewrite (copy_times_numbered s c m 1 (d ++ [(src_name s, c)])%list).
  - rewrite <- app_assoc. reflexivity.
  - lia.
  - rewrite exists_in_app, exists_in_one, String.eqb_refl. apply orb_true_r.
  - intros j Hj. lia.
  - intros j Hj. rewrite exists_in_app, exists_in_one.
    rewrite (Hfam (numbered s j)) by (right; exists j; reflexivity).
    simpl. apply String.eqb_neq. apply numbered_not_name.
Qed.
End SafeCopyFacts.

(* ------------------------------------------------------------------ *)
(** * [_ip_is_private]: what the prefixes cover *)

Section NetworkFacts.
Import String.
Local Open Scope string_scope.

(** The test is one of text prefixes.  Every address that starts with
    [172.2] counts as private, [172.2.x.x] and [172.200.x.x] to
    [172.255.x.x] included, while no address of [172.30.x.x] and
    [172.31.x.x] does. *)
Theorem private_test_is_textual (rest : string) :
  _ip_is_private ("172.2" ++ rest) = true
  /\ _ip_is_private ("172.30." ++ rest) = false
  /\ _ip_is_private ("172.31." ++ rest) = false.
Proof.
  split; [|split; reflexivity].
  unfold _ip_is_private, PRIVATE_NETS. simpl.
  destruct rest; reflexivity.
Qed.
End NetworkFacts.

(* ------------------------------------------------------------------ *)
(** * The copy loop of [match_and_apply] *)

Section CopyFacts.
Context {E : Type}.
Variable read : dict (sdict E) -> String.string * String.string -> option E.

Lemma image_eqb_key (p q : image) :
  image_eqb p q = true <-> image_key p = image_key q.
Proof.
  unfold image_eqb, image_key. rewrite andb_true_iff, !String.eqb_eq. split.
  - intros [H1 H2]. rewrite H1, H2. reflexivity.
  - intros H. injection H as H1 H2. split; assumption.
Qed.

Lemma image_eqb_same_key (p q k : image) :
  image_key p = image_key q -> image_eqb p k = image_eqb q k.
Proof.
  unfold image_eqb, image_key. intros H. injection H as H1 H2.
  rewrite H1, H2. reflexivity.
Qed.

Lemma was_copied_key (n : Z) (p q : image) (st : copy_state E) :
  image_key p = image_key q -> was_copied n p st = was_copied n q st.
Proof.
  intros H. unfold was_copied.
  induction (copied st) as [|k r IH]; simpl; [reflexivity|].
  rewrite IH, (image_eqb_same_key p q (snd k) H). reflexivity.
Qed.

Lemma dict_get_or_set {V : Type} (n k : Z) (v dflt : V) (d : dict V) :
  dict_get_or n (dict_set k v d) dflt = if Z.eqb n k then v else dict_get_or n d dflt.
Proof.
  unfold dict_get_or. destruct (Z.eqb_spec n k) as [->|Hne].
  - rewrite dict_get_set_same. reflexivity.
  - rewrite dict_get_set_other by exact Hne. reflexivity.
Qed.

Lemma exists_in_false (x : String.string) (d : sdict E) :
  exists_in x d = false <-> ~ In x (map fst d).
Proof.
  split.
  - unfold exists_in. induction d as [|[k v] r IH]; simpl; [tauto|].
    destruct (String.eqb x k) eqn:K; [discriminate|].
    intros H [Hk|Hin]; [|exact (IH H Hin)].
    apply String.eqb_neq in K. apply K. symmetry. exact Hk.
  - intros Hn. destruct (exists_in x d) eqn:Ex; [|reflexivity].
    exfalso. exact (Hn (exists_in_In x d Ex)).
Qed.

Lemma safe_copy_some (s : source) (c : E) (d : sdict E) :
  exists n, safe_copy s (Some c) d = Some (n, (d ++ [(n, c)])%list)
    /\ exists_in n d = false.
Proof.
  destruct (destination_spec s d) as [n [R [Hfree _]]].
  exists n. unfold safe_copy. rewrite R, (sdict_set_fresh n c d Hfree).
  split; [reflexivity | exact Hfree].
Qed.

Lemma safe_copy_none (s : source) (d : sdict E) : safe_copy s None d = None.
Proof. unfold safe_copy. destruct (destination s d); reflexivity. Qed.

Lemma extends_refl (st : copy_state E) : extends st st.
Proof.
  intros n. exists [], []. rewrite !app_nil_r. repeat split.
  - intros x [].
  - constructor.
Qed.

Lemma extends_trans (a b c : copy_state E) : extends a b -> extends b c -> extends a c.
Proof.
  intros Hab Hbc n.
  destruct (Hab n) as [ad1 [nw1 [F1 [L1 [Len1 [Free1 Nd1]]]]]].
  destruct (Hbc n) as [ad2 [nw2 [F2 [L2 [Len2 [Free2 Nd2]]]]]].
  exists (ad1 ++ ad2), (nw1 ++ nw2).
  assert (Hfree2 : forall x, In x (map fst ad2) ->
            exists_in x (folder_of n a) = false /\ ~ In x (map fst ad1)).
  { intros x Hx. specialize (Free2 x Hx). rewrite F1, exists_in_app in Free2.
    apply orb_false_iff in Free2. destruct Free2 as [Fa Fb].
    split; [exact Fa|]. apply exists_in_false. exact Fb. }
  repeat split.
  - rewrite F2, F1, app_assoc. reflexivity.
  - rewrite L2, L1, app_assoc. reflexivity.
  - rewrite !length_app. lia.
  - intros x Hx. rewrite map_app in Hx. apply in_app_iff in Hx.
    destruct Hx as [Hx|Hx]; [exact (Free1 x Hx) | exact (proj1 (Hfree2 x Hx))].
  - rewrite map_app. apply NoDup_app; [exact Nd1 | exact Nd2 |].
    intros x H1 H2. exact (proj2 (Hfree2 x H2) H1).
Qed.

Lemma copy_one_extends (num : Z) (st : copy_state E) (p : image) :
  extends st (copy_one read num st p).
Proof.
  unfold copy_one. destruct (was_copied num p st); [apply extends_refl|].
  destruct (read (folders st) (image_key p)) as [c|].
  - destruct (safe_copy_some (img_file p) c (folder_of num st)) as [x [R Hfree]].
    rewrite R. intros n. unfold folder_of, log_of. simpl.
    rewrite !dict_get_or_set. destruct (Z.eqb_spec n num) as [->|Hne].
    + exists [(x, c)], [p]. repeat split.
      * intros y [<-|[]]. exact Hfree.
      * simpl. constructor; [intros [] | constructor].
    + exists [], []. rewrite !app_nil_r. repeat split.
      * intros y [].
      * constructor.
  - rewrite safe_copy_none. intros n. unfold folder_of, log_of. simpl.
    rewrite dict_get_or_set. exists [], []. rewrite !app_nil_r.
    destruct (Z.eqb_spec n num) as [->|Hne]; repeat split;
      try (intros y []); constructor.
Qed.

Lemma copy_cluster_extends (num : Z) (imgs : list image) : forall st : copy_state E,
  extends st (fold_left (copy_one read num) imgs st).
Proof.
  induction imgs as [|p r IH]; intros st; simpl; [apply extends_refl|].
  exact (extends_trans _ _ _ (copy_one_extends num st p) (IH _)).
Qed.

Lemma copy_images_extends (assigned new_nums : dict Z) (images : dict (list image))
    (eligible : list Z) : forall st : copy_state E,
  extends st (copy_images read eligible assigned new_nums images st).
Proof.
  unfold copy_images.
  induction eligible as [|cid r IH]; intros st; simpl; [apply extends_refl|].
  destruct (number_of assigned new_nums cid) as [num|]; [|apply IH].
  exact (extends_trans _ _ _ (copy_cluster_extends num _ st) (IH _)).
Qed.

(** ** Each pair once *)

Lemma was_copied_cons (n num : Z) (q p : image) (st : copy_state E)
    (fs : dict (sdict E)) (a : dict (list image)) :
  was_copied n q (mkCopy fs ((num, p) :: copied st) a)
  = (Z.eqb n num && image_eqb q p) || was_copied n q st.
Proof. reflexivity. Qed.

Lemma copy_one_logged (num : Z) (st : copy_state E) (p : image) :
  logged st -> logged (copy_one read num st p).
Proof.
  intros [Hin Hnd]. unfold copy_one.
  destruct (was_copied num p st) eqn:Hw; [split; assumption|].
  destruct (safe_copy (img_file p) (read (folders st) (image_key p)) (folder_of num st))
    as [[x d']|].
  - split.
    + intros n q Hq. rewrite was_copied_cons. unfold log_of in Hq. simpl in Hq.
      rewrite dict_get_or_set in Hq. destruct (Z.eqb_spec n num) as [->|Hne].
      * apply in_app_iff in Hq. destruct Hq as [Hq|[<-|[]]].
        -- rewrite (Hin num q Hq). apply orb_true_r.
        -- simpl. rewrite (proj2 (image_eqb_key p p) eq_refl). reflexivity.
      * rewrite (Hin n q Hq). apply orb_true_r.
    + intros n. unfold log_of. simpl. rewrite dict_get_or_set.
      destruct (Z.eqb_spec n num) as [->|Hne]; [|apply Hnd].
      rewrite map_app. apply NoDup_app; [apply Hnd | simpl; constructor; [intros [] | constructor] |].
      intros k Hk [Hp|[]]. apply in_map_iff in Hk. destruct Hk as [q [Eq Hq]].
      pose proof (Hin num q Hq) as Hwq.
      rewrite (was_copied_key num q p st) in Hwq by congruence. congruence.
  - split.
    + intros n q Hq. rewrite was_copied_cons.
      change (log_of n (mkCopy (dict_set num (folder_of num st) (folders st))
                          ((num, p) :: copied st) (audit_copied st)))
        with (log_of n st) in Hq.
      rewrite (Hin n q Hq). apply orb_true_r.
    + exact Hnd.
Qed.

Lemma copy_cluster_logged (num : Z) (imgs : list image) : forall st : copy_state E,
  logged st -> logged (fold_left (copy_one read num) imgs st).
Proof.
  induction imgs as [|p r IH]; intros st H; simpl; [exact H|].
  apply IH. apply copy_one_logged. exact H.
Qed.

Lemma copy_images_logged (assigned new_nums : dict Z) (images : dict (list image))
    (eligible : list Z) : forall st : copy_state E,
  logged st -> logged (copy_images read eligible assigned new_nums images st).
Proof.
  unfold copy_images.
  induction eligible as [|cid r IH]; intros st H; simpl; [exact H|].
  destruct (number_of assigned new_nums cid) as [num|]; [|apply IH; exact H].
  apply IH. apply copy_cluster_logged. exact H.
Qed.

(** ** Where an audit entry comes from *)

Lemma copy_one_origin (num : Z) (st : copy_state E) (p : image) (n : Z) (q : image) :
  In q (log_of n (copy_one read num st p)) ->
  In q (log_of n st)
  \/ (n = num /\ q = p /\ exists fs, read fs (image_key p) <> None).
Proof.
  unfold copy_one. destruct (was_copied num p st); [left; assumption|].
  destruct (read (folders st) (image_key p)) as [c|] eqn:Er.
  - destruct (safe_copy_some (img_file p) c (folder_of num st)) as [x [R Hfree]].
    rewrite R. unfold log_of. simpl. rewrite dict_get_or_set.
    destruct (Z.eqb_spec n num) as [->|Hne]; [|left; assumption].
    intros Hq. apply in_app_iff in Hq. destruct Hq as [Hq|[<-|[]]]; [left; exact Hq|].
    right. split; [reflexivity|]. split; [reflexivity|].
    exists (folders st). rewrite Er. discriminate.
  - rewrite safe_copy_none. intros Hq. left. exact Hq.
Qed.

Lemma copy_cluster_origin (num : Z) (imgs : list image) (n : Z) (q : image) :
  forall st : copy_state E,
  In q (log_of n (fold_left (copy_one read num) imgs st)) ->
  In q (log_of n st)
  \/ (n = num /\ In q imgs /\ exists fs, read fs (image_key q) <> None).
Proof.
  induction imgs as [|p r IH]; intros st Hq; simpl in Hq; [left; exact Hq|].
  destruct (IH _ Hq) as [H1|[En [Hin Hr]]].
  - destruct (copy_one_origin num st p n q H1) as [H2|[En [Eq Hr]]].
    + left. exact H2.
    + right. subst q. split; [exact En|]. split; [left; reflexivity | exact Hr].
  - right. split; [exact En|]. split; [right; exact Hin | exact Hr].
Qed.

Lemma copy_images_origin (assigned new_nums : dict Z) (images : dict (list image))
    (n : Z) (q : image) (eligible : list Z) : forall st : copy_state E,
  In q (log_of n (copy_images read eligible assigned new_nums images st)) ->
  In q (log_of n st)
  \/ exists cid, In cid eligible /\ number_of assigned new_nums cid = Some n
       /\ In q (dict_get_or cid images [])
       /\ exists fs, read fs (image_key q) <> None.
Proof.
  unfold copy_images.
  induction eligible as [|cid r IH]; intros st Hq; simpl in Hq; [left; exact Hq|].
  assert (Hlater : forall st0 : copy_state E,
            In q (log_of n (fold_left
                   (fun st cid =>
                      match number_of assigned new_nums cid with
                      | None => st
                      | Some num => fold_left (copy_one read num) (dict_get_or cid images []) st
                      end) r st0)) ->
            In q (log_of n st0)
            \/ exists c, In c (cid :: r) /\ number_of assigned new_nums c = Some n
                 /\ In q (dict_get_or c images [])
                 /\ exists fs, read fs (image_key q) <> None).
  { intros st0 H0. destruct (IH st0 H0) as [H1|[c [Hc Hrest]]]; [left; exact H1|].
    right. exists c. split; [right; exact Hc | exact Hrest]. }
  destruct (number_of assigned new_nums cid) as [num|] eqn:En.
  - destruct (Hlater _ Hq) as [H1|H1]; [|right; exact H1].
    destruct (copy_cluster_origin num _ n q st H1) as [H2|[E1 [Hin Hr]]];
      [left; exact H2|].
    right. exists cid. subst num. split; [left; reflexivity|].
    split; [exact En|]. split; assumption.
  - exact (Hlater _ Hq).
Qed.

(** ** Every readable image is served *)

Lemma copy_one_keeps (num : Z) (st : copy_state E) (p : image) (n : Z) (q : image) :
  was_copied n q st = true -> was_copied n q (copy_one read num st p) = true.
Proof.
  intros H. unfold copy_one. destruct (was_copied num p st); [exact H|].
  destruct (safe_copy _ _ _) as [[x d']|]; rewrite was_copied_cons, H; apply orb_true_r.
Qed.

Lemma copy_one_remembers (num : Z) (st : copy_state E) (p : image) :
  was_copied num p (copy_one read num st p) = true.
Proof.
  unfold copy_one. destruct (was_copied num p st) eqn:Hw; [exact Hw|].
  destruct (safe_copy _ _ _) as [[x d']|]; rewrite was_copied_cons, Z.eqb_refl,
    (proj2 (image_eqb_key p p) eq_refl); reflexivity.
Qed.

Lemma copy_cluster_keeps (num : Z) (imgs : list image) (n : Z) (q : image) :
  forall st : copy_state E,
  was_copied n q st = true ->
  was_copied n q (fold_left (copy_one read num) imgs st) = true.
Proof.
  induction imgs as [|p r IH]; intros st H; simpl; [exact H|].
  apply IH. apply copy_one_keeps. exact H.
Qed.

Lemma copy_cluster_remembers (num : Z) (imgs : list image) (q : image) :
  forall st : copy_state E,
  In q imgs -> was_copied num q (fold_left (copy_one read num) imgs st) = true.
Proof.
  induction imgs as [|p r IH]; intros st Hq; simpl; [destruct Hq|].
  destruct Hq as [<-|Hq]; [|apply IH; exact Hq].
  apply copy_cluster_keeps. apply copy_one_remembers.
Qed.

Lemma copy_images_keeps (assigned new_nums : dict Z) (images : dict (list image))
    (n : Z) (q : image) (eligible : list Z) : forall st : copy_state E,
  was_copied n q st = true ->
  was_copied n q (copy_images read eligible assigned new_nums images st) = true.
Proof.
  unfold copy_images.
  induction eligible as [|cid r IH]; intros st H; simpl; [exact H|].
  destruct (number_of assigned new_nums cid) as [num|]; [|apply IH; exact H].
  apply IH. apply copy_cluster_keeps. exact H.
Qed.

Lemma copy_images_remembers (assigned new_nums : dict Z) (images : dict (list image))
    (n : Z) (q : image) (eligible : list Z) : forall (st : copy_state E) (cid : Z),
  In cid eligible -> number_of assigned new_nums cid = Some n ->
  In q (dict_get_or cid images []) ->
  was_copied n q (copy_images read eligible assigned new_nums images st) = true.
Proof.
  induction eligible as [|c r IH]; intros st cid Hc Hn Hq; [destruct Hc|].
  destruct Hc as [->|Hc].
  - unfold copy_images. simpl. rewrite Hn.
    apply (copy_images_keeps assigned new_nums images n q r).
    apply copy_cluster_remembers. exact Hq.
  - unfold copy_images. simpl.
    destruct (number_of assigned new_nums c) as [num|];
      exact (IH _ cid Hc Hn Hq).
Qed.

Lemma copy_one_served (num : Z) (st : copy_state E) (p : image) :
  served read st -> served read (copy_one read num st p).
Proof.
  intros Hs. unfold copy_one. destruct (was_copied num p st) eqn:Hw; [exact Hs|].
  destruct (read (folders st) (image_key p)) as [c|] eqn:Er.
  - destruct (safe_copy_some (img_file p) c (folder_of num st)) as [x [R Hfree]].
    rewrite R. intros n q Hq Hr. rewrite was_copied_cons in Hq.
    unfold log_of. simpl. rewrite dict_get_or_set.
    apply orb_true_iff in Hq. destruct Hq as [Hq|Hq].
    + apply andb_true_iff in Hq. destruct Hq as [Hn Hk].
      rewrite Hn. exists p. split; [apply in_app_iff; right; left; reflexivity|].
      symmetry. apply image_eqb_key. exact Hk.
    + destruct (Hs n q Hq Hr) as [q' [Hin Ek]]. exists q'. split; [|exact Ek].
      destruct (Z.eqb_spec n num) as [->|Hne]; [|exact Hin].
      apply in_app_iff. left. exact Hin.
  - rewrite safe_copy_none. intros n q Hq Hr. rewrite was_copied_cons in Hq.
    change (log_of n (mkCopy (dict_set num (folder_of num st) (folders st))
                        ((num, p) :: copied st) (audit_copied st)))
      with (log_of n st).
    apply orb_true_iff in Hq. destruct Hq as [Hq|Hq]; [|exact (Hs n q Hq Hr)].
    exfalso. apply andb_true_iff in Hq. destruct Hq as [_ Hk].
    apply image_eqb_key in Hk. apply (Hr (folders st)). rewrite Hk. exact Er.
Qed.

Lemma copy_cluster_served (num : Z) (imgs : list image) : forall st : copy_state E,
  served read st -> served read (fold_left (copy_one read num) imgs st).
Proof.
  induction imgs as [|p r IH]; intros st H; simpl; [exact H|].
  apply IH. apply copy_one_served. exact H.
Qed.

Lemma copy_images_served (assigned new_nums : dict Z) (images : dict (list image))
    (eligible : list Z) : forall st : copy_state E,
  served read st -> served read (copy_images read eligible assigned new_nums images st).
Proof.
  unfold copy_images.
  induction eligible as [|cid r IH]; intros st H; simpl; [exact H|].
  destruct (number_of assigned new_nums cid) as [num|]; [|apply IH; exact H].
  apply IH. apply copy_cluster_served. exact H.
Qed.

(** The copy loop only adds files.  Whatever the plan lists and whatever
    can be read, the folder of a person after the loop is its folder before
    followed by new files under names that were free and differ from each
    other, as many as the audit log lists for the person; every file that
    was there still holds what it held. *)
Theorem copies_only_add (fs : dict (sdict E)) (eligible : list Z)
    (assigned new_nums : dict Z) (images : dict (list image)) (n : Z) :
  exists added,
    folder_of n (copy_images read eligible assigned new_nums images (copy_start fs))
    = (dict_get_or n fs [] ++ added)%list
    /\ length added
       = length (log_of n (copy_images read eligible assigned new_nums images
                             (copy_start fs)))
    /\ (forall x, In x (map fst added) -> exists_in x (dict_get_or n fs []) = false)
    /\ NoDup (map fst added)
    /\ forall k v,
         sdict_get k (dict_get_or n fs []) = Some v ->
         sdict_get k (folder_of n (copy_images read eligible assigned new_nums images
                                     (copy_start fs))) = Some v.
Proof.
  destruct (copy_images_extends assigned new_nums images eligible (copy_start fs) n)
    as [added [new [F [L [Len [Free Nd]]]]]].
  exists added. change (folder_of n (copy_start fs)) with (dict_get_or n fs []) in *.
  change (log_of n (copy_start fs)) with (@nil image) in L.
  split; [exact F|]. split; [rewrite L; exact Len|]. split; [exact Free|].
  split; [exact Nd|].
  intros k v Hk. rewrite F, sdict_get_app, Hk. reflexivity.
Qed.

(** Each image is copied once per person.  No audit list names a path
    twice, although a plan may list an image under several clusters of one
    person; an audit entry is an image of an eligible cluster that got this
    person's number, read at least once; and every image of such a cluster
    that can be read has its entry. *)
Theorem each_image_copied_once (fs : dict (sdict E)) (eligible : list Z)
    (assigned new_nums : dict Z) (images : dict (list image)) :
  (forall n,
     NoDup (map image_key
              (log_of n (copy_images read eligible assigned new_nums images
                           (copy_start fs)))))
  /\ (forall n q,
        In q (log_of n (copy_images read eligible assigned new_nums images
                          (copy_start fs))) ->
        exists cid, In cid eligible /\ number_of assigned new_nums cid = Some n
          /\ In q (dict_get_or cid images [])
          /\ exists fs', read fs' (image_key q) <> None)
  /\ (forall cid n p,
        In cid eligible -> number_of assigned new_nums cid = Some n ->
        In p (dict_get_or cid images []) -> readable read (image_key p) ->
        exists q,
          In q (log_of n (copy_images read eligible assigned new_nums images
                            (copy_start fs)))
          /\ image_key q = image_key p).
Proof.
  split; [|split].
  - apply copy_images_logged. split.
    + intros n p [].
    + intros n. constructor.
  - intros n q Hq.
    destruct (copy_images_origin assigned new_nums images n q eligible _ Hq) as [[]|H].
    exact H.
  - intros cid n p Hc Hn Hp Hr.
    apply (copy_images_served assigned new_nums images eligible (copy_start fs)).
    + intros m q Hq. discriminate.
    + exact (copy_images_remembers assigned new_nums images n p eligible _ cid Hc Hn Hp).
    + exact Hr.
Qed.
End CopyFacts.

(* ------------------------------------------------------------------ *)
(** * The copies of the group-only and unknown images *)

Section PlainCopyFacts.
Context {E : Type}.
Variable read1 : sdict E -> String.string * String.string -> option E.

Local Notation "'turn'" :=
  (fun (acc : sdict E * nat) (p : image) =>
     match safe_copy (img_file p) (read1 (fst acc) (image_key p)) (fst acc) with
     | Some (_, d') => (d', S (snd acc))
     | None => acc
     end) (only parsing).

Lemma copy_plain_gen (imgs : list image) : forall (d : sdict E) (c : nat),
  exists added,
    fst (fold_left turn imgs (d, c)) = (d ++ added)%list
    /\ snd (fold_left turn imgs (d, c)) = (c + length added)%nat
    /\ (length added <= length imgs)%nat
    /\ (forall x, In x (map fst added) -> exists_in x d = false)
    /\ NoDup (map fst added)
    /\ ((forall p fs, In p imgs -> read1 fs (image_key p) <> None) ->
        length added = length imgs).
Proof.
  induction imgs as [|p r IH]; intros d c.
  - exists []. simpl. rewrite app_nil_r, Nat.add_0_r.
    repeat split; try (intros x []); constructor.
  - cbn [fold_left fst snd].
    destruct (read1 d (image_key p)) as [e|] eqn:Er.
    + destruct (safe_copy_some (img_file p) e d) as [x [R Hfree]].
      rewrite R. destruct (IH (d ++ [(x, e)])%list (S c))
        as [added [F [C [Len [Free [Nd All]]]]]].
      exists ((x, e) :: added).
      assert (Hx : forall y, In y (map fst added) ->
                exists_in y d = false /\ y <> x).
      { intros y Hy. specialize (Free y Hy).
        rewrite exists_in_app, exists_in_one in Free.
        apply orb_false_iff in Free. destruct Free as [Fa Fb].
        split; [exact Fa|]. apply String.eqb_neq. exact Fb. }
      repeat split.
      * rewrite F, <- app_assoc. reflexivity.
      * rewrite C. simpl. lia.
      * simpl. lia.
      * intros y [<-|Hy]; [exact Hfree | exact (proj1 (Hx y Hy))].
      * simpl. constructor; [|exact Nd].
        intros Hin. exact (proj2 (Hx x Hin) eq_refl).
      * intros Hall. simpl. rewrite All; [reflexivity|].
        intros q fs Hq. apply Hall. right. exact Hq.
    + rewrite safe_copy_none. destruct (IH d c) as [added [F [C [Len [Free [Nd All]]]]]].
      exists added. repeat split; try assumption.
      * simpl. lia.
      * intros Hall. exfalso. apply (Hall p d); [left; reflexivity | exact Er].
Qed.

(** The group-only and the unknown images are copied one by one, without
    a memory of what was copied: the folder after is the folder before
    followed by one new file per call that did not raise, under names that
    were free and differ from each other, and the audit counter is the
    number of these files.  When every listed image can be read the counter
    is the length of the list, so an image listed twice is copied twice. *)
Theorem plain_copies_are_counted (imgs : list image) (d : sdict E) :
  exists added,
    fst (copy_plain read1 imgs d) = (d ++ added)%list
    /\ snd (copy_plain read1 imgs d) = length added
    /\ (length added <= length imgs)%nat
    /\ (forall x, In x (map fst added) -> exists_in x d = false)
    /\ NoDup (map fst added)
    /\ (forall k v, sdict_get k d = Some v ->
          sdict_get k (fst (copy_plain read1 imgs d)) = Some v)
    /\ ((forall p fs, In p imgs -> read1 fs (image_key p) <> None) ->
        snd (copy_plain read1 imgs d) = length imgs).
Proof.
  unfold copy_plain.
  destruct (copy_plain_gen imgs d 0) as [added [F [C [Len [Free [Nd All]]]]]].
  exists added. split; [exact F|]. split; [exact C|]. split; [exact Len|].
  split; [exact Free|]. split; [exact Nd|]. split.
  - intros k v Hk. rewrite F, sdict_get_app, Hk. reflexivity.
  - intros Hall. rewrite C, (All Hall). reflexivity.
Qed.
End PlainCopyFacts.

(* ------------------------------------------------------------------ *)
(** * The copies after the matching *)

Section CopyAfterMatching.
Context {A : Type} `{Numeric A}.
Context {E : Type}.
Variable read : dict (sdict E) -> String.string * String.string -> option E.

Lemma numbered_has_centroid (T M : A) (g : group_dir A) (pl : plan A) (o : outcome A)
    (cid n : Z) :
  match_and_apply T M g pl = Returns o ->
  number_of (out_assigned o) (out_new_nums o) cid = Some n ->
  In cid (eligible_clusters pl) /\ dict_get cid (cluster_centroids pl) <> None.
Proof.
  intros Hr Hk. destruct (match_and_apply_inv T M g pl o Hr) as [cn Hn].
  apply (match_and_apply_returned T M g pl cn o Hn) in Hr.
  injection Hr as <-. unfold number_of in Hk. simpl in Hk.
  assert (Hv : In cid (eligible_clusters pl)
               /\ verdict_of T M cn (proto_list (loaded_of g))
                    (proto_owner (loaded_of g)) (per_thr (loaded_of g)) cid <> Skipped).
  { destruct (dict_get cid (assigned (final_state T M g pl cn))) as [m|] eqn:Ea.
    - apply assigned_iff in Ea. destruct Ea as [Hin Hv].
      split; [exact Hin | congruence].
    - assert (Hm : dict_get cid (new_nums (final_state T M g pl cn)) <> None)
        by congruence.
      apply new_nums_iff in Hm. destruct Hm as [Hin Hv].
      split; [exact Hin | congruence]. }
  destruct Hv as [Hin Hv]. split; [exact Hin|].
  intros Hc. apply Hv. apply verdict_skipped.
  apply (normalize_centroids_missing _ cn cid Hn). exact Hc.
Qed.

Lemma centroid_gives_number (T M : A) (g : group_dir A) (pl : plan A) (o : outcome A)
    (cid : Z) :
  match_and_apply T M g pl = Returns o ->
  In cid (eligible_clusters pl) ->
  dict_get cid (cluster_centroids pl) <> None ->
  exists n, number_of (out_assigned o) (out_new_nums o) cid = Some n.
Proof.
  intros Hr Hin Hc. destruct (match_and_apply_inv T M g pl o Hr) as [cn Hn].
  apply (match_and_apply_returned T M g pl cn o Hn) in Hr.
  injection Hr as <-. unfold number_of. simpl.
  destruct (dict_get cid (assigned (final_state T M g pl cn))) as [m|] eqn:Ea;
    [exists m; reflexivity|].
  destruct (dict_get cid (new_nums (final_state T M g pl cn))) as [m|] eqn:Em;
    [exists m; reflexivity|].
  exfalso.
  assert (Hv : verdict_of T M cn (proto_list (loaded_of g))
                 (proto_owner (loaded_of g)) (per_thr (loaded_of g)) cid <> Skipped).
  { rewrite verdict_skipped, (normalize_centroids_missing _ cn cid Hn). exact Hc. }
  destruct (verdict_of T M cn (proto_list (loaded_of g)) (proto_owner (loaded_of g))
              (per_thr (loaded_of g)) cid) as [|b|] eqn:Ev.
  - congruence.
  - assert (Hx : dict_get cid (assigned (final_state T M g pl cn)) = Some b)
      by (apply assigned_iff; split; assumption).
    congruence.
  - assert (Hx : dict_get cid (new_nums (final_state T M g pl cn)) <> None)
      by (apply new_nums_iff; split; assumption).
    congruence.
Qed.

Lemma dict_get_pair {V : Type} (d : dict V) (k : Z) (v : V) :
  dict_get k d = Some v -> In (k, v) d.
Proof.
  induction d as [|[k' v'] d IH]; simpl; [discriminate|].
  destruct (Z.eqb_spec k k') as [->|Hne].
  - intros E0. injection E0 as ->. left. reflexivity.
  - intros Hk. right. exact (IH Hk).
Qed.

(** The copies follow the matching.  Every audit entry under a person is
    an image the plan lists under an eligible cluster that has a centroid
    and was assigned to or minted as this person; and every image of an
    eligible cluster with a centroid that can be read has its entry under
    the person of the cluster. *)
Theorem copies_follow_the_matching (T M : A) (g : group_dir A) (pl : plan A)
    (o : outcome A) (pi : plan_images) (fs : dict (sdict E)) :
  match_and_apply T M g pl = Returns o ->
  (forall n q,
     In q (log_of n (copy_images read (eligible_clusters pl) (out_assigned o)
                       (out_new_nums o) (cluster_images pi) (copy_start fs))) ->
     exists cid,
       In cid (eligible_clusters pl)
       /\ dict_get cid (cluster_centroids pl) <> None
       /\ number_of (out_assigned o) (out_new_nums o) cid = Some n
       /\ In q (dict_get_or cid (cluster_images pi) []))
  /\ (forall cid p,
        In cid (eligible_clusters pl) ->
        dict_get cid (cluster_centroids pl) <> None ->
        In p (dict_get_or cid (cluster_images pi) []) ->
        readable read (image_key p) ->
        exists n q,
          number_of (out_assigned o) (out_new_nums o) cid = Some n
          /\ In q (log_of n (copy_images read (eligible_clusters pl) (out_assigned o)
                               (out_new_nums o) (cluster_images pi) (copy_start fs)))
          /\ image_key q = image_key p).
Proof.
  intros Hr. split.
  - intros n q Hq.
    destruct (copy_images_origin read _ _ _ n q _ _ Hq) as [[]|[cid [Hc [Hn [Hi _]]]]].
    exists cid. split; [exact Hc|].
    split; [exact (proj2 (numbered_has_centroid T M g pl o cid n Hr Hn))|].
    split; assumption.
  - intros cid p Hc Hcen Hp Hread.
    destruct (centroid_gives_number T M g pl o cid Hr Hc Hcen) as [n Hn].
    destruct (copy_images_served read (out_assigned o) (out_new_nums o)
                (cluster_images pi) (eligible_clusters pl) (copy_start fs)
                ltac:(intros m q Hq; discriminate) n p) as [q [Hq Ek]].
    + exact (copy_images_remembers read _ _ _ n p _ _ cid Hc Hn Hp).
    + exact Hread.
    + exists n, q. split; [exact Hn|]. split; assumption.
Qed.

(** The returned [processed_sources] do not follow the copies.  An image
    whose path the plan lists only under a cluster that is not eligible, or
    that has no centroid, is among them although no audit list names its
    path. *)
Theorem uncopied_sources_are_processed (T M : A) (g : group_dir A) (pl : plan A)
    (o : outcome A) (pi : plan_images) (fs : dict (sdict E)) (cid : Z)
    (imgs : list image) (p : image) :
  match_and_apply T M g pl = Returns o ->
  ~ In cid (eligible_clusters pl) \/ dict_get cid (cluster_centroids pl) = None ->
  dict_get cid (cluster_images pi) = Some imgs ->
  In p imgs ->
  (forall cid' q, cid' <> cid -> In q (dict_get_or cid' (cluster_images pi) []) ->
                  image_key q <> image_key p) ->
  In p (processed_sources pi)
  /\ forall n q,
       In q (log_of n (copy_images read (eligible_clusters pl) (out_assigned o)
                         (out_new_nums o) (cluster_images pi) (copy_start fs))) ->
       image_key q <> image_key p.
Proof.
  intros Hr Hskip Hget Hp Honly. split.
  - unfold processed_sources. apply in_app_iff. left.
    apply in_flat_map. exists (cid, imgs). split; [|exact Hp].
    apply dict_get_pair. exact Hget.
  - intros n q Hq.
    destruct (copy_images_origin read _ _ _ n q _ _ Hq) as [[]|[c [Hc [Hn [Hi _]]]]].
    destruct (Z.eq_dec c cid) as [->|Hne]; [|exact (Honly c q Hne Hi)].
    exfalso.
    destruct (numbered_has_centroid T M g pl o cid n Hr Hn) as [Hin Hcen].
    destruct Hskip as [Hs|Hs]; [exact (Hs Hin) | exact (Hcen Hs)].
Qed.
End CopyAfterMatching.

(* ------------------------------------------------------------------ *)
(** * Stricter settings, and the invocation that finds nothing to do *)

Section Settings.
Context {A : Type} `{Numeric A}.

(** [<=] is transitive and [a < b] is "not [b <= a]", as for numbers
    without NaN. *)
Hypothesis fle_trans :
  forall a b c : A, fle a b = true -> fle b c = true -> fle a c = true.
Hypothesis flt_fle : forall a b : A, flt a b = negb (fle b a).

Lemma thr_use_mono (T T' : A) (thrs : dict A) (b : Z) (s : A) :
  fle T T' = true ->
  fle (thr_use T' thrs b) s = true -> fle (thr_use T thrs b) s = true.
Proof.
  unfold thr_use, pymax. intros HT.
  set (x := dict_get_or b thrs (flit (-1000000000))).
  rewrite !flt_fle.
  destruct (fle x T) eqn:E1; destruct (fle x T') eqn:E2; simpl; intros Hs.
  - exact (fle_trans _ _ _ HT Hs).
  - rewrite (fle_trans _ _ _ E1 HT) in E2. discriminate.
  - exact (fle_trans _ _ _ E2 Hs).
  - exact Hs.
Qed.

Lemma accepts_mono (T T' M M' : A) (thrs : dict A) (r : option (Z * A * A)) :
  fle T T' = true -> fle M M' = true ->
  accepts T' M' thrs r = true -> accepts T M thrs r = true.
Proof.
  intros HT HM. unfold accepts. destruct r as [[[b s1] s2]|]; [|discriminate].
  rewrite !andb_true_iff. intros [H1 H2]. split.
  - exact (thr_use_mono T T' thrs b s1 HT H1).
  - exact (fle_trans _ _ _ HM H2).
Qed.

Lemma verdict_mono (T T' M M' : A) (cn : dict (list A)) (P : list (list A))
    (owners : list Z) (thrs : dict A) (cid b : Z) :
  fle T T' = true -> fle M M' = true ->
  verdict_of T' M' cn P owners thrs cid = Matched b ->
  verdict_of T M cn P owners thrs cid = Matched b.
Proof.
  intros HT HM. unfold verdict_of.
  destruct (dict_get cid cn) as [c|]; [|discriminate].
  destruct P as [|p0 P0]; [discriminate|].
  destruct (rank (p0 :: P0) owners c) as [[[bn s1] s2]|]; [|discriminate].
  destruct (accepts T' M' thrs (Some (bn, s1, s2))) eqn:Ea; [|discriminate].
  rewrite (accepts_mono T T' M M' thrs _ HT HM Ea). intros E. exact E.
Qed.

Lemma verdict_skipped_any (T T' M M' : A) (cn : dict (list A)) (P : list (list A))
    (owners : list Z) (thrs : dict A) (cid : Z) :
  verdict_of T' M' cn P owners thrs cid = Skipped ->
  verdict_of T M cn P owners thrs cid = Skipped.
Proof.
  unfold verdict_of. destruct (dict_get cid cn) as [c|]; [|reflexivity].
  destruct P as [|p0 P0]; [discriminate|].
  destruct (rank (p0 :: P0) owners c) as [[[bn s1] s2]|]; [|discriminate].
  destruct (accepts T' M' thrs (Some (bn, s1, s2))); discriminate.
Qed.

(** Stricter settings never add a match.  With a higher threshold and a
    higher margin, on the same folder and plan, every cluster that is still
    assigned is assigned to the person it was assigned to before, and every
    cluster that got a new person before still gets one. *)
Theorem stricter_settings_match_less (T T' M M' : A) (g : group_dir A) (pl : plan A)
    (o o' : outcome A) :
  fle T T' = true -> fle M M' = true ->
  match_and_apply T M g pl = Returns o ->
  match_and_apply T' M' g pl = Returns o' ->
  (forall cid n,
     dict_get cid (out_assigned o') = Some n -> dict_get cid (out_assigned o) = Some n)
  /\ (forall cid,
        dict_get cid (out_new_nums o) <> None -> dict_get cid (out_new_nums o') <> None).
Proof.
  intros HT HM Hr Hr'.
  destruct (match_and_apply_inv T M g pl o Hr) as [cn Hn].
  apply (match_and_apply_returned T M g pl cn o Hn) in Hr.
  apply (match_and_apply_returned T' M' g pl cn o' Hn) in Hr'.
  injection Hr as <-. injection Hr' as <-. simpl. split.
  - intros cid n Hk. apply assigned_iff in Hk. destruct Hk as [Hin Hv].
    apply assigned_iff. split; [exact Hin|].
    exact (verdict_mono T T' M M' cn _ _ _ cid n HT HM Hv).
  - intros cid Hk. apply new_nums_iff in Hk. destruct Hk as [Hin Hv].
    apply new_nums_iff. split; [exact Hin|].
    destruct (verdict_of T' M' cn (proto_list (loaded_of g))
                (proto_owner (loaded_of g)) (per_thr (loaded_of g)) cid)
      as [|b|] eqn:Ev'.
    + rewrite (verdict_skipped_any T T' M M' cn _ _ _ cid Ev') in Hv. discriminate.
    + rewrite (verdict_mono T T' M M' cn _ _ _ cid b HT HM Ev') in Hv. discriminate.
    + reflexivity.
Qed.
End Settings.

Section Idle.
Context {A : Type} `{Numeric A}.

Lemma loop_idle (T M : A) (cn : dict (list A)) (P : list (list A)) (owners : list Z)
    (thrs : dict A) (el : list Z) : forall st : loop_state A,
  (forall cid, In cid el -> dict_get cid cn = None) ->
  fold_left (step T M cn P owners thrs) el st = st.
Proof.
  induction el as [|cid r IH]; intros st Hall; simpl; [reflexivity|].
  unfold step at 2. rewrite (Hall cid (or_introl eq_refl)).
  apply IH. intros c Hc. apply Hall. right. exact Hc.
Qed.

End Idle.

(* ------------------------------------------------------------------ *)
(** * New persons and their folders *)

Section NewFolders.
Context {A : Type} `{Numeric A}.

Lemma new_values_are_appended (T M : A) (g : group_dir A) (pl : plan A)
    (cn : dict (list A)) :
  NoDup (eligible_clusters pl) ->
  incl (upto (initial_max (numbered_dirs g)) (minted_count T M g pl cn))
       (dict_values (new_nums (final_state T M g pl cn))).
Proof.
  intros Hnd.
  set (st0 := mkState (loaded_of g) [] [] (initial_max (numbered_dirs g))).
  set (P := proto_list (loaded_of g)).
  set (owners := proto_owner (loaded_of g)).
  set (thrs := per_thr (loaded_of g)).
  assert (Hkeys : NoDup (dict_keys (new_nums (final_state T M g pl cn)))).
  { unfold final_state, run_loop. apply loop_new_NoDup. constructor. }
  assert (Hvals : NoDup (dict_values (new_nums (final_state T M g pl cn)))).
  { unfold final_state, run_loop.
    apply (loop_new_values_NoDup T M cn P owners thrs (eligible_clusters pl) st0).
    - constructor.
    - intros x []. }
  apply NoDup_length_incl.
  - exact Hvals.
  - rewrite upto_length. unfold dict_values. rewrite length_map.
    rewrite <- (length_map fst (new_nums _)). unfold minted_count.
    apply Nat.eq_le_incl.
    apply Permutation_length, NoDup_Permutation.
    + apply NoDup_filter. exact Hnd.
    + exact Hkeys.
    + intros k. rewrite filter_In.
      change (map fst (new_nums (final_state T M g pl cn)))
        with (dict_keys (new_nums (final_state T M g pl cn))).
      rewrite <- dict_get_In, new_nums_iff.
      destruct (verdict_of T M cn (proto_list (loaded_of g))
                  (proto_owner (loaded_of g)) (per_thr (loaded_of g)) k);
        simpl; split; intros [H1 H2]; split; try assumption;
        try discriminate; reflexivity.
  - intros v Hv. apply (dict_value_key _ _ v Hkeys) in Hv. destruct Hv as [k Hk].
    apply upto_In. rewrite <- final_cur_max.
    unfold final_state, run_loop in *.
    destruct (loop_new_values T M cn P owners thrs (eligible_clusters pl) st0 k v Hk)
      as [E|Hr]; [discriminate | exact Hr].
Qed.

(** With distinct eligible ids every person an invocation appends to the
    registry is the new person of a cluster of the batch and has its
    numbered folder when the invocation returns. *)
Theorem appended_persons_have_folders (T M : A) (g : group_dir A) (pl : plan A)
    (o : outcome A) (p : person A) :
  match_and_apply T M g pl = Returns o ->
  NoDup (eligible_clusters pl) ->
  In p (skipn (length (loaded_of g)) (out_persons o)) ->
  (exists cid, In cid (eligible_clusters pl)
     /\ dict_get cid (out_new_nums o) = Some (number p))
  /\ (0 <= number p)%Z
  /\ In (Z.to_N (number p)) (numbered_dirs (out_dir o)).
Proof.
  intros Hr Hnd Hp. destruct (match_and_apply_inv T M g pl o Hr) as [cn Hn].
  apply (match_and_apply_returned T M g pl cn o Hn) in Hr.
  injection Hr as <-. simpl in *.
  assert (Hnum : In (number p)
                   (upto (initial_max (numbered_dirs g)) (minted_count T M g pl cn))).
  { rewrite <- appended_numbers. apply in_map. exact Hp. }
  assert (Hpos : (0 <= number p)%Z).
  { apply upto_In in Hnum. pose proof (initial_max_nonneg (numbered_dirs g)). lia. }
  assert (Hkeys : NoDup (dict_keys (new_nums (final_state T M g pl cn)))).
  { unfold final_state, run_loop. apply loop_new_NoDup. constructor. }
  apply (new_values_are_appended T M g pl cn Hnd) in Hnum.
  apply (dict_value_key _ _ _ Hkeys) in Hnum. destruct Hnum as [cid Hcid].
  split; [|split; [exact Hpos|]].
  - exists cid. split; [|exact Hcid].
    assert (Hne : dict_get cid (new_nums (final_state T M g pl cn)) <> None)
      by congruence.
    apply new_nums_iff in Hne. exact (proj1 Hne).
  - apply ensure_dir_In; [|exact Hpos].
    apply (dict_get_value _ _ cid). apply merge_get; assumption.
Qed.

Lemma max_not_listed (dirs : list N) (n : Z) :
  (initial_max dirs < n)%Z -> existsb (N.eqb (Z.to_N n)) dirs = false.
Proof.
  intros Hn. destruct (existsb (N.eqb (Z.to_N n)) dirs) eqn:Ex; [|reflexivity].
  exfalso. apply existsb_exists in Ex. destruct Ex as [d [Hd Ed]].
  apply N.eqb_eq in Ed. subst d.
  pose proof (initial_max_ge dirs _ Hd) as Hle.
  pose proof (initial_max_nonneg dirs). rewrite Z2N.id in Hle by lia. lia.
Qed.

(** An id listed twice among the eligible ones is minted twice.  In a
    folder without prototypes, a batch that lists one cluster twice appends
    two persons with the two numbers that follow the greatest folder, keeps
    the later number for the cluster, and makes the folder of the later
    person only. *)
Theorem duplicate_id_is_minted_twice (T M : A) (g : group_dir A) (cid : Z)
    (v : list A) :
  proto_list (loaded_of g) = [] ->
  match_and_apply T M g (mkPlan [(cid, Convertible v)] [cid; cid])
  = Returns
      (mkOutcome (length (loaded_of g) + 2)
         (loaded_of g
          ++ [new_person (initial_max (numbered_dirs g) + 1) (_normalize_np v);
              new_person (initial_max (numbered_dirs g) + 2) (_normalize_np v)])
         [] [(cid, (initial_max (numbered_dirs g) + 2)%Z)]
         (mkDir (Parsed (Some
                   (loaded_of g
                    ++ [new_person (initial_max (numbered_dirs g) + 1) (_normalize_np v);
                        new_person (initial_max (numbered_dirs g) + 2)
                                   (_normalize_np v)])))
                (numbered_dirs g ++ [Z.to_N (initial_max (numbered_dirs g) + 2)])))
  /\ ~ In (Z.to_N (initial_max (numbered_dirs g) + 1))
          (numbered_dirs g ++ [Z.to_N (initial_max (numbered_dirs g) + 2)]).
Proof.
  intros HP.
  pose proof (initial_max_nonneg (numbered_dirs g)) as Hm.
  split.
  - assert (Hn : normalize_centroids [(cid, Convertible v)] []
                 = Some [(cid, _normalize_np v)]) by reflexivity.
    rewrite (match_and_apply_returns T M g (mkPlan [(cid, Convertible v)] [cid; cid])
               [(cid, _normalize_np v)] Hn)
      by (rewrite HP; apply shapes_ok_cold).
    assert (Ef : final_state T M g (mkPlan [(cid, Convertible v)] [cid; cid])
                   [(cid, _normalize_np v)]
                 = mkState
                     (loaded_of g
                      ++ [new_person (initial_max (numbered_dirs g) + 1) (_normalize_np v);
                          new_person (initial_max (numbered_dirs g) + 2)
                                     (_normalize_np v)])
                     [] [(cid, (initial_max (numbered_dirs g) + 2)%Z)]
                     (initial_max (numbered_dirs g) + 2)).
    { unfold final_state, run_loop. rewrite HP. cbn [eligible_clusters fold_left].
      unfold step. cbn [dict_get]. rewrite Z.eqb_refl. unfold mint. cbn.
      rewrite Z.eqb_refl, <- app_assoc. cbn [app].
      replace (initial_max (numbered_dirs g) + 1 + 1)%Z
        with (initial_max (numbered_dirs g) + 2)%Z by lia.
      reflexivity. }
    rewrite Ef. cbn [persons assigned new_nums].
    rewrite length_app. cbn [length]. unfold save_person_index.
    cbn [dict_merge fold_left dict_set dict_values map snd fst].
    unfold ensure_dir.
    replace (initial_max (numbered_dirs g) + 2 <? 0)%Z with false
      by (symmetry; apply Z.ltb_ge; lia).
    rewrite (max_not_listed (numbered_dirs g)) by lia. reflexivity.
  - intros Hin. apply in_app_iff in Hin. destruct Hin as [Hin|[E0|[]]].
    + pose proof (initial_max_ge _ _ Hin) as Hle. rewrite Z2N.id in Hle by lia. lia.
    + apply (f_equal Z.of_N) in E0. rewrite !Z2N.id in E0 by lia. lia.
Qed.
End NewFolders.

(* ------------------------------------------------------------------ *)
(** * [list_dir]: folders and files *)

Section ListDirFacts.
Context {I K : Type}.
Variable is_dir : I -> bool.
Variable sec : I -> K.
Variable eqK ltK : K -> K -> bool.

Local Notation "'below'" := (fun a b : I => (primary is_dir a <= primary is_dir b)%nat)
  (only parsing).
Local Notation "'ins'" := (insert_stable is_dir sec eqK ltK) (only parsing).
Local Notation "'srt'" := (stable_sort is_dir sec eqK ltK) (only parsing).

Lemma tuple_lt_primary (x y : I) :
  tuple_lt is_dir sec eqK ltK x y = true -> below x y.
Proof.
  unfold tuple_lt. destruct (Nat.eqb_spec (primary is_dir x) (primary is_dir y)) as [E|N].
  - intros _. lia.
  - intros Hlt. apply Nat.ltb_lt in Hlt. lia.
Qed.

Lemma tuple_not_lt_primary (x y : I) :
  tuple_lt is_dir sec eqK ltK x y = false -> below y x.
Proof.
  unfold tuple_lt. destruct (Nat.eqb_spec (primary is_dir x) (primary is_dir y)) as [E|N].
  - intros _. lia.
  - intros Hlt. apply Nat.ltb_ge in Hlt. lia.
Qed.

Lemma insert_stable_perm (x : I) (l : list I) : Permutation (x :: l) (ins x l).
Proof.
  induction l as [|y r IH]; simpl; [apply Permutation_refl|].
  destruct (tuple_lt is_dir sec eqK ltK x y); [apply Permutation_refl|].
  apply (perm_trans (perm_swap y x r)). apply perm_skip. exact IH.
Qed.

Lemma insert_stable_sorted (x : I) (l : list I) :
  StronglySorted below l -> StronglySorted below (ins x l).
Proof.
  induction l as [|y r IH]; intros Hs; simpl.
  - constructor; constructor.
  - inversion Hs as [|? ? Hr Hy]; subst.
    destruct (tuple_lt is_dir sec eqK ltK x y) eqn:Elt.
    + constructor; [exact Hs|]. constructor.
      * exact (tuple_lt_primary x y Elt).
      * pose proof (tuple_lt_primary x y Elt) as Hxy.
        apply Forall_forall. intros z Hz.
        rewrite Forall_forall in Hy. specialize (Hy z Hz). simpl in *. lia.
    + constructor; [exact (IH Hr)|].
      apply Forall_forall. intros z Hz.
      apply (Permutation_in _ (Permutation_sym (insert_stable_perm x r))) in Hz.
      destruct Hz as [<-|Hz].
      * exact (tuple_not_lt_primary x y Elt).
      * rewrite Forall_forall in Hy. exact (Hy z Hz).
Qed.

Lemma stable_sort_gen (l : list I) : forall acc : list I,
  StronglySorted below acc ->
  StronglySorted below (fold_left (fun a x => ins x a) l acc)
  /\ Permutation (acc ++ l)%list (fold_left (fun a x => ins x a) l acc).
Proof.
  induction l as [|x r IH]; intros acc Hs; simpl.
  - split; [exact Hs|]. rewrite app_nil_r. apply Permutation_refl.
  - destruct (IH (ins x acc) (insert_stable_sorted x acc Hs)) as [S1 P1].
    split; [exact S1|].
    apply (perm_trans (l' := (ins x acc ++ r)%list)); [|exact P1].
    apply (perm_trans (l' := ((x :: acc) ++ r)%list)).
    + simpl. apply Permutation_sym, Permutation_middle.
    + apply Permutation_app_tail. apply insert_stable_perm.
Qed.

Lemma sorted_split (l : list I) :
  StronglySorted below l ->
  l = (filter is_dir l ++ filter (fun x => negb (is_dir x)) l)%list.
Proof.
  induction l as [|x r IH]; intros Hs; [reflexivity|].
  inversion Hs as [|? ? Hr Hx]; subst. simpl.
  destruct (is_dir x) eqn:Ex; simpl.
  - f_equal. exact (IH Hr).
  - assert (Hall : forall z, In z r -> is_dir z = false).
    { intros z Hz. rewrite Forall_forall in Hx. specialize (Hx z Hz).
      unfold primary in Hx. rewrite Ex in Hx.
      destruct (is_dir z); [lia | reflexivity]. }
    assert (E1 : filter is_dir r = []).
    { clear -Hall. induction r as [|z r IH]; [reflexivity|]. simpl.
      rewrite (Hall z (or_introl eq_refl)). apply IH.
      intros w Hw. apply Hall. right. exact Hw. }
    assert (E2 : filter (fun x => negb (is_dir x)) r = r).
    { clear -Hall. induction r as [|z r IH]; [reflexivity|]. simpl.
      rewrite (Hall z (or_introl eq_refl)). simpl. f_equal. apply IH.
      intros w Hw. apply Hall. right. exact Hw. }
    rewrite E1, E2. reflexivity.
Qed.

(** [list_dir] returns the entries of the folder, each once, and nothing
    when the folder cannot be read.  In ascending order all folders come
    before all files; with [sort_desc] set all files come before all
    folders, whatever the sort key. *)
Theorem list_dir_folders_and_files (l : list I) :
  list_dir is_dir sec eqK ltK None false = []
  /\ list_dir is_dir sec eqK ltK None true = []
  /\ Permutation l (list_dir is_dir sec eqK ltK (Some l) false)
  /\ Permutation l (list_dir is_dir sec eqK ltK (Some l) true)
  /\ (exists ds fs,
        list_dir is_dir sec eqK ltK (Some l) false = (ds ++ fs)%list
        /\ Forall (fun x => is_dir x = true) ds
        /\ Forall (fun x => is_dir x = false) fs)
  /\ (exists fs ds,
        list_dir is_dir sec eqK ltK (Some l) true = (fs ++ ds)%list
        /\ Forall (fun x => is_dir x = false) fs
        /\ Forall (fun x => is_dir x = true) ds).
Proof.
  split; [reflexivity|]. split; [reflexivity|].
  unfold list_dir, py_sort, stable_sort.
  destruct (stable_sort_gen l [] (SSorted_nil _)) as [S1 P1].
  destruct (stable_sort_gen (rev l) [] (SSorted_nil _)) as [S2 P2].
  simpl in P1, P2.
  split; [exact P1|]. split.
  { apply (perm_trans (Permutation_rev l)). apply (perm_trans P2).
    apply Permutation_rev. }
  split.
  - exists (filter is_dir (srt l)), (filter (fun x => negb (is_dir x)) (srt l)).
    split; [exact (sorted_split _ S1)|]. split; apply Forall_forall; intros x Hx;
      apply filter_In in Hx; destruct Hx as [_ Hx].
    + exact Hx.
    + apply negb_true_iff. exact Hx.
  - exists (rev (filter (fun x => negb (is_dir x)) (srt (rev l)))),
           (rev (filter is_dir (srt (rev l)))).
    split.
    + rewrite <- rev_app_distr. f_equal. exact (sorted_split _ S2).
    + split; apply Forall_forall; intros x Hx; apply in_rev in Hx;
        apply filter_In in Hx; destruct Hx as [_ Hx].
      * apply negb_true_iff. exact Hx.
      * exact Hx.
Qed.
End ListDirFacts.

(* ------------------------------------------------------------------ *)
(** * The configuration and the copies at concrete inputs *)

Section MoreWitnesses.
Import String.
Local Open Scope string_scope.

(** [_clamp("5000", 64, 4096, 640)] with [int] as the conversion of a
    decoded integer. *)
Lemma clamp_within_bounds_witness :
  (forall a, Z.ltb a a = false)
  /\ (forall a b c, Z.ltb a b = true -> Z.ltb b c = true -> Z.ltb a c = true)
  /\ Z.ltb 4096 64 = false /\ Z.ltb 640 64 = false /\ Z.ltb 4096 640 = false
  /\ _clamp Z.ltb (fun z : Z => Some z) 5000%Z 64%Z 4096%Z 640%Z = 4096%Z
  /\ (Z.ltb (_clamp Z.ltb (fun z : Z => Some z) 5000%Z 64%Z 4096%Z 640%Z) 64 = false
      /\ Z.ltb 4096 (_clamp Z.ltb (fun z : Z => Some z) 5000%Z 64%Z 4096%Z 640%Z) = false).
Proof.
  assert (h1 : forall a, Z.ltb a a = false) by (intros a; apply Z.ltb_irrefl).
  assert (h2 : forall a b c, Z.ltb a b = true -> Z.ltb b c = true -> Z.ltb a c = true).
  { intros a b c Hab Hbc. apply Z.ltb_lt in Hab, Hbc. apply Z.ltb_lt. lia. }
  assert (h3 : Z.ltb 4096 64 = false) by reflexivity.
  assert (h4 : Z.ltb 640 64 = false) by reflexivity.
  assert (h5 : Z.ltb 4096 640 = false) by reflexivity.
  assert (h6 : _clamp Z.ltb (fun z : Z => Some z) 5000%Z 64%Z 4096%Z 640%Z = 4096%Z)
    by reflexivity.
  exact (conj h1 (conj h2 (conj h3 (conj h4 (conj h5 (conj h6
    (proj1 (clamp_within_bounds Z Z Z.ltb h1 h2 (fun z : Z => Some z)
              5000%Z 64%Z 4096%Z 640%Z h3 h4 h5)))))))).
Defined.

(** Three copies of [photo.jpg] into a folder that holds [notes.txt]. *)
Lemma repeated_copies_are_numbered_witness :
  (forall n, family (mkSource "photo" ".jpg") n ->
             exists_in n [("notes.txt", 0%nat)] = false)
  /\ copy_times 3 (mkSource "photo" ".jpg") 7%nat [("notes.txt", 0%nat)]
     = Some (["photo.jpg"; "photo (1).jpg"; "photo (2).jpg"],
             [("notes.txt", 0%nat); ("photo.jpg", 7%nat);
              ("photo (1).jpg", 7%nat); ("photo (2).jpg", 7%nat)]).
Proof.
  assert (h1 : forall n, family (mkSource "photo" ".jpg") n ->
                         exists_in n [("notes.txt", 0%nat)] = false).
  { intros n [E|[i E]]; subst n; reflexivity. }
  exact (conj h1 (repeated_copies_are_numbered (mkSource "photo" ".jpg") 7%nat
                    [("notes.txt", 0%nat)] 2 h1)).
Defined.
(** The batch with a cluster that has no centroid: cluster 1 is minted as
    person 2 and its images are copied there, [a.jpg] once. *)
Lemma copies_follow_the_matching_witness :
  match_and_apply T0 M0 dir_B gap_plan = Returns run_gap
  /\ In 1%Z (eligible_clusters gap_plan)
  /\ dict_get 1%Z (cluster_centroids gap_plan) <> None
  /\ In img_c (dict_get_or 1%Z (cluster_images gap_images) [])
  /\ readable read_all (image_key img_c)
  /\ log_of 2%Z copies_gap = [img_a; img_c]
  /\ exists n q,
       number_of (out_assigned run_gap) (out_new_nums run_gap) 1%Z = Some n
       /\ In q (log_of n copies_gap)
       /\ image_key q = image_key img_c.
Proof.
  assert (h1 : match_and_apply T0 M0 dir_B gap_plan = Returns run_gap)
    by (vm_compute; reflexivity).
  assert (h2 : In 1%Z (eligible_clusters gap_plan)) by (simpl; tauto).
  assert (h3 : dict_get 1%Z (cluster_centroids gap_plan) <> None) by discriminate.
  assert (h4 : In img_c (dict_get_or 1%Z (cluster_images gap_images) []))
    by (right; left; reflexivity).
  assert (h5 : readable read_all (image_key img_c)) by (intros fs; discriminate).
  assert (h6 : log_of 2%Z copies_gap = [img_a; img_c]) by (vm_compute; reflexivity).
  exact (conj h1 (conj h2 (conj h3 (conj h4 (conj h5 (conj h6
    (proj2 (copies_follow_the_matching read_all T0 M0 dir_B gap_plan run_gap
              gap_images [] h1) 1%Z img_c h2 h3 h4 h5))))))).
Defined.

(** In the same batch [b.jpg], listed under cluster 7 only, is returned as
    processed and copied nowhere. *)
Lemma uncopied_sources_are_processed_witness :
  match_and_apply T0 M0 dir_B gap_plan = Returns run_gap
  /\ dict_get 7%Z (cluster_centroids gap_plan) = None
  /\ dict_get 7%Z (cluster_images gap_images) = Some [img_b]
  /\ In img_b (processed_sources gap_images)
  /\ forall n q, In q (log_of n copies_gap) -> image_key q <> image_key img_b.
Proof.
  assert (h1 : match_and_apply T0 M0 dir_B gap_plan = Returns run_gap)
    by (vm_compute; reflexivity).
  assert (h2 : dict_get 7%Z (cluster_centroids gap_plan) = None) by reflexivity.
  assert (h3 : dict_get 7%Z (cluster_images gap_images) = Some [img_b]) by reflexivity.
  assert (h4 : In img_b [img_b]) by (left; reflexivity).
  assert (h5 : forall cid' q, cid' <> 7%Z ->
                 In q (dict_get_or cid' (cluster_images gap_images) []) ->
                 image_key q <> image_key img_b).
  { intros cid' q Hne.
    assert (Ei : cluster_images gap_images
                 = [(0%Z, [img_a]); (7%Z, [img_b]); (1%Z, [img_a; img_c; img_a])])
      by reflexivity.
    rewrite Ei. unfold dict_get_or. cbn [dict_get].
    destruct (Z.eqb_spec cid' 0) as [E0|N0].
    { intros [X|[]]. subst q. discriminate. }
    destruct (Z.eqb_spec cid' 7) as [E7|N7]; [contradiction|].
    destruct (Z.eqb_spec cid' 1) as [E1|N1].
    { intros [X|[X|[X|[]]]]; subst q; discriminate. }
    intros []. }
  exact (conj h1 (conj h2 (conj h3
    (uncopied_sources_are_processed read_all T0 M0 dir_B gap_plan run_gap gap_images
       [] 7%Z [img_b] img_b h1 (or_intror h2) h3 h4 h5)))).
Defined.

(** The gap batch under the default threshold and under 0.99: cluster 0
    stays with person 1. *)
Lemma stricter_settings_match_less_witness :
  (forall a b c : Q, fle a b = true -> fle b c = true -> fle a c = true)
  /\ (forall a b : Q, flt a b = negb (fle b a))
  /\ fle T0 T_strict = true /\ fle M0 M0 = true
  /\ match_and_apply T0 M0 dir_B gap_plan = Returns run_gap
  /\ match_and_apply T_strict M0 dir_B gap_plan = Returns run_gap_strict
  /\ dict_get 0%Z (out_assigned run_gap_strict) = Some 1%Z
  /\ dict_get 0%Z (out_assigned run_gap) = Some 1%Z.
Proof.
  assert (h1 : forall a b c : Q, fle a b = true -> fle b c = true -> fle a c = true).
  { intros a b c Hab Hbc. simpl in *. apply Qle_bool_iff in Hab, Hbc.
    apply Qle_bool_iff. exact (Qle_trans _ _ _ Hab Hbc). }
  assert (h2 : forall a b : Q, flt a b = negb (fle b a)) by reflexivity.
  assert (h3 : fle T0 T_strict = true) by reflexivity.
  assert (h4 : fle M0 M0 = true) by reflexivity.
  assert (h5 : match_and_apply T0 M0 dir_B gap_plan = Returns run_gap)
    by (vm_compute; reflexivity).
  assert (h6 : match_and_apply T_strict M0 dir_B gap_plan = Returns run_gap_strict)
    by (vm_compute; reflexivity).
  assert (h7 : dict_get 0%Z (out_assigned run_gap_strict) = Some 1%Z)
    by (vm_compute; reflexivity).
  exact (conj h1 (conj h2 (conj h3 (conj h4 (conj h5 (conj h6 (conj h7
    (proj1 (stricter_settings_match_less h1 h2 T0 T_strict M0 M0 dir_B gap_plan
              run_gap run_gap_strict h3 h4 h5 h6) 0%Z 1%Z h7)))))))).
Defined.

(** The person minted for cluster 1 of the gap batch is number 2 and has
    folder 2. *)
Lemma appended_persons_have_folders_witness :
  match_and_apply T0 M0 dir_B gap_plan = Returns run_gap
  /\ NoDup (eligible_clusters gap_plan)
  /\ In minted_gap (skipn (List.length (loaded_of dir_B)) (out_persons run_gap))
  /\ number minted_gap = 2%Z
  /\ (exists cid, In cid (eligible_clusters gap_plan)
        /\ dict_get cid (out_new_nums run_gap) = Some (number minted_gap))
  /\ (0 <= number minted_gap)%Z
  /\ In (Z.to_N (number minted_gap)) (numbered_dirs (out_dir run_gap)).
Proof.
  assert (h1 : match_and_apply T0 M0 dir_B gap_plan = Returns run_gap)
    by (vm_compute; reflexivity).
  assert (h2 : NoDup (eligible_clusters gap_plan)).
  { simpl. repeat constructor; simpl; intros X; intuition discriminate. }
  assert (h3 : In minted_gap (skipn (List.length (loaded_of dir_B)) (out_persons run_gap))).
  { unfold minted_gap.
    destruct (skipn (List.length (loaded_of dir_B)) (out_persons run_gap)) as [|x r] eqn:Es.
    - vm_compute in Es. discriminate Es.
    - left. reflexivity. }
  assert (h4 : number minted_gap = 2%Z) by (vm_compute; reflexivity).
  exact (conj h1 (conj h2 (conj h3 (conj h4
    (appended_persons_have_folders T0 M0 dir_B gap_plan run_gap minted_gap h1 h2 h3))))).
Defined.

(** A folder without registry and the cluster 0 listed twice: persons 1
    and 2 are appended, only folder 2 is made. *)
Lemma duplicate_id_is_minted_twice_witness :
  proto_list (loaded_of cold_dir) = []
  /\ out_persons (returned (match_and_apply T0 M0 cold_dir
                              (mkPlan [(0%Z, Convertible [1; 0])] [0%Z; 0%Z])))
     = [new_person 1 (_normalize_np [1; 0]); new_person 2 (_normalize_np [1; 0])]
  /\ numbered_dirs (out_dir (returned (match_and_apply T0 M0 cold_dir
                                (mkPlan [(0%Z, Convertible [1; 0])] [0%Z; 0%Z]))))
     = [2%N].
Proof.
  assert (h1 : proto_list (loaded_of cold_dir) = []) by reflexivity.
  destruct (duplicate_id_is_minted_twice T0 M0 cold_dir 0%Z [1; 0] h1) as [E _].
  rewrite E. split; [exact h1|]. split; reflexivity.
Defined.
End MoreWitnesses.
